(** * ReduceGotos: a shallow embedding of [ReduceGotosPass::process_code]

    The pass of [opt/reduce-gotos/ReduceGotos.cpp] rewrites the editable
    control-flow graph of one method in two steps:

    - Optimization 1 inverts a conditional branch and swaps its goto and
      branch targets when the goto target has several predecessors and the
      branch target exactly one;
    - Optimization 2 replaces goto edges into blocks made of a single return
      by a copy of that return, dropping a trailing move that only staged
      the returned value, and repeats while such a move was dropped.

    The graph is an arena: blocks are addressed by their position in the
    block list, edges by their position in the edge list; a deleted edge
    leaves an empty slot so that the handles of the other edges stay valid. *)

From Stdlib Require Import ZArith Lia.
From stdpp Require Import base decidable option numbers list strings.

Set Default Proof Using "Type".

(** ** Instruction model *)

Abbreviation reg_t := nat (only parsing).

(** Modelled from the spec: the opcode set of [IROpcode.h], which is not part
    of the sources at hand.  The spec classifies opcodes as conditional
    branch, unconditional jump, return, move or other, and names [if-eqz],
    [if-nez], [move] and [return]; the constructors below are the Dalvik
    opcodes of these classes, every remaining opcode being [OPCODE_OTHER]. *)
Inductive IROpcode : Type :=
  | OPCODE_MOVE | OPCODE_MOVE_WIDE | OPCODE_MOVE_OBJECT
  | OPCODE_RETURN_VOID | OPCODE_RETURN | OPCODE_RETURN_WIDE
  | OPCODE_RETURN_OBJECT
  | OPCODE_GOTO
  | OPCODE_IF_EQ | OPCODE_IF_NE | OPCODE_IF_LT
  | OPCODE_IF_GE | OPCODE_IF_GT | OPCODE_IF_LE
  | OPCODE_IF_EQZ | OPCODE_IF_NEZ | OPCODE_IF_LTZ
  | OPCODE_IF_GEZ | OPCODE_IF_GTZ | OPCODE_IF_LEZ
  | OPCODE_OTHER (n : nat).

#[global] Instance IROpcode_eq_dec : EqDecision IROpcode.
Proof. solve_decision. Defined.

(** Modelled from the spec: the classification predicates of [IROpcode.h]. *)
Definition is_move (op : IROpcode) : bool :=
  match op with
  | OPCODE_MOVE | OPCODE_MOVE_WIDE | OPCODE_MOVE_OBJECT => true
  | _ => false
  end.

Definition is_return (op : IROpcode) : bool :=
  match op with
  | OPCODE_RETURN_VOID | OPCODE_RETURN | OPCODE_RETURN_WIDE
  | OPCODE_RETURN_OBJECT => true
  | _ => false
  end.

Definition is_conditional_branch (op : IROpcode) : bool :=
  match op with
  | OPCODE_IF_EQ | OPCODE_IF_NE | OPCODE_IF_LT
  | OPCODE_IF_GE | OPCODE_IF_GT | OPCODE_IF_LE
  | OPCODE_IF_EQZ | OPCODE_IF_NEZ | OPCODE_IF_LTZ
  | OPCODE_IF_GEZ | OPCODE_IF_GTZ | OPCODE_IF_LEZ => true
  | _ => false
  end.

(** Modelled from the spec: [opcode::invert_conditional_branch], the total
    and involutive map from a conditional branch to its logical negation
    ("branch if equal" <-> "branch if not equal"). Other opcodes are left
    alone; the pass only calls it on conditional branches. *)
Definition invert_conditional_branch (op : IROpcode) : IROpcode :=
  match op with
  | OPCODE_IF_EQ => OPCODE_IF_NE | OPCODE_IF_NE => OPCODE_IF_EQ
  | OPCODE_IF_LT => OPCODE_IF_GE | OPCODE_IF_GE => OPCODE_IF_LT
  | OPCODE_IF_GT => OPCODE_IF_LE | OPCODE_IF_LE => OPCODE_IF_GT
  | OPCODE_IF_EQZ => OPCODE_IF_NEZ | OPCODE_IF_NEZ => OPCODE_IF_EQZ
  | OPCODE_IF_LTZ => OPCODE_IF_GEZ | OPCODE_IF_GEZ => OPCODE_IF_LTZ
  | OPCODE_IF_GTZ => OPCODE_IF_LEZ | OPCODE_IF_LEZ => OPCODE_IF_GTZ
  | _ => op
  end.

(** Modelled from the spec: [IRInstruction] has an opcode, an optional
    destination register, an ordered list of source registers and a wide
    flag. *)
Record IRInstruction : Type := mkInsn {
  insn_opcode : IROpcode;
  insn_dest : option reg_t;
  insn_srcs : list reg_t;
  insn_wide : bool
}.

#[global] Instance IRInstruction_eq_dec : EqDecision IRInstruction.
Proof. solve_decision. Defined.

Definition set_opcode (op : IROpcode) (i : IRInstruction) : IRInstruction :=
  mkInsn op (insn_dest i) (insn_srcs i) (insn_wide i).

Definition srcs_size (i : IRInstruction) : nat := length (insn_srcs i).

(** [src(k)]; the callers below only read index 0 of an instruction that has
    a source (a return whose [srcs_size] is non-zero, or a move). *)
Definition src (i : IRInstruction) (k : nat) : reg_t :=
  default 0 (insn_srcs i !! k).

Definition set_src (k : nat) (r : reg_t) (i : IRInstruction) : IRInstruction :=
  mkInsn (insn_opcode i) (insn_dest i) (<[k := r]> (insn_srcs i)) (insn_wide i).

(** ** The control-flow graph *)

Inductive EdgeType : Type := EDGE_GOTO | EDGE_BRANCH | EDGE_THROW | EDGE_GHOST.

#[global] Instance EdgeType_eq_dec : EqDecision EdgeType.
Proof. solve_decision. Defined.

Abbreviation BlockId := nat (only parsing).
Abbreviation EdgeId := nat (only parsing).

Record Edge : Type := mkEdge {
  e_src : BlockId;
  e_type : EdgeType;
  e_target : BlockId
}.

#[global] Instance Edge_eq_dec : EqDecision Edge.
Proof. solve_decision. Defined.

Abbreviation Block := (list IRInstruction) (only parsing).

(** Modelled from the spec: [cfg::ControlFlowGraph] of [ControlFlow.h].
    A block is its ordered instruction list and is identified by its
    position; an edge is identified by its slot in [cfg_edges], a deleted
    edge leaving [None] behind. Predecessor and successor sets are derived
    from the edge arena. *)
Record ControlFlowGraph : Type := mkCFG {
  cfg_blocks : list Block;
  cfg_edges : list (option Edge)
}.

#[global] Instance ControlFlowGraph_eq_dec : EqDecision ControlFlowGraph.
Proof. solve_decision. Defined.

(** [cfg.blocks()] *)
Definition blocks (cfg : ControlFlowGraph) : list BlockId :=
  seq 0 (length (cfg_blocks cfg)).

Definition block_insns (cfg : ControlFlowGraph) (b : BlockId) : Block :=
  default [] (cfg_blocks cfg !! b).

(** [b->get_first_insn()] and [b->get_last_insn()]; [None] is [b->end()]. *)
Definition get_first_insn (cfg : ControlFlowGraph) (b : BlockId)
  : option IRInstruction := head (block_insns cfg b).

Definition get_last_insn (cfg : ControlFlowGraph) (b : BlockId)
  : option IRInstruction := last (block_insns cfg b).

Definition get_edge (cfg : ControlFlowGraph) (e : EdgeId) : option Edge :=
  mjoin (cfg_edges cfg !! e).

(** The handles, from slot [k] on, of the live edges that satisfy [P]. *)
Fixpoint find_edges (P : Edge -> bool) (k : nat) (es : list (option Edge))
  : list EdgeId :=
  match es with
  | [] => []
  | Some e :: es' =>
      if P e then k :: find_edges P (S k) es' else find_edges P (S k) es'
  | None :: es' => find_edges P (S k) es'
  end.

Definition has_target (b : BlockId) (e : Edge) : bool :=
  bool_decide (e_target e = b).

Definition is_succ_of_type (b : BlockId) (t : EdgeType) (e : Edge) : bool :=
  bool_decide (e_src e = b) && bool_decide (e_type e = t).

(** [b->preds()] *)
Definition preds (cfg : ControlFlowGraph) (b : BlockId) : list EdgeId :=
  find_edges (has_target b) 0 (cfg_edges cfg).

(** The successor edges of [b] that have type [t]. *)
Definition succs_of_type (cfg : ControlFlowGraph) (b : BlockId)
    (t : EdgeType) : list EdgeId :=
  find_edges (is_succ_of_type b t) 0 (cfg_edges cfg).

(** [cfg.get_succ_edge_of_type(b, t)]: the first such edge; [None] is
    [nullptr]. *)
Definition get_succ_edge_of_type (cfg : ControlFlowGraph) (b : BlockId)
    (t : EdgeType) : option EdgeId :=
  head (succs_of_type cfg b t).

Definition retarget (t : BlockId) (e : Edge) : Edge :=
  mkEdge (e_src e) (e_type e) t.

(** [cfg.set_edge_target(e, t)] *)
Definition set_edge_target (e : EdgeId) (t : BlockId) (cfg : ControlFlowGraph)
  : ControlFlowGraph :=
  mkCFG (cfg_blocks cfg) (alter (fmap (retarget t)) e (cfg_edges cfg)).

(** [cfg.delete_edge(e)] *)
Definition delete_edge (e : EdgeId) (cfg : ControlFlowGraph)
  : ControlFlowGraph :=
  mkCFG (cfg_blocks cfg) (<[e := None]> (cfg_edges cfg)).

Definition update_block (f : Block -> Block) (b : BlockId)
    (cfg : ControlFlowGraph) : ControlFlowGraph :=
  mkCFG (alter f b (cfg_blocks cfg)) (cfg_edges cfg).

(** Mutation of the last instruction of a block in place. *)
Definition map_last (f : IRInstruction -> IRInstruction) (l : Block) : Block :=
  match last l with
  | Some i => removelast l ++ [f i]
  | None => l
  end.

(** [src->remove_opcode(last)] and [src->push_back(insn)] *)
Definition remove_last_insn (b : BlockId) : ControlFlowGraph -> ControlFlowGraph :=
  update_block (fun l => removelast l) b.

Definition push_back (b : BlockId) (i : IRInstruction)
  : ControlFlowGraph -> ControlFlowGraph :=
  update_block (fun l => l ++ [i]) b.

(** ** Statistics *)

Record Stats : Type := mkStats {
  replaced_gotos_with_returns : nat;
  removed_trailing_moves : nat;
  inverted_conditional_branches : nat
}.

#[global] Instance Stats_eq_dec : EqDecision Stats.
Proof. solve_decision. Defined.

Definition stats0 : Stats := mkStats 0 0 0.

Definition incr_inverted (s : Stats) : Stats :=
  mkStats (replaced_gotos_with_returns s) (removed_trailing_moves s)
          (S (inverted_conditional_branches s)).

Definition incr_moves (s : Stats) : Stats :=
  mkStats (replaced_gotos_with_returns s) (S (removed_trailing_moves s))
          (inverted_conditional_branches s).

Definition incr_gotos (s : Stats) : Stats :=
  mkStats (S (replaced_gotos_with_returns s)) (removed_trailing_moves s)
          (inverted_conditional_branches s).

(** ** Optimization 1: inversion of conditional branches *)

(** Modelled from the spec: [b->branchingness() == opcode::BRANCH_IF] holds
    of the blocks whose terminal instruction is a conditional branch. *)
Definition branchingness_is_if (cfg : ControlFlowGraph) (b : BlockId) : bool :=
  match get_last_insn cfg b with
  | Some i => is_conditional_branch (insn_opcode i)
  | None => false
  end.

Definition num_preds (cfg : ControlFlowGraph) (b : BlockId) : nat :=
  length (preds cfg b).

(** The condition of the [if] at lines 72-73, on the two edges found. *)
Definition should_invert (cfg : ControlFlowGraph) (ge be : Edge) : bool :=
  (1 <? num_preds cfg (e_target ge)) && (num_preds cfg (e_target be) =? 1).

(** The effect of lines 74-81. *)
Definition invert_and_swap (b : BlockId) (gi bi : EdgeId) (ge be : Edge)
    (cfg : ControlFlowGraph) : ControlFlowGraph :=
  let cfg1 :=
    update_block
      (map_last (fun i => set_opcode (invert_conditional_branch (insn_opcode i)) i))
      b cfg in
  let branch_target := e_target be in
  let goto_target := e_target ge in
  set_edge_target gi branch_target (set_edge_target bi goto_target cfg1).

(** One turn of the loop at lines 53-83; [None] is a failed
    [always_assert]. The handles that [get_succ_edge_of_type] returns are
    those of live edges, whose source, type and target are then read. *)
Definition invert_block (b : BlockId) (st : ControlFlowGraph * Stats)
  : option (ControlFlowGraph * Stats) :=
  let '(cfg, stats) := st in
  if negb (branchingness_is_if cfg b) then Some st
  else
    match get_last_insn cfg b with
    | None => None
    | Some insn =>
        if negb (is_conditional_branch (insn_opcode insn)) then None
        else
          match get_succ_edge_of_type cfg b EDGE_GOTO with
          | None => None
          | Some gi =>
              match get_succ_edge_of_type cfg b EDGE_BRANCH with
              | None => None
              | Some bi =>
                  match get_edge cfg gi, get_edge cfg bi with
                  | Some ge, Some be =>
                      if should_invert cfg ge be
                      then Some (invert_and_swap b gi bi ge be cfg,
                                 incr_inverted stats)
                      else Some st
                  | _, _ => None
                  end
              end
          end
    end.

Fixpoint invert_blocks (bs : list BlockId) (st : ControlFlowGraph * Stats)
  : option (ControlFlowGraph * Stats) :=
  match bs with
  | [] => Some st
  | b :: bs' =>
      match invert_block b st with
      | Some st' => invert_blocks bs' st'
      | None => None
      end
  end.

Definition optimization1 (st : ControlFlowGraph * Stats)
  : option (ControlFlowGraph * Stats) :=
  invert_blocks (blocks (fst st)) st.

(** ** Optimization 2: folding gotos into returns *)

(** The state of one scan of the block order: the graph, the counters, the
    [rerun] flag and the vector [edges_to_delete]. *)
Record ScanState : Type := mkScan {
  s_cfg : ControlFlowGraph;
  s_stats : Stats;
  s_rerun : bool;
  s_del : list EdgeId
}.

#[global] Instance ScanState_eq_dec : EqDecision ScanState.
Proof. solve_decision. Defined.

(** The test at lines 136-138 on the last instruction of [src]; a move
    has a destination register, which [dest()] returns. *)
Definition matching_move (src_last cloned : IRInstruction) : bool :=
  is_move (insn_opcode src_last)
  && bool_decide (insn_dest src_last = Some (src cloned 0))
  && bool_decide (insn_wide src_last = insn_wide cloned).

(** Lines 124-148: the last instruction of [s] when it is the move that
    stages the value returned by [cloned]. *)
Definition find_trailing_move (cfg : ControlFlowGraph) (s : BlockId)
    (cloned : IRInstruction) : option IRInstruction :=
  if 0 <? srcs_size cloned then
    match get_last_insn cfg s with
    | Some src_last =>
        if matching_move src_last cloned then Some src_last else None
    | None => None
    end
  else None.

(** The body of the loop over [preds] at lines 113-163, for one edge;
    [prev] is the block before the target in [order], if any, and [mie] the
    single return of the target. *)
Definition fold_edge (prev : option BlockId) (mie : IRInstruction)
    (st : ScanState) (ei : EdgeId) : ScanState :=
  match get_edge (s_cfg st) ei with
  | None => st
  | Some e =>
      if negb (bool_decide (e_type e = EDGE_GOTO)) then st
      else
        let s := e_src e in
        let cloned := mie in
        match find_trailing_move (s_cfg st) s cloned with
        | Some src_last =>
            let cloned' := set_src 0 (src src_last 0) cloned in
            mkScan (push_back s cloned' (remove_last_insn s (s_cfg st)))
                   (incr_moves (s_stats st))
                   true
                   (s_del st ++ [ei])
        | None =>
            if bool_decide (prev = Some s) then st
            else mkScan (push_back s cloned (s_cfg st)) (s_stats st)
                        (s_rerun st) (s_del st ++ [ei])
        end
  end.

(** The body of the loop over [order] at lines 97-164, for one block. *)
Definition process_block (prev : option BlockId) (b : BlockId)
    (st : ScanState) : ScanState :=
  match block_insns (s_cfg st) b with
  | [mie] =>
      if is_return (insn_opcode mie)
      then foldl (fold_edge prev mie) st (preds (s_cfg st) b)
      else st
  | _ => st
  end.

Fixpoint scan (prev : option BlockId) (order : list BlockId) (st : ScanState)
  : ScanState :=
  match order with
  | [] => st
  | b :: rest => scan (Some b) rest (process_block prev b st)
  end.

(** [block_it != order.begin() && *std::prev(block_it)] at line 155, for
    the position reached after the blocks [l1] of a scan that began with
    [prev]: the last block of [l1], or [prev] if [l1] is empty. *)
Definition prev_of (prev : option BlockId) (l1 : list BlockId)
  : option BlockId :=
  match last l1 with
  | Some p => Some p
  | None => prev
  end.

(** Lines 166-169. *)
Definition delete_edges (del : list EdgeId) (st : ControlFlowGraph * Stats)
  : ControlFlowGraph * Stats :=
  foldl (fun '(cfg, stats) e => (delete_edge e cfg, incr_gotos stats)) st del.

(** One turn of the [do ... while (rerun)] loop; the boolean is [rerun]. *)
Definition iteration (order : list BlockId) (st : ControlFlowGraph * Stats)
  : ControlFlowGraph * Stats * bool :=
  let s := scan None order (mkScan (fst st) (snd st) false []) in
  (delete_edges (s_del s) (s_cfg s, s_stats s), s_rerun s).

(** The loop itself, with a bound on the number of turns: [None] when the
    bound is reached before [rerun] stays false. *)
Fixpoint fold_loop (fuel : nat) (order : list BlockId)
    (st : ControlFlowGraph * Stats) : option (ControlFlowGraph * Stats) :=
  match fuel with
  | 0 => None
  | S fuel' =>
      let '(st', rerun) := iteration order st in
      if rerun then fold_loop fuel' order st' else Some st'
  end.

Definition count_moves_block (l : Block) : nat :=
  length (filter (fun i => is_move (insn_opcode i) = true) l).

Definition count_moves (cfg : ControlFlowGraph) : nat :=
  sum_list (map count_moves_block (cfg_blocks cfg)).

Definition count_insns (cfg : ControlFlowGraph) : nat :=
  sum_list (map length (cfg_blocks cfg)).

Section Pass.

(** Modelled from the spec: [cfg.order()], the enumeration of the blocks
    in layout order, computed by the graph and not by this pass. *)
Variable order : ControlFlowGraph -> list BlockId.

(** Lines 92-170: the order is taken once, before the loop. The bound on
    the number of turns is one more than the number of moves of the graph,
    which the loop never reaches. *)
Definition optimization2 (st : ControlFlowGraph * Stats)
  : option (ControlFlowGraph * Stats) :=
  fold_loop (S (count_moves (fst st))) (order (fst st)) st.

(** [ReduceGotosPass::process_code], on the graph built from the code;
    [None] is a failed [always_assert]. *)
Definition process_code (cfg : ControlFlowGraph)
  : option (ControlFlowGraph * Stats) :=
  match optimization1 (cfg, stats0) with
  | None => None
  | Some st1 => optimization2 st1
  end.

End Pass.

Definition b2n (b : bool) : nat := if b then 1 else 0.

(** ** Vocabulary of the statements about Optimization 1 *)

Definition invert_insn (i : IRInstruction) : IRInstruction :=
  set_opcode (invert_conditional_branch (insn_opcode i)) i.

(** The inversion condition of block [b], read off the graph [cfg]: the
    block ends in a conditional branch, its goto target has more than one
    predecessor and its branch target exactly one. *)
Definition inverts (cfg : ControlFlowGraph) (b : BlockId) : bool :=
  branchingness_is_if cfg b &&
  match get_succ_edge_of_type cfg b EDGE_GOTO ≫= get_edge cfg,
        get_succ_edge_of_type cfg b EDGE_BRANCH ≫= get_edge cfg with
  | Some ge, Some be => should_invert cfg ge be
  | _, _ => false
  end.

(** Block [b] and the edges that leave it are the same in both graphs. *)
Definition unchanged_at (cfg cfg' : ControlFlowGraph) (b : BlockId) : Prop :=
  block_insns cfg' b = block_insns cfg b /\
  forall i e, get_edge cfg i = Some e -> e_src e = b -> get_edge cfg' i = Some e.

(** Block [b] of [cfg'] is block [b] of [cfg] with its terminal opcode
    negated and with the targets of its goto and branch edges exchanged. *)
Definition inverted_at (cfg cfg' : ControlFlowGraph) (b : BlockId) : Prop :=
  exists gi bi ge be,
    get_succ_edge_of_type cfg b EDGE_GOTO = Some gi /\
    get_edge cfg gi = Some ge /\
    get_succ_edge_of_type cfg b EDGE_BRANCH = Some bi /\
    get_edge cfg bi = Some be /\
    block_insns cfg' b = map_last invert_insn (block_insns cfg b) /\
    get_edge cfg' gi = Some (mkEdge b EDGE_GOTO (e_target be)) /\
    get_edge cfg' bi = Some (mkEdge b EDGE_BRANCH (e_target ge)) /\
    forall i e, i <> gi -> i <> bi ->
      get_edge cfg i = Some e -> e_src e = b -> get_edge cfg' i = Some e.

(** What does not change anywhere in the graph under Optimization 1. *)
Record same_shape (cfg cfg' : ControlFlowGraph) : Prop := mkSameShape {
  ss_blocks : length (cfg_blocks cfg') = length (cfg_blocks cfg);
  ss_succ : forall b t, succs_of_type cfg' b t = succs_of_type cfg b t;
  ss_preds : forall b, num_preds cfg' b = num_preds cfg b;
  ss_branchingness : forall b,
    branchingness_is_if cfg' b = branchingness_is_if cfg b
}.

(** Block [b] ends in a conditional branch and lacks its goto edge or its
    branch edge: the graph is malformed at [b]. *)
Definition missing_edge (cfg : ControlFlowGraph) (b : BlockId) : bool :=
  branchingness_is_if cfg b &&
  match get_succ_edge_of_type cfg b EDGE_GOTO,
        get_succ_edge_of_type cfg b EDGE_BRANCH with
  | Some _, Some _ => false
  | _, _ => true
  end.

(** Every block that ends in a conditional branch has both edges. *)
Definition well_formed (cfg : ControlFlowGraph) : Prop :=
  forall b, b < length (cfg_blocks cfg) -> missing_edge cfg b = false.

(** ** Vocabulary of the statements about Optimization 2 *)

(** The four ways through the body of the loop over [preds], for the edge
    [ei], the return [mie] of the target and the state [st]. *)
Inductive fold_step (prev : option BlockId) (mie : IRInstruction)
    (st : ScanState) (ei : EdgeId) : ScanState -> Prop :=
  | fold_not_goto :
      (forall e, get_edge (s_cfg st) ei = Some e -> e_type e <> EDGE_GOTO) ->
      fold_step prev mie st ei st
  | fold_with_move e mv :
      get_edge (s_cfg st) ei = Some e -> e_type e = EDGE_GOTO ->
      find_trailing_move (s_cfg st) (e_src e) mie = Some mv ->
      fold_step prev mie st ei
        (mkScan (push_back (e_src e) (set_src 0 (src mv 0) mie)
                   (remove_last_insn (e_src e) (s_cfg st)))
                (incr_moves (s_stats st)) true (s_del st ++ [ei]))
  | fold_fallthrough e :
      get_edge (s_cfg st) ei = Some e -> e_type e = EDGE_GOTO ->
      find_trailing_move (s_cfg st) (e_src e) mie = None ->
      prev = Some (e_src e) ->
      fold_step prev mie st ei st
  | fold_plain e :
      get_edge (s_cfg st) ei = Some e -> e_type e = EDGE_GOTO ->
      find_trailing_move (s_cfg st) (e_src e) mie = None ->
      prev <> Some (e_src e) ->
      fold_step prev mie st ei
        (mkScan (push_back (e_src e) mie (s_cfg st)) (s_stats st)
                (s_rerun st) (s_del st ++ [ei])).

(** How the counters, the queue and the number of moves of a later state
    of a scan relate to those of an earlier one. *)
Record scan_progress (st st' : ScanState) : Prop := mkProgress {
  sp_moves :
    count_moves (s_cfg st') + removed_trailing_moves (s_stats st')
    = count_moves (s_cfg st) + removed_trailing_moves (s_stats st);
  sp_mono :
    removed_trailing_moves (s_stats st) <= removed_trailing_moves (s_stats st');
  sp_queue :
    removed_trailing_moves (s_stats st') + length (s_del st)
    <= removed_trailing_moves (s_stats st) + length (s_del st');
  sp_rerun :
    s_rerun st' = s_rerun st
                  || (removed_trailing_moves (s_stats st)
                      <? removed_trailing_moves (s_stats st'));
  sp_gotos :
    replaced_gotos_with_returns (s_stats st')
    = replaced_gotos_with_returns (s_stats st);
  sp_inverted :
    inverted_conditional_branches (s_stats st')
    = inverted_conditional_branches (s_stats st)
}.

(** The edge invariant of the graph: a block that ends in a conditional
    branch has exactly one outgoing goto edge and exactly one outgoing
    branch edge. *)
Definition edge_invariant (cfg : ControlFlowGraph) : Prop :=
  forall b,
    b < length (cfg_blocks cfg) -> branchingness_is_if cfg b = true ->
    length (succs_of_type cfg b EDGE_GOTO) = 1 /\
    length (succs_of_type cfg b EDGE_BRANCH) = 1.

(** What a scan started on the graph [cfg0] keeps: the edges, the number of
    blocks, the blocks that still end in a conditional branch, and the fact
    that no queued edge leaves such a block. *)
Record scan_frame (cfg0 : ControlFlowGraph) (st : ScanState) : Prop :=
  mkFrame {
  sf_edges : cfg_edges (s_cfg st) = cfg_edges cfg0;
  sf_length : length (cfg_blocks (s_cfg st)) = length (cfg_blocks cfg0);
  sf_blocks : forall b,
    branchingness_is_if (s_cfg st) b = true ->
    block_insns (s_cfg st) b = block_insns cfg0 b;
  sf_queue : forall i,
    i ∈ s_del st ->
    exists e, get_edge cfg0 i = Some e /\
              branchingness_is_if (s_cfg st) (e_src e) = false
}.

(** ** The loop of Optimization 2 as the specification words it *)

(** "If any trailing move was eliminated this iteration, recompute the
    block order and repeat from step 1": the order is derived from the
    current graph at the start of every turn. *)
Fixpoint fold_loop_fresh (fuel : nat) (order : ControlFlowGraph -> list BlockId)
    (st : ControlFlowGraph * Stats) : option (ControlFlowGraph * Stats) :=
  match fuel with
  | 0 => None
  | S fuel' =>
      let '(st', rerun) := iteration (order (fst st)) st in
      if rerun then fold_loop_fresh fuel' order st' else Some st'
  end.

Definition process_code_fresh (order : ControlFlowGraph -> list BlockId)
    (cfg : ControlFlowGraph) : option (ControlFlowGraph * Stats) :=
  match optimization1 (cfg, stats0) with
  | None => None
  | Some st1 => fold_loop_fresh (S (count_moves (fst st1))) order st1
  end.

(** ** Sample graphs *)

Definition move_insn (d s : reg_t) : IRInstruction :=
  mkInsn OPCODE_MOVE (Some d) [s] false.
Definition return_insn (r : reg_t) : IRInstruction :=
  mkInsn OPCODE_RETURN None [r] false.
Definition return_void : IRInstruction :=
  mkInsn OPCODE_RETURN_VOID None [] false.
Definition if_eqz (r : reg_t) : IRInstruction :=
  mkInsn OPCODE_IF_EQZ None [r] false.
Definition if_nez (r : reg_t) : IRInstruction :=
  mkInsn OPCODE_IF_NEZ None [r] false.
Definition other_insn (n : nat) : IRInstruction :=
  mkInsn (OPCODE_OTHER n) None [] false.

(** A layout order: the entry block and the blocks that some edge enters,
    in the order of the block list, then the blocks without predecessor,
    which cannot be reached. Every block is listed once. *)
Definition is_entered (cfg : ControlFlowGraph) (b : BlockId) : Prop :=
  b = 0 \/ 0 < num_preds cfg b.

Definition layout_entered (cfg : ControlFlowGraph) : list BlockId :=
  filter (is_entered cfg) (blocks cfg)
  ++ filter (fun b => ~ is_entered cfg b) (blocks cfg).

(** Block 3 stages the value returned by block 4; block 2 is a void return
    reached from block 5 only. *)
Definition stale_order_cfg : ControlFlowGraph :=
  mkCFG [ [other_insn 0]; [if_eqz 0]; [return_void];
          [move_insn 1 0]; [return_insn 1]; [other_insn 5] ]
        [ Some (mkEdge 0 EDGE_GOTO 1); Some (mkEdge 1 EDGE_GOTO 3);
          Some (mkEdge 1 EDGE_BRANCH 5); Some (mkEdge 5 EDGE_GOTO 2);
          Some (mkEdge 3 EDGE_GOTO 4) ].

(** Block 0 ends in [if-eqz r0]; its goto target, block 1, has two
    predecessors and its branch target, block 2, has one. *)
Definition inversion_cfg : ControlFlowGraph :=
  mkCFG [ [if_eqz 0]; [other_insn 1]; [other_insn 2]; [other_insn 3] ]
        [ Some (mkEdge 0 EDGE_GOTO 1); Some (mkEdge 0 EDGE_BRANCH 2);
          Some (mkEdge 3 EDGE_GOTO 1) ].

(** Block 1 ends in [move r1, r0] and goes to block 3, which is
    [return r1]; block 2 lies between them in the layout. *)
Definition fold_value_cfg : ControlFlowGraph :=
  mkCFG [ [other_insn 0]; [other_insn 1; move_insn 1 0]; [other_insn 2];
          [return_insn 1] ]
        [ Some (mkEdge 1 EDGE_GOTO 3); Some (mkEdge 0 EDGE_GOTO 1) ].

(** Block 0 ends in a conditional branch and has no branch edge. *)
Definition malformed_cfg : ControlFlowGraph :=
  mkCFG [ [if_eqz 0]; [return_void] ] [ Some (mkEdge 0 EDGE_GOTO 1) ].

(** ** Execution of a graph *)

(** Modelled from the spec: the meaning of the instructions and of the
    edges, which the pass takes from the instruction model and from the
    graph. A move copies its source register into its destination register
    (a wide one copies the pair of registers); a return ends the method with
    the contents of the registers it names; a conditional branch tests its
    registers and an opcode and its inverse give opposite verdicts; when the
    verdict is true control takes the branch edge of the block, otherwise it
    goes on with the next instruction; at the end of a block control takes
    the goto edge. Every other instruction acts on the registers and on the
    rest of the machine state in a way the pass does not look at. *)
Definition Regs : Type := reg_t -> Z.

Definition set_reg (r : reg_t) (v : Z) (regs : Regs) : Regs :=
  fun x => if decide (x = r) then v else regs x.

Definition read_reg (regs : Regs) (wide : bool) (r : reg_t) : list Z :=
  if wide then [regs r; regs (S r)] else [regs r].

Definition do_move (mv : IRInstruction) (regs : Regs) : Regs :=
  match insn_dest mv with
  | None => regs
  | Some d =>
      let s := src mv 0 in
      if insn_wide mv
      then set_reg (S d) (regs (S s)) (set_reg d (regs s) regs)
      else set_reg d (regs s) regs
  end.

Definition ret_vals (i : IRInstruction) (regs : Regs) : list Z :=
  concat (map (read_reg regs (insn_wide i)) (insn_srcs i)).

Definition eval_cond (i : IRInstruction) (regs : Regs) : bool :=
  let a := regs (src i 0) in
  let b := regs (src i 1) in
  match insn_opcode i with
  | OPCODE_IF_EQ => (a =? b)%Z | OPCODE_IF_NE => negb (a =? b)%Z
  | OPCODE_IF_LT => (a <? b)%Z | OPCODE_IF_GE => negb (a <? b)%Z
  | OPCODE_IF_GT => (b <? a)%Z | OPCODE_IF_LE => negb (b <? a)%Z
  | OPCODE_IF_EQZ => (a =? 0)%Z | OPCODE_IF_NEZ => negb (a =? 0)%Z
  | OPCODE_IF_LTZ => (a <? 0)%Z | OPCODE_IF_GEZ => negb (a <? 0)%Z
  | OPCODE_IF_GTZ => (0 <? a)%Z | OPCODE_IF_LEZ => negb (0 <? a)%Z
  | _ => false
  end.

Section Execution.

(** The machine state outside the registers, and the effect of the
    instructions that are neither moves, returns nor conditional
    branches. *)
Context {World : Type}.
Variable exec_other : IRInstruction -> Regs -> World -> Regs * World.

(** What is observed of a run: the values returned and the final state
    of the world, or the state of the world when control got lost. *)
Inductive Result : Type :=
  | Returned (vals : list Z) (w : World)
  | Stuck (w : World).

Inductive Outcome : Type :=
  | Done (r : Result)
  | Jump (b : BlockId) (regs : Regs) (w : World).

Definition take_edge (t : option BlockId) (regs : Regs) (w : World)
  : Outcome :=
  match t with
  | Some b => Jump b regs w
  | None => Done (Stuck w)
  end.

(** The instructions [l] of a block whose goto edge leads to [gt] and
    whose branch edge leads to [bt]. *)
Fixpoint exec_insns (gt bt : option BlockId) (l : list IRInstruction)
    (regs : Regs) (w : World) : Outcome :=
  match l with
  | [] => take_edge gt regs w
  | i :: l' =>
      if is_return (insn_opcode i) then Done (Returned (ret_vals i regs) w)
      else if is_conditional_branch (insn_opcode i) then
        if eval_cond i regs then take_edge bt regs w
        else exec_insns gt bt l' regs w
      else if is_move (insn_opcode i) then
        exec_insns gt bt l' (do_move i regs) w
      else
        let '(regs', w') := exec_other i regs w in
        exec_insns gt bt l' regs' w'
  end.

Definition edge_target (cfg : ControlFlowGraph) (b : BlockId) (t : EdgeType)
  : option BlockId :=
  e_target <$> (get_succ_edge_of_type cfg b t ≫= get_edge cfg).

Definition exec_block (cfg : ControlFlowGraph) (b : BlockId)
    (regs : Regs) (w : World) : Outcome :=
  exec_insns (edge_target cfg b EDGE_GOTO) (edge_target cfg b EDGE_BRANCH)
             (block_insns cfg b) regs w.

(** At most [fuel] blocks are run. *)
Fixpoint run (fuel : nat) (cfg : ControlFlowGraph) (b : BlockId)
    (regs : Regs) (w : World) : option Result :=
  match fuel with
  | 0 => None
  | S fuel' =>
      match exec_block cfg b regs w with
      | Done r => Some r
      | Jump b' regs' w' => run fuel' cfg b' regs' w'
      end
  end.

(** The method, entered at block [b] in the state [regs], [w], ends
    with the result [r]. *)
Definition behaves (cfg : ControlFlowGraph) (b : BlockId) (regs : Regs)
    (w : World) (r : Result) : Prop :=
  exists fuel, run fuel cfg b regs w = Some r.

(** Two graphs that no run can tell apart. *)
Definition equivalent (cfg cfg' : ControlFlowGraph) : Prop :=
  forall b regs w r, behaves cfg b regs w r <-> behaves cfg' b regs w r.

End Execution.

(** The shape of the graphs that the builder of the graph hands to the
    pass: a block has at most one goto edge, a conditional branch is the
    last instruction of its block, and a return names at most one
    register. *)
Definition goto_unique (cfg : ControlFlowGraph) : Prop :=
  forall b, length (succs_of_type cfg b EDGE_GOTO) <= 1.

Definition branch_last (cfg : ControlFlowGraph) : Prop :=
  forall b,
    Forall (fun i => is_conditional_branch (insn_opcode i) = false)
           (removelast (block_insns cfg b)).

Definition returns_unary (cfg : ControlFlowGraph) : Prop :=
  forall b,
    Forall (fun i => is_return (insn_opcode i) = true -> srcs_size i <= 1)
           (block_insns cfg b).

(** A block that some edge leaves is a block of the graph. *)
Definition sources_exist (cfg : ControlFlowGraph) : Prop :=
  forall b t, succs_of_type cfg b t <> [] -> b < length (cfg_blocks cfg).

Record structured (cfg : ControlFlowGraph) : Prop := mkStructured {
  st_goto : goto_unique cfg;
  st_branch : branch_last cfg;
  st_returns : returns_unary cfg;
  st_sources : sources_exist cfg
}.

Definition has_return (l : list IRInstruction) : Prop :=
  Exists (fun i => is_return (insn_opcode i) = true) l.

(** What a scan started on the graph [cfg0] keeps of its meaning: the
    edges, the behaviour, the shape of the returns, and the fact that every
    queued edge is a goto edge out of a block that returns before its
    end. *)
Record sem_frame {World : Type}
    (exec_other : IRInstruction -> Regs -> World -> Regs * World)
    (cfg0 : ControlFlowGraph) (st : ScanState) : Prop := mkSemFrame {
  sm_edges : cfg_edges (s_cfg st) = cfg_edges cfg0;
  sm_length : length (cfg_blocks (s_cfg st)) = length (cfg_blocks cfg0);
  sm_equiv : equivalent exec_other cfg0 (s_cfg st);
  sm_returns : returns_unary (s_cfg st);
  sm_queue : forall i,
    i ∈ s_del st ->
    exists e, get_edge cfg0 i = Some e /\ e_type e = EDGE_GOTO /\
              has_return (block_insns (s_cfg st) (e_src e))
}.


(** The property [I] of the state of a scan is kept by every folded edge:
    the step may assume that the edge is a live goto edge into a block
    whose first instruction is the return being copied. *)
Definition fold_preserves (I : ScanState -> Prop) : Prop :=
  forall prev mie st ei e,
    I st ->
    get_edge (s_cfg st) ei = Some e -> e_type e = EDGE_GOTO ->
    is_return (insn_opcode mie) = true ->
    head (block_insns (s_cfg st) (e_target e)) = Some mie ->
    I (fold_edge prev mie st ei).

(** Block 1 goes to block 3, which is [return r5], and ends in an
    instruction that has nothing to do with [r5]. *)
Definition fold_plain_cfg : ControlFlowGraph :=
  mkCFG [ [other_insn 0]; [other_insn 1]; [other_insn 2]; [return_insn 5] ]
        [ Some (mkEdge 1 EDGE_GOTO 3); Some (mkEdge 0 EDGE_GOTO 1) ].

(** Block 0 goes to block 1, the next block of the layout, which is
    [return r5]. *)
Definition fallthrough_cfg : ControlFlowGraph :=
  mkCFG [ [other_insn 0]; [return_insn 5] ] [ Some (mkEdge 0 EDGE_GOTO 1) ].

(** As [inversion_cfg], but both targets of block 0 have one predecessor. *)
Definition no_inversion_cfg : ControlFlowGraph :=
  mkCFG [ [if_eqz 0]; [other_insn 1]; [other_insn 2] ]
        [ Some (mkEdge 0 EDGE_GOTO 1); Some (mkEdge 0 EDGE_BRANCH 2) ].

(** ** Vocabulary of the statements about the pass as a whole *)

(** The number of edges of the graph. *)
Definition count_edges (cfg : ControlFlowGraph) : nat :=
  length (find_edges (fun _ => true) 0 (cfg_edges cfg)).

(** What the pass may do to the edge in slot [i]: an empty slot stays
    empty; an edge is deleted only if it is a goto edge; an edge that stays
    keeps its source and its type, and its target too unless it is a goto
    or a branch edge. *)
Definition edge_fate (cfg cfg' : ControlFlowGraph) (i : EdgeId) : Prop :=
  match get_edge cfg i with
  | None => get_edge cfg' i = None
  | Some e =>
      (get_edge cfg' i = None /\ e_type e = EDGE_GOTO) \/
      (exists e', get_edge cfg' i = Some e' /\
                  e_src e' = e_src e /\ e_type e' = e_type e /\
                  (e_type e <> EDGE_GOTO -> e_type e <> EDGE_BRANCH ->
                   e_target e' = e_target e))
  end.

Record arena_kept (cfg cfg' : ControlFlowGraph) : Prop := mkArenaKept {
  ak_blocks : length (cfg_blocks cfg') = length (cfg_blocks cfg);
  ak_slots : length (cfg_edges cfg') = length (cfg_edges cfg);
  ak_edges : forall i, edge_fate cfg cfg' i
}.

(** The instructions of a block that are neither moves nor returns. *)
Definition is_kept (i : IRInstruction) : Prop :=
  is_move (insn_opcode i) = false /\ is_return (insn_opcode i) = false.

Definition kept_insns (l : list IRInstruction) : list IRInstruction :=
  filter is_kept l.

(** [l'] is [l] with moves taken off its end and returns put at its
    end. *)
Definition trimmed (l l' : list IRInstruction) : Prop :=
  exists p ms rs,
    l = p ++ ms /\ l' = p ++ rs /\
    Forall (fun i => is_move (insn_opcode i) = true) ms /\
    Forall (fun i => is_return (insn_opcode i) = true) rs.

(** The block ends in a return. *)
Definition ends_in_return (l : list IRInstruction) : Prop :=
  exists r, last l = Some r /\ is_return (insn_opcode r) = true.

(** ** The driver: [ReduceGotosPass::run_pass] *)

(** Lines 35-40. *)
Definition METRIC_GOTOS_REPLACED_WITH_RETURNS : string :=
  "num_gotos_replaced_with_returns".
Definition METRIC_TRAILING_MOVES_REMOVED : string :=
  "num_trailing_moves_removed".
Definition METRIC_INVERTED_CONDITIONAL_BRANCHES : string :=
  "num_inverted_conditional_branches".

(** The reducer of lines 201-210, on counters that do not wrap around: the
    counters of a run count edges and instructions held in memory, and
    their sums stay below the width of the counters.
    [combine_stats_wrapping] is the reducer on counters of a given
    width. *)
Definition combine_stats (a b : Stats) : Stats :=
  mkStats (replaced_gotos_with_returns a + replaced_gotos_with_returns b)
          (removed_trailing_moves a + removed_trailing_moves b)
          (inverted_conditional_branches a + inverted_conditional_branches b).

(** The test at lines 190-191 that guards the trace of a method. *)
Definition traces (s : Stats) : bool :=
  negb (replaced_gotos_with_returns s =? 0)
  || negb (inverted_conditional_branches s =? 0).

(** Modelled from the spec: a method of the scope is seen through
    [method->get_code()], which is null or the code of the method, here its
    graph. *)
Abbreviation DexMethod := (option ControlFlowGraph) (only parsing).

(** The mapper of lines 183-200: the statistics of one method, whose graph
    is rewritten in place; [None] is a failed [always_assert]. *)
Definition reduce_method (order : ControlFlowGraph -> list BlockId)
    (m : DexMethod) : option (DexMethod * Stats) :=
  match m with
  | None => Some (None, stats0)
  | Some cfg =>
      match process_code order cfg with
      | Some (cfg', stats) => Some (Some cfg', stats)
      | None => None
      end
  end.

(** Modelled from the spec: [walk::parallel::reduce_methods], which maps
    every method of the scope and combines the results with the reducer,
    starting from a zero record; here with one worker that takes the
    methods in the order of the scope. A failed assertion ends the run. *)
Fixpoint reduce_methods (order : ControlFlowGraph -> list BlockId)
    (scope : list DexMethod) (acc : Stats)
  : option (list DexMethod * Stats) :=
  match scope with
  | [] => Some ([], acc)
  | m :: scope' =>
      match reduce_method order m with
      | None => None
      | Some (m', s) =>
          match reduce_methods order scope' (combine_stats acc s) with
          | None => None
          | Some (ms, total) => Some (m' :: ms, total)
          end
      end
  end.

(** Modelled from the spec: the metrics of the pass manager, a counter for
    each name, and [mgr.incr_metric(key, value)], which adds [value] to the
    counter of [key]. *)
Definition Metrics : Type := string -> nat.

Definition incr_metric (key : string) (value : nat) (mgr : Metrics)
  : Metrics :=
  fun k => if decide (k = key) then mgr k + value else mgr k.

(** Lines 176-221, without the traces: the scope after the pass and the
    metrics of the pass manager. *)
Definition run_pass (order : ControlFlowGraph -> list BlockId)
    (scope : list DexMethod) (mgr : Metrics)
  : option (list DexMethod * Metrics) :=
  match reduce_methods order scope stats0 with
  | None => None
  | Some (scope', stats) =>
      Some (scope',
            incr_metric METRIC_INVERTED_CONDITIONAL_BRANCHES
              (inverted_conditional_branches stats)
              (incr_metric METRIC_TRAILING_MOVES_REMOVED
                 (removed_trailing_moves stats)
                 (incr_metric METRIC_GOTOS_REPLACED_WITH_RETURNS
                    (replaced_gotos_with_returns stats) mgr)))
  end.

(** A way of combining the statistics of the methods: the zero record of a
    worker, the record of a method, or two partial results reduced. *)
Inductive Reduction : Type :=
  | RZero
  | RMethod (s : Stats)
  | RCombine (l r : Reduction).

(** A counter of [w] bits that was given the value [n]. *)
Definition wrap (w n : nat) : nat := n mod 2 ^ w.

(** The reducer of lines 201-210 on counters of [w] bits: each of the
    three sums wraps around. *)
Definition combine_stats_wrapping (w : nat) (a b : Stats) : Stats :=
  mkStats
    (wrap w (replaced_gotos_with_returns a + replaced_gotos_with_returns b))
    (wrap w (removed_trailing_moves a + removed_trailing_moves b))
    (wrap w (inverted_conditional_branches a
             + inverted_conditional_branches b)).

(** A record whose counters have [w] bits. *)
Definition fits (w : nat) (s : Stats) : Prop :=
  replaced_gotos_with_returns s < 2 ^ w /\
  removed_trailing_moves s < 2 ^ w /\
  inverted_conditional_branches s < 2 ^ w.

Fixpoint reduce (w : nat) (t : Reduction) : Stats :=
  match t with
  | RZero => stats0
  | RMethod s => s
  | RCombine l r => combine_stats_wrapping w (reduce w l) (reduce w r)
  end.

Fixpoint reduced (t : Reduction) : list Stats :=
  match t with
  | RZero => []
  | RMethod s => [s]
  | RCombine l r => reduced l ++ reduced r
  end.

(** The statistics of a method that the pass does not fail on. *)
Definition method_stats (order : ControlFlowGraph -> list BlockId)
    (m : DexMethod) : Stats :=
  match reduce_method order m with
  | Some (_, s) => s
  | None => stats0
  end.

Definition sum_stats (l : list Stats) : Stats := foldr combine_stats stats0 l.

(** Every run of [cfg] that ends within a number of blocks ends with the
    same result within the same number of blocks on [cfg']. *)
Definition no_slower {World : Type}
    (exec_other : IRInstruction -> Regs -> World -> Regs * World)
    (cfg cfg' : ControlFlowGraph) : Prop :=
  forall fuel b regs w r,
    run exec_other fuel cfg b regs w = Some r ->
    run exec_other fuel cfg' b regs w = Some r.

(** * Properties *)

(** ** Opcodes *)

Lemma is_conditional_branch_invert op :
  is_conditional_branch (invert_conditional_branch op) = is_conditional_branch op.
Proof. by destruct op. Qed.

Lemma invert_conditional_branch_involutive op :
  invert_conditional_branch (invert_conditional_branch op) = op.
Proof. by destruct op. Qed.

Lemma is_return_not_move op : is_return op = true -> is_move op = false.
Proof. by destruct op. Qed.

Lemma is_return_not_conditional op :
  is_return op = true -> is_conditional_branch op = false.
Proof. by destruct op. Qed.

Lemma is_move_not_conditional op :
  is_move op = true -> is_conditional_branch op = false.
Proof. by destruct op. Qed.

(** ** The edge arena *)

Lemma filter_all {A} (P : A -> Prop) `{!forall x, Decision (P x)} (l : list A) :
  Forall P l -> filter P l = l.
Proof.
  induction 1 as [|x l Hx _ IH]; [done|].
  by rewrite filter_cons_True, IH.
Qed.

Section FindEdges.
Implicit Types (P : Edge -> bool) (es : list (option Edge)).

Lemma elem_of_find_edges P k es i :
  i ∈ find_edges P k es <->
  k <= i /\ exists e, es !! (i - k) = Some (Some e) /\ P e = true.
Proof.
  revert k. induction es as [|[e|] es IH]; intros k; simpl.
  - split; [by intros ?%elem_of_nil | by intros (_ & e & ? & _)].
  - destruct (P e) eqn:HP.
    + rewrite elem_of_cons, IH. split.
      * intros [->|(Hk & e' & Hl & HP')].
        -- split; [lia|]. exists e. by rewrite Nat.sub_diag.
        -- split; [lia|]. exists e'. split; [|done].
           by replace (i - k) with (S (i - S k)) by lia.
      * intros (Hk & e' & Hl & HP').
        destruct (decide (i = k)) as [->|Hne]; [by left|right].
        split; [lia|]. exists e'. split; [|done].
        by replace (i - k) with (S (i - S k)) in Hl by lia.
    + rewrite IH. split.
      * intros (Hk & e' & Hl & HP'). split; [lia|]. exists e'. split; [|done].
        by replace (i - k) with (S (i - S k)) by lia.
      * intros (Hk & e' & Hl & HP').
        destruct (decide (i = k)) as [->|Hne].
        { rewrite Nat.sub_diag in Hl. simpl in Hl. congruence. }
        split; [lia|]. exists e'. split; [|done].
        by replace (i - k) with (S (i - S k)) in Hl by lia.
  - rewrite IH. split.
    + intros (Hk & e' & Hl & HP'). split; [lia|]. exists e'. split; [|done].
      by replace (i - k) with (S (i - S k)) by lia.
    + intros (Hk & e' & Hl & HP').
      destruct (decide (i = k)) as [->|Hne].
      { rewrite Nat.sub_diag in Hl. simpl in Hl. congruence. }
      split; [lia|]. exists e'. split; [|done].
      by replace (i - k) with (S (i - S k)) in Hl by lia.
Qed.

Lemma find_edges_lower P k es i : i ∈ find_edges P k es -> k <= i.
Proof. rewrite elem_of_find_edges. tauto. Qed.

Lemma NoDup_find_edges P k es : NoDup (find_edges P k es).
Proof.
  revert k. induction es as [|[e|] es IH]; intros k; simpl; [constructor| |done].
  destruct (P e); [|done]. constructor; [|done].
  intros Hin%find_edges_lower. lia.
Qed.

(** Updating a slot by a function that [P] does not see changes nothing. *)
Lemma find_edges_alter_inv P (f : Edge -> Edge) k i es :
  (forall e, P (f e) = P e) ->
  find_edges P k (alter (fmap f) i es) = find_edges P k es.
Proof.
  intros Hf. unfold alter. revert k i.
  induction es as [|[e|] es IH]; intros k [|i]; simpl; try done.
  - by rewrite Hf.
  - by rewrite IH.
Qed.

Lemma alter_fmap_insert (f : Edge -> Edge) i es e :
  es !! i = Some (Some e) -> alter (fmap f) i es = <[i := Some (f e)]> es.
Proof.
  unfold alter, insert.
  revert i. induction es as [|o es IH]; intros [|i] Hl; simpl in *; try done.
  - by simplify_eq.
  - f_equal. by apply IH.
Qed.

(** Replacing a live edge changes the number of matches by at most one
    each way. *)
Lemma length_find_edges_insert P k es i e e' :
  es !! i = Some (Some e) ->
  length (find_edges P k (<[i := Some e']> es)) + b2n (P e)
  = length (find_edges P k es) + b2n (P e').
Proof.
  unfold insert.
  revert k i. induction es as [|o es IH]; intros k [|i] Hl; simpl in *; try done.
  - simplify_eq. destruct (P e), (P e'); simpl; lia.
  - specialize (IH (S k) i Hl). unfold insert in *.
    destruct o as [e0|]; [destruct (P e0)|]; simpl; lia.
Qed.

(** Emptying a slot removes its handle from every list of matches. *)
Lemma find_edges_delete P k es i :
  find_edges P k (<[i := None]> es)
  = filter (fun j => j <> k + i) (find_edges P k es).
Proof.
  unfold insert.
  revert k i. induction es as [|o es IH]; intros k [|i]; simpl; try done.
  - replace (filter _ _) with (find_edges P (S k) es).
    2:{ destruct o as [e|]; [destruct (P e)|].
        - rewrite filter_cons_False by lia.
          symmetry. apply filter_all, Forall_forall.
          intros j Hj%find_edges_lower. lia.
        - symmetry. apply filter_all, Forall_forall.
          intros j Hj%find_edges_lower. lia.
        - symmetry. apply filter_all, Forall_forall.
          intros j Hj%find_edges_lower. lia. }
    done.
  - unfold insert in *. rewrite IH. replace (S k + i) with (k + S i) by lia.
    destruct o as [e|]; [destruct (P e)|]; try done.
    by rewrite filter_cons_True by lia.
Qed.

End FindEdges.

(** ** Reading the graph after an update *)

Lemma get_edge_Some cfg i e :
  get_edge cfg i = Some e <-> cfg_edges cfg !! i = Some (Some e).
Proof.
  unfold get_edge. destruct (cfg_edges cfg !! i) as [[?|]|]; simpl; naive_solver.
Qed.

Lemma get_edge_set_edge_target i t cfg j :
  get_edge (set_edge_target i t cfg) j
  = if decide (i = j) then retarget t <$> get_edge cfg j else get_edge cfg j.
Proof.
  unfold get_edge, set_edge_target; simpl. case_decide as Hij.
  - subst. rewrite list_lookup_alter_eq.
    by destruct (cfg_edges cfg !! j) as [[?|]|].
  - by rewrite list_lookup_alter_ne.
Qed.

Lemma get_edge_delete_edge i cfg j :
  get_edge (delete_edge i cfg) j
  = if decide (i = j) then None else get_edge cfg j.
Proof.
  unfold get_edge, delete_edge; simpl. case_decide as Hij.
  - subst. destruct (decide (j < length (cfg_edges cfg))).
    + by rewrite list_lookup_insert_eq.
    + rewrite list_insert_ge by lia. by rewrite lookup_ge_None_2 by lia.
  - by rewrite list_lookup_insert_ne.
Qed.

Lemma block_insns_update_ne f b cfg b' :
  b <> b' -> block_insns (update_block f b cfg) b' = block_insns cfg b'.
Proof.
  intros. unfold block_insns, update_block; simpl.
  by rewrite list_lookup_alter_ne.
Qed.

Lemma block_insns_update_eq f b cfg :
  b < length (cfg_blocks cfg) ->
  block_insns (update_block f b cfg) b = f (block_insns cfg b).
Proof.
  intros Hb. unfold block_insns, update_block; simpl.
  rewrite list_lookup_alter_eq.
  destruct (lookup_lt_is_Some_2 _ _ Hb) as [l ->]. done.
Qed.

(** An update of a block that does not exist is lost. *)
Lemma update_block_ge f b cfg :
  length (cfg_blocks cfg) <= b -> update_block f b cfg = cfg.
Proof.
  intros Hb. destruct cfg as [bs es]. unfold update_block; simpl in *.
  f_equal. apply list_eq. intros j.
  destruct (decide (b = j)) as [->|].
  - rewrite list_lookup_alter_eq. by rewrite lookup_ge_None_2.
  - by rewrite list_lookup_alter_ne.
Qed.

Lemma block_insns_oob cfg b :
  length (cfg_blocks cfg) <= b -> block_insns cfg b = [].
Proof. intros. unfold block_insns. by rewrite lookup_ge_None_2. Qed.

Lemma get_succ_edge_of_type_Some cfg b t i :
  get_succ_edge_of_type cfg b t = Some i ->
  exists e, get_edge cfg i = Some e /\ e_src e = b /\ e_type e = t.
Proof.
  unfold get_succ_edge_of_type, succs_of_type. intros Hh.
  assert (i ∈ find_edges (is_succ_of_type b t) 0 (cfg_edges cfg)) as Hin.
  { apply head_Some in Hh as [l' ->]. by left. }
  apply elem_of_find_edges in Hin as (_ & e & Hl & HP).
  rewrite Nat.sub_0_r in Hl. exists e. rewrite get_edge_Some. split; [done|].
  unfold is_succ_of_type in HP. apply andb_prop in HP as [H1 H2].
  by apply bool_decide_eq_true in H1, H2.
Qed.

Lemma elem_of_preds cfg b i :
  i ∈ preds cfg b <-> exists e, get_edge cfg i = Some e /\ e_target e = b.
Proof.
  unfold preds. rewrite elem_of_find_edges, Nat.sub_0_r. unfold has_target.
  split.
  - intros (_ & e & Hl & Ht%bool_decide_eq_true). exists e.
    by rewrite get_edge_Some.
  - intros (e & Hl%get_edge_Some & Ht). split; [lia|]. exists e.
    by rewrite bool_decide_eq_true.
Qed.

Lemma map_last_nil f : map_last f [] = [].
Proof. done. Qed.

Lemma map_last_snoc f l x : map_last f (l ++ [x]) = l ++ [f x].
Proof. unfold map_last. by rewrite last_snoc, removelast_last. Qed.

Lemma last_map_last f l : last (map_last f l) = f <$> last l.
Proof.
  destruct (last l) as [x|] eqn:Hl.
  - apply last_Some in Hl as [l' ->]. by rewrite map_last_snoc, last_snoc.
  - apply last_None in Hl as ->. done.
Qed.

(** ** Optimization 1: one block *)

#[local] Arguments invert_block : simpl never.

Lemma invert_block_cases b cfg st r :
  invert_block b (cfg, st) = Some r ->
  (inverts cfg b = false /\ r = (cfg, st)) \/
  (exists gi bi ge be,
     inverts cfg b = true /\
     get_succ_edge_of_type cfg b EDGE_GOTO = Some gi /\
     get_edge cfg gi = Some ge /\
     get_succ_edge_of_type cfg b EDGE_BRANCH = Some bi /\
     get_edge cfg bi = Some be /\
     r = (invert_and_swap b gi bi ge be cfg, incr_inverted st)).
Proof.
  unfold invert_block, inverts.
  destruct (branchingness_is_if cfg b) eqn:Hbr; simpl;
    [|intros [= <-]; by left].
  destruct (get_last_insn cfg b) as [insn|]; [|done].
  destruct (is_conditional_branch (insn_opcode insn)); simpl; [|done].
  destruct (get_succ_edge_of_type cfg b EDGE_GOTO) as [gi|]; [|done].
  destruct (get_succ_edge_of_type cfg b EDGE_BRANCH) as [bi|]; [|done].
  simpl.
  destruct (get_edge cfg gi) as [ge|] eqn:Hge; [|done].
  destruct (get_edge cfg bi) as [be|] eqn:Hbe; [|done].
  destruct (should_invert cfg ge be) eqn:Hs; intros [= <-]; [right|by left].
  exists gi, bi, ge, be. done.
Qed.

Lemma block_insns_invert_and_swap b gi bi ge be cfg b' :
  block_insns (invert_and_swap b gi bi ge be cfg) b'
  = if decide (b = b') then map_last invert_insn (block_insns cfg b)
    else block_insns cfg b'.
Proof.
  unfold invert_and_swap.
  change (block_insns (set_edge_target ?i ?t (set_edge_target ?j ?u ?c)) b')
    with (block_insns c b').
  case_decide as Hb.
  - subst b'. destruct (decide (b < length (cfg_blocks cfg))).
    + by rewrite block_insns_update_eq.
    + rewrite update_block_ge by lia. by rewrite block_insns_oob by lia.
  - by rewrite block_insns_update_ne.
Qed.

Lemma get_edge_invert_and_swap b gi bi ge be cfg i :
  get_edge cfg gi = Some ge -> get_edge cfg bi = Some be -> gi <> bi ->
  get_edge (invert_and_swap b gi bi ge be cfg) i
  = if decide (i = gi) then Some (retarget (e_target be) ge)
    else if decide (i = bi) then Some (retarget (e_target ge) be)
    else get_edge cfg i.
Proof.
  intros Hg Hb Hne. unfold invert_and_swap.
  rewrite !get_edge_set_edge_target.
  change (get_edge (update_block ?f b cfg) i) with (get_edge cfg i).
  repeat case_decide; subst; try congruence.
  - by rewrite Hg.
  - by rewrite Hb.
Qed.

Lemma num_preds_invert_and_swap b gi bi ge be cfg t :
  get_edge cfg gi = Some ge -> get_edge cfg bi = Some be -> gi <> bi ->
  num_preds (invert_and_swap b gi bi ge be cfg) t = num_preds cfg t.
Proof.
  intros Hg%get_edge_Some Hb%get_edge_Some Hne.
  unfold num_preds, preds, invert_and_swap; simpl.
  rewrite (alter_fmap_insert _ bi _ be Hb).
  assert (<[bi:=Some (retarget (e_target ge) be)]> (cfg_edges cfg) !! gi
          = Some (Some ge)) as Hg'.
  { by rewrite list_lookup_insert_ne. }
  rewrite (alter_fmap_insert _ gi _ ge Hg').
  pose proof (length_find_edges_insert (has_target t) 0 _ gi ge
                (retarget (e_target be) ge) Hg') as H1.
  pose proof (length_find_edges_insert (has_target t) 0 _ bi be
                (retarget (e_target ge) be) Hb) as H2.
  unfold has_target in *; simpl in *. lia.
Qed.

Lemma same_shape_refl cfg : same_shape cfg cfg.
Proof. by constructor. Qed.

Lemma same_shape_trans cfg1 cfg2 cfg3 :
  same_shape cfg1 cfg2 -> same_shape cfg2 cfg3 -> same_shape cfg1 cfg3.
Proof.
  intros [A1 A2 A3 A4] [B1 B2 B3 B4]. constructor; intros; congruence.
Qed.

Lemma same_shape_invert_and_swap b gi bi ge be cfg :
  get_edge cfg gi = Some ge -> get_edge cfg bi = Some be -> gi <> bi ->
  same_shape cfg (invert_and_swap b gi bi ge be cfg).
Proof.
  intros Hg Hb Hne. constructor.
  - unfold invert_and_swap; simpl. apply length_alter.
  - intros b' t. unfold succs_of_type, invert_and_swap; simpl.
    by rewrite !find_edges_alter_inv.
  - intros t. by apply num_preds_invert_and_swap.
  - intros b'. unfold branchingness_is_if, get_last_insn.
    rewrite block_insns_invert_and_swap. case_decide; [subst b'|done].
    rewrite last_map_last. destruct (last (block_insns cfg b)); [|done].
    simpl. apply is_conditional_branch_invert.
Qed.

(** The two edges found by [get_succ_edge_of_type] are distinct slots. *)
Lemma goto_branch_distinct cfg b gi bi :
  get_succ_edge_of_type cfg b EDGE_GOTO = Some gi ->
  get_succ_edge_of_type cfg b EDGE_BRANCH = Some bi -> gi <> bi.
Proof.
  intros (e1 & H1 & _ & T1)%get_succ_edge_of_type_Some
         (e2 & H2 & _ & T2)%get_succ_edge_of_type_Some ->.
  congruence.
Qed.

Lemma unchanged_at_refl cfg b : unchanged_at cfg cfg b.
Proof. by split. Qed.

Lemma unchanged_at_trans cfg1 cfg2 cfg3 b :
  unchanged_at cfg1 cfg2 b -> unchanged_at cfg2 cfg3 b ->
  unchanged_at cfg1 cfg3 b.
Proof.
  intros [A1 A2] [B1 B2]. split; [congruence|]. intros i e Hi Hs. eauto.
Qed.

(** The verdict [inverts] on a block depends on the block, on the edges
    that leave it and on predecessor counts only. *)
Lemma inverts_unchanged cfg cfg' b :
  same_shape cfg cfg' -> unchanged_at cfg cfg' b ->
  inverts cfg' b = inverts cfg b.
Proof.
  intros [S1 S2 S3 S4] [U1 U2]. unfold inverts, get_succ_edge_of_type.
  rewrite S4, !S2. fold (get_succ_edge_of_type cfg b EDGE_GOTO).
  fold (get_succ_edge_of_type cfg b EDGE_BRANCH).
  destruct (branchingness_is_if cfg b); [simpl|done].
  assert (forall t, get_succ_edge_of_type cfg b t ≫= get_edge cfg'
                    = get_succ_edge_of_type cfg b t ≫= get_edge cfg) as Heq.
  { intros t. destruct (get_succ_edge_of_type cfg b t) as [i|] eqn:Hi; [|done].
    simpl. apply get_succ_edge_of_type_Some in Hi as (e & He & Hs & _).
    rewrite He. by apply U2. }
  rewrite !Heq.
  destruct (_ ≫= _) as [ge|]; [|done]. destruct (_ ≫= _) as [be|]; [|done].
  unfold should_invert. by rewrite !S3.
Qed.

(** One turn of the loop on block [b]: the graph keeps its shape, every
    other block is untouched, and [b] is inverted exactly when [inverts]
    says so, the counter going up by one in that case only. *)
Lemma invert_block_spec b cfg st cfg' st' :
  invert_block b (cfg, st) = Some (cfg', st') ->
  same_shape cfg cfg' /\
  (forall b', b' <> b -> unchanged_at cfg cfg' b') /\
  (if inverts cfg b
   then inverted_at cfg cfg' b /\ st' = incr_inverted st
   else cfg' = cfg /\ st' = st).
Proof.
  intros [[Hi [= -> ->]]|(gi & bi & ge & be & Hi & Hgi & Hge & Hbi & Hbe & [= -> ->])]
    %invert_block_cases; rewrite Hi.
  { split; [apply same_shape_refl|]. split; [|done].
    intros; apply unchanged_at_refl. }
  pose proof (goto_branch_distinct _ _ _ _ Hgi Hbi) as Hne.
  destruct (get_succ_edge_of_type_Some _ _ _ _ Hgi) as (ge' & Hge' & Hgs & Hgt).
  destruct (get_succ_edge_of_type_Some _ _ _ _ Hbi) as (be' & Hbe' & Hbs & Hbt).
  assert (ge' = ge) as -> by congruence. assert (be' = be) as -> by congruence.
  split; [by apply same_shape_invert_and_swap|]. split.
  - intros b' Hb'. split.
    + rewrite block_insns_invert_and_swap. by case_decide.
    + intros i e He Hs. rewrite get_edge_invert_and_swap by done.
      repeat case_decide; subst; congruence.
  - split; [|done]. exists gi, bi, ge, be. repeat split; try done.
    + rewrite block_insns_invert_and_swap. by case_decide.
    + rewrite get_edge_invert_and_swap by done. rewrite decide_True by done.
      unfold retarget. by rewrite Hgs, Hgt.
    + rewrite get_edge_invert_and_swap by done.
      rewrite decide_False by done. rewrite decide_True by done.
      unfold retarget. by rewrite Hbs, Hbt.
    + intros i e Hig Hib He _. rewrite get_edge_invert_and_swap by done.
      by rewrite !decide_False by done.
Qed.

(** ** Optimization 1: the whole loop *)

Lemma filter_ext_in {A} (P Q : A -> Prop) `{!forall x, Decision (P x)}
    `{!forall x, Decision (Q x)} (l : list A) :
  (forall x, x ∈ l -> P x <-> Q x) -> filter P l = filter Q l.
Proof.
  induction l as [|x l IH]; intros Hext; [done|].
  rewrite !filter_cons.
  rewrite IH by (intros y Hy; apply Hext; by right).
  pose proof (Hext x ltac:(by left)).
  repeat case_decide; tauto.
Qed.

Lemma inverted_at_then_unchanged cfg cfg1 cfg' b :
  inverted_at cfg cfg1 b -> unchanged_at cfg1 cfg' b ->
  inverted_at cfg cfg' b.
Proof.
  intros (gi & bi & ge & be & Hgi & Hge & Hbi & Hbe & Hbl & Hg1 & Hb1 & Hoth)
         [U1 U2].
  exists gi, bi, ge, be. repeat split; try done.
  - congruence.
  - by apply U2.
  - by apply U2.
  - intros i e ? ? He Hs. apply U2; [|done]. by apply Hoth.
Qed.

Lemma unchanged_then_inverted_at cfg cfg1 cfg' b :
  same_shape cfg cfg1 -> unchanged_at cfg cfg1 b ->
  inverted_at cfg1 cfg' b -> inverted_at cfg cfg' b.
Proof.
  intros [S1 S2 S3 S4] [U1 U2]
         (gi & bi & ge & be & Hgi & Hge & Hbi & Hbe & Hbl & Hg1 & Hb1 & Hoth).
  unfold get_succ_edge_of_type in Hgi, Hbi. rewrite S2 in Hgi, Hbi.
  fold (get_succ_edge_of_type cfg b EDGE_GOTO) in Hgi.
  fold (get_succ_edge_of_type cfg b EDGE_BRANCH) in Hbi.
  destruct (get_succ_edge_of_type_Some _ _ _ _ Hgi) as (ge' & Hge' & Hgs & _).
  destruct (get_succ_edge_of_type_Some _ _ _ _ Hbi) as (be' & Hbe' & Hbs & _).
  pose proof (U2 _ _ Hge' Hgs). pose proof (U2 _ _ Hbe' Hbs).
  assert (ge' = ge) as -> by congruence. assert (be' = be) as -> by congruence.
  exists gi, bi, ge, be. repeat split; try done.
  - congruence.
  - intros i e ? ? He Hs. apply Hoth; try done. by apply U2.
Qed.

Lemma invert_blocks_spec bs :
  NoDup bs ->
  forall cfg st cfg' st',
    invert_blocks bs (cfg, st) = Some (cfg', st') ->
    same_shape cfg cfg' /\
    (forall b, b ∉ bs -> unchanged_at cfg cfg' b) /\
    (forall b, b ∈ bs ->
       if inverts cfg b then inverted_at cfg cfg' b
       else unchanged_at cfg cfg' b) /\
    st' = mkStats (replaced_gotos_with_returns st) (removed_trailing_moves st)
            (inverted_conditional_branches st
             + length (filter (fun b => inverts cfg b = true) bs)).
Proof.
  induction 1 as [|b0 bs Hb0 Hnd IH]; intros cfg st cfg' st'; simpl.
  - intros [= -> ->]. split; [apply same_shape_refl|].
    split; [intros; apply unchanged_at_refl|].
    split; [by intros b ?%elem_of_nil|].
    destruct st'; simpl. by rewrite Nat.add_0_r.
  - destruct (invert_block b0 (cfg, st)) as [[cfg1 st1]|] eqn:H0; [|done].
    intros Hrest.
    destruct (invert_block_spec _ _ _ _ _ H0) as (S01 & U01 & R0).
    destruct (IH _ _ _ _ Hrest) as (S1 & U1 & R1 & Hst).
    assert (forall b, b ∈ bs -> inverts cfg1 b = inverts cfg b) as Hinv.
    { intros b Hb. apply inverts_unchanged; [done|]. apply U01. by intros ->. }
    split; [by eapply same_shape_trans|]. split; [|split].
    + intros b Hb. apply not_elem_of_cons in Hb as [Hne Hb].
      eapply unchanged_at_trans; [by apply U01|by apply U1].
    + intros b [->|Hb]%elem_of_cons.
      * destruct (inverts cfg b0).
        -- destruct R0 as [R0 _]. eapply inverted_at_then_unchanged; [done|].
           by apply U1.
        -- destruct R0 as [-> _]. by apply U1.
      * assert (b <> b0) as Hne by (by intros ->).
        specialize (R1 b Hb). rewrite Hinv in R1 by done.
        destruct (inverts cfg b).
        -- eapply unchanged_then_inverted_at; [done|by apply U01|done].
        -- eapply unchanged_at_trans; [by apply U01|done].
    + rewrite Hst. rewrite filter_cons.
      rewrite (filter_ext_in (fun b => inverts cfg1 b = true)
                 (fun b => inverts cfg b = true) bs)
        by (intros b Hb; by rewrite Hinv).
      destruct (inverts cfg b0).
      * destruct R0 as [_ ->]. rewrite decide_True by done. simpl.
        f_equal. lia.
      * destruct R0 as [_ ->]. rewrite decide_False by done. done.
Qed.

(** C2. Optimization 1, run on a graph [cfg], treats every block [b] that
    ends in a conditional branch as follows, [gi] and [bi] being its goto
    and branch edges: if the goto target has more than one predecessor and
    the branch target exactly one, the terminal opcode of [b] is replaced
    by its negation and the two edges keep their slot and type tag but
    exchange targets; otherwise the block and all the edges that leave it
    are unchanged. The inversion counter ends as the number of blocks
    inverted, one increment per block, and the other counters stay zero. *)
Theorem inversion_iff cfg cfg' stats' :
  optimization1 (cfg, stats0) = Some (cfg', stats') ->
  stats' = mkStats 0 0 (length (filter (fun b => inverts cfg b = true)
                                       (blocks cfg))) /\
  forall b gi bi ge be,
    b < length (cfg_blocks cfg) ->
    branchingness_is_if cfg b = true ->
    get_succ_edge_of_type cfg b EDGE_GOTO = Some gi ->
    get_edge cfg gi = Some ge ->
    get_succ_edge_of_type cfg b EDGE_BRANCH = Some bi ->
    get_edge cfg bi = Some be ->
    (inverts cfg b = true <->
       1 < num_preds cfg (e_target ge) /\ num_preds cfg (e_target be) = 1) /\
    (inverts cfg b = true ->
       block_insns cfg' b = map_last invert_insn (block_insns cfg b) /\
       get_edge cfg' gi = Some (mkEdge b EDGE_GOTO (e_target be)) /\
       get_edge cfg' bi = Some (mkEdge b EDGE_BRANCH (e_target ge)) /\
       forall i e, i <> gi -> i <> bi -> get_edge cfg i = Some e ->
                   e_src e = b -> get_edge cfg' i = Some e) /\
    (inverts cfg b = false -> unchanged_at cfg cfg' b).
Proof.
  unfold optimization1; simpl. intros Hrun.
  destruct (invert_blocks_spec (blocks cfg) (NoDup_seq _ _) _ _ _ _ Hrun)
    as (_ & _ & R & Hst).
  split; [by rewrite Hst|].
  intros b gi bi ge be Hb Hbr Hgi Hge Hbi Hbe.
  assert (b ∈ blocks cfg) as Hin.
  { unfold blocks. apply elem_of_seq. lia. }
  specialize (R b Hin). split; [|split].
  - unfold inverts. rewrite Hbr, Hgi, Hbi; simpl. rewrite Hge, Hbe.
    unfold should_invert. rewrite andb_true_iff, Nat.ltb_lt, Nat.eqb_eq. done.
  - intros Hi. rewrite Hi in R.
    destruct R as (gi' & bi' & ge' & be' & Hgi' & Hge' & Hbi' & Hbe' & R).
    assert (gi' = gi) as -> by congruence. assert (bi' = bi) as -> by congruence.
    assert (ge' = ge) as -> by congruence. assert (be' = be) as -> by congruence.
    done.
  - intros Hi. by rewrite Hi in R.
Qed.

(** ** Optimization 1: failed assertions *)

Lemma invert_block_None b cfg st :
  invert_block b (cfg, st) = None <-> missing_edge cfg b = true.
Proof.
  unfold invert_block, missing_edge, branchingness_is_if.
  destruct (get_last_insn cfg b) as [insn|]; simpl; [|done].
  destruct (is_conditional_branch (insn_opcode insn)); simpl; [|done].
  destruct (get_succ_edge_of_type cfg b EDGE_GOTO) as [gi|] eqn:Hgi; [|done].
  destruct (get_succ_edge_of_type cfg b EDGE_BRANCH) as [bi|] eqn:Hbi; [|done].
  destruct (get_succ_edge_of_type_Some _ _ _ _ Hgi) as (ge & -> & _).
  destruct (get_succ_edge_of_type_Some _ _ _ _ Hbi) as (be & -> & _).
  by destruct (should_invert cfg ge be).
Qed.

Lemma missing_edge_same_shape cfg cfg' b :
  same_shape cfg cfg' -> missing_edge cfg' b = missing_edge cfg b.
Proof.
  intros [S1 S2 S3 S4]. unfold missing_edge, get_succ_edge_of_type.
  by rewrite S4, !S2.
Qed.

Lemma invert_blocks_None bs cfg st :
  invert_blocks bs (cfg, st) = None <->
  exists b, b ∈ bs /\ missing_edge cfg b = true.
Proof.
  revert cfg st. induction bs as [|b0 bs IH]; intros cfg st; simpl.
  - split; [done|]. by intros (b & ?%elem_of_nil & _).
  - destruct (invert_block b0 (cfg, st)) as [[cfg1 st1]|] eqn:H0.
    + destruct (invert_block_spec _ _ _ _ _ H0) as (S01 & _).
      assert (missing_edge cfg b0 = false) as Hb0.
      { destruct (missing_edge cfg b0) eqn:Hm; [|done].
        apply (invert_block_None b0 cfg st) in Hm. congruence. }
      rewrite IH. split.
      * intros (b & Hb & Hm). exists b. split; [by right|].
        by rewrite <- (missing_edge_same_shape cfg cfg1).
      * intros (b & [->|Hb]%elem_of_cons & Hm); [congruence|].
        exists b. split; [done|]. by rewrite (missing_edge_same_shape cfg cfg1).
    + apply invert_block_None in H0. split; [|done]. intros _.
      exists b0. split; [by left|done].
Qed.

Lemma optimization1_None cfg st :
  optimization1 (cfg, st) = None <->
  exists b, b < length (cfg_blocks cfg) /\ missing_edge cfg b = true.
Proof.
  unfold optimization1; simpl. rewrite invert_blocks_None.
  unfold blocks. setoid_rewrite elem_of_seq. split.
  - intros (b & Hb & Hm). exists b. split; [lia|done].
  - intros (b & Hb & Hm). exists b. split; [lia|done].
Qed.

Lemma optimization1_well_formed cfg st :
  well_formed cfg -> exists r, optimization1 (cfg, st) = Some r.
Proof.
  intros Hwf. destruct (optimization1 (cfg, st)) as [r|] eqn:Ho; [by exists r|].
  apply optimization1_None in Ho as (b & Hb & Hm).
  rewrite Hwf in Hm by done. done.
Qed.

(** ** Optimization 1: a second run *)

Lemma invert_blocks_noop bs cfg st :
  (forall b, b ∈ bs -> inverts cfg b = false) ->
  (forall b, b ∈ bs -> missing_edge cfg b = false) ->
  invert_blocks bs (cfg, st) = Some (cfg, st).
Proof.
  induction bs as [|b0 bs IH]; intros Hinv Hmiss; simpl; [done|].
  destruct (invert_block b0 (cfg, st)) as [[cfg1 st1]|] eqn:H0.
  - destruct (invert_block_spec _ _ _ _ _ H0) as (_ & _ & R0).
    rewrite Hinv in R0 by (by left). destruct R0 as [-> ->].
    apply IH; intros b Hb; [apply Hinv|apply Hmiss]; by right.
  - apply invert_block_None in H0. rewrite Hmiss in H0 by (by left). done.
Qed.

(** After the swap the goto edge of an inverted block leads to a block
    with exactly one predecessor, so the condition fails on it. *)
Lemma inverted_at_not_again cfg cfg' b :
  same_shape cfg cfg' -> inverts cfg b = true -> inverted_at cfg cfg' b ->
  inverts cfg' b = false.
Proof.
  intros [S1 S2 S3 S4] Hi
    (gi & bi & ge & be & Hgi & Hge & Hbi & Hbe & Hbl & Hg1 & Hb1 & Hoth).
  unfold inverts, get_succ_edge_of_type in *. rewrite S4, !S2.
  rewrite Hgi, Hbi in *. simpl in *.
  rewrite Hge, Hbe in Hi. rewrite Hg1, Hb1.
  destruct (branchingness_is_if cfg b); [simpl in *|done].
  unfold should_invert in *; simpl. rewrite !S3.
  apply andb_prop in Hi as [_ ->%Nat.eqb_eq]. done.
Qed.

(** C7. Optimization 1 is idempotent: when a run of Optimization 1 on a
    graph ends with the graph [cfg'], no block of [cfg'] satisfies the
    inversion condition, and a second run started on [cfg'], with any
    counters, returns [cfg'] and the same counters. *)
Theorem optimization1_idempotent cfg cfg' stats' :
  optimization1 (cfg, stats0) = Some (cfg', stats') ->
  (forall b, b < length (cfg_blocks cfg') -> inverts cfg' b = false) /\
  forall stats'', optimization1 (cfg', stats'') = Some (cfg', stats'').
Proof.
  intros Hrun.
  assert (forall b, b ∈ blocks cfg -> missing_edge cfg b = false) as Hmiss.
  { intros b Hb. destruct (missing_edge cfg b) eqn:Hm; [|done].
    assert (optimization1 (cfg, stats0) = None) as Hn; [|congruence].
    apply optimization1_None. exists b. split; [|done].
    apply elem_of_seq in Hb. lia. }
  unfold optimization1 in Hrun; simpl in Hrun.
  destruct (invert_blocks_spec (blocks cfg) (NoDup_seq _ _) _ _ _ _ Hrun)
    as (Hs & _ & R & _).
  assert (blocks cfg' = blocks cfg) as Hbl.
  { unfold blocks. by rewrite (ss_blocks _ _ Hs). }
  assert (forall b, b ∈ blocks cfg -> inverts cfg' b = false) as Hinv.
  { intros b Hb. specialize (R b Hb).
    destruct (inverts cfg b) eqn:Hi.
    - by eapply inverted_at_not_again.
    - by rewrite (inverts_unchanged cfg cfg' b). }
  split.
  - intros b Hb. apply Hinv. rewrite <- Hbl. apply elem_of_seq. lia.
  - intros st2. unfold optimization1; simpl. rewrite Hbl.
    apply invert_blocks_noop; [done|].
    intros b Hb. rewrite (missing_edge_same_shape cfg cfg') by done. auto.
Qed.

(** ** Optimization 2: one edge *)

#[local] Arguments fold_edge : simpl never.

Lemma fold_edge_step prev mie st ei :
  fold_step prev mie st ei (fold_edge prev mie st ei).
Proof.
  unfold fold_edge.
  destruct (get_edge (s_cfg st) ei) as [e|] eqn:He;
    [|apply fold_not_goto; intros e; by rewrite He].
  destruct (decide (e_type e = EDGE_GOTO)) as [Ht|Ht].
  - rewrite bool_decide_eq_true_2 by done. simpl.
    destruct (find_trailing_move (s_cfg st) (e_src e) mie) as [mv|] eqn:Hm.
    + by eapply fold_with_move.
    + destruct (decide (prev = Some (e_src e))) as [Hp|Hp].
      * rewrite bool_decide_eq_true_2 by done. by eapply fold_fallthrough.
      * rewrite bool_decide_eq_false_2 by done. by eapply fold_plain.
  - rewrite bool_decide_eq_false_2 by done. simpl.
    apply fold_not_goto. intros e' He'. rewrite He in He'. by simplify_eq.
Qed.

Lemma find_trailing_move_Some cfg s cloned mv :
  find_trailing_move cfg s cloned = Some mv <->
  0 < srcs_size cloned /\ get_last_insn cfg s = Some mv /\
  is_move (insn_opcode mv) = true /\
  insn_dest mv = Some (src cloned 0) /\ insn_wide mv = insn_wide cloned.
Proof.
  unfold find_trailing_move, matching_move. split.
  - destruct (0 <? srcs_size cloned) eqn:Hs; [|done]. apply Nat.ltb_lt in Hs.
    destruct (get_last_insn cfg s) as [l|]; [|done].
    destruct (is_move (insn_opcode l)) eqn:Hmv; simpl; [|done].
    case_bool_decide; simpl; [|done]. case_bool_decide; [|done].
    intros [= <-]. done.
  - intros (Hs & -> & Hmv & Hd & Hw).
    rewrite (proj2 (Nat.ltb_lt _ _) Hs), Hmv.
    by rewrite !bool_decide_eq_true_2 by done.
Qed.

Lemma get_last_insn_in_range cfg s i :
  get_last_insn cfg s = Some i -> s < length (cfg_blocks cfg).
Proof.
  unfold get_last_insn. intros Hl.
  destruct (decide (s < length (cfg_blocks cfg))); [done|].
  rewrite block_insns_oob in Hl by lia. done.
Qed.

Lemma block_insns_push_back s x cfg b :
  block_insns (push_back s x cfg) b
  = if decide (s = b /\ s < length (cfg_blocks cfg))
    then block_insns cfg b ++ [x] else block_insns cfg b.
Proof.
  unfold push_back. case_decide as Hd.
  - destruct Hd as [-> Hs]. by rewrite block_insns_update_eq.
  - destruct (decide (s = b)) as [->|Hne].
    + rewrite update_block_ge; [done|]. lia.
    + by rewrite block_insns_update_ne.
Qed.

Lemma block_insns_remove_last s cfg b :
  block_insns (remove_last_insn s cfg) b
  = if decide (s = b) then removelast (block_insns cfg b)
    else block_insns cfg b.
Proof.
  unfold remove_last_insn. case_decide as Hd.
  - subst. destruct (decide (b < length (cfg_blocks cfg))).
    + by rewrite block_insns_update_eq.
    + rewrite update_block_ge by lia. by rewrite block_insns_oob by lia.
  - by rewrite block_insns_update_ne.
Qed.

Lemma length_blocks_update f b cfg :
  length (cfg_blocks (update_block f b cfg)) = length (cfg_blocks cfg).
Proof. unfold update_block; simpl. apply length_alter. Qed.

(** The source block after an edge was folded with its trailing move. *)
Lemma block_insns_fold_with_move s mv mie cfg b :
  get_last_insn cfg s = Some mv ->
  block_insns (push_back s (set_src 0 (src mv 0) mie)
                 (remove_last_insn s cfg)) b
  = if decide (s = b)
    then removelast (block_insns cfg b) ++ [set_src 0 (src mv 0) mie]
    else block_insns cfg b.
Proof.
  intros Hl%get_last_insn_in_range.
  rewrite block_insns_push_back, block_insns_remove_last.
  unfold remove_last_insn. rewrite length_blocks_update.
  repeat case_decide; naive_solver.
Qed.

(** No step of the scan touches the edge arena or the number of blocks. *)
Lemma fold_edge_edges prev mie st ei :
  cfg_edges (s_cfg (fold_edge prev mie st ei)) = cfg_edges (s_cfg st).
Proof. by destruct (fold_edge_step prev mie st ei). Qed.

Lemma fold_edge_length prev mie st ei :
  length (cfg_blocks (s_cfg (fold_edge prev mie st ei)))
  = length (cfg_blocks (s_cfg st)).
Proof.
  destruct (fold_edge_step prev mie st ei); simpl;
    by rewrite ?length_alter.
Qed.

Lemma head_removelast_snoc {A} (l : list A) h x :
  head l = Some h -> 2 <= length l -> head (removelast l ++ [x]) = Some h.
Proof.
  destruct l as [|a [|b l]]; simpl; intros; try lia. done.
Qed.

(** The return at the head of the target survives every step. *)
Lemma fold_edge_head prev mie st ei b h :
  is_return (insn_opcode h) = true ->
  head (block_insns (s_cfg st) b) = Some h ->
  head (block_insns (s_cfg (fold_edge prev mie st ei)) b) = Some h.
Proof.
  intros Hr Hh.
  destruct (fold_edge_step prev mie st ei) as [|e mv He Ht Hm| |e He Ht Hm Hp];
    simpl; try done.
  - apply find_trailing_move_Some in Hm as (_ & Hl & Hmv & _).
    rewrite block_insns_fold_with_move by done. case_decide; [subst|done].
    apply head_removelast_snoc; [done|].
    unfold get_last_insn in Hl.
    destruct (block_insns (s_cfg st) (e_src e)) as [|a [|a' l]]; simpl in *;
      [done| |lia].
    simplify_eq. apply is_return_not_move in Hr. congruence.
  - rewrite block_insns_push_back. case_decide; [|done].
    destruct (block_insns (s_cfg st) b); simpl in *; done.
Qed.

(** ** Optimization 2: induction over a scan *)

Section ScanInduction.
Variable I : ScanState -> Prop.

Hypothesis Hstep : fold_preserves I.


Lemma foldl_fold_edge_ind prev mie b eis st :
  is_return (insn_opcode mie) = true ->
  head (block_insns (s_cfg st) b) = Some mie ->
  (forall ei, ei ∈ eis ->
     exists e, get_edge (s_cfg st) ei = Some e /\ e_target e = b) ->
  I st -> I (foldl (fold_edge prev mie) st eis).
Proof using Hstep.
  intros Hr. revert st.
  induction eis as [|ei eis IH]; intros st Hh Hes HI; simpl; [done|].
  destruct (Hes ei ltac:(by left)) as (e & He & Hb).
  assert (I (fold_edge prev mie st ei)) as HI'.
  { destruct (decide (e_type e = EDGE_GOTO)) as [Ht|Ht].
    - eapply Hstep; try done. by rewrite Hb.
    - destruct (fold_edge_step prev mie st ei); try done; congruence. }
  apply IH; [by apply fold_edge_head| |done].
  intros ei' Hin. unfold get_edge. rewrite fold_edge_edges.
  apply Hes. by right.
Qed.

Lemma process_block_ind prev b st : I st -> I (process_block prev b st).
Proof using Hstep.
  intros HI. unfold process_block.
  destruct (block_insns (s_cfg st) b) as [|mie [|? ?]] eqn:Hb; try done.
  destruct (is_return (insn_opcode mie)) eqn:Hr; [|done].
  apply (foldl_fold_edge_ind prev mie b); try done.
  - by rewrite Hb.
  - intros ei Hin. by apply elem_of_preds.
Qed.

Lemma scan_ind prev order st : I st -> I (scan prev order st).
Proof using Hstep.
  revert prev st. induction order as [|b order IH]; intros prev st HI;
    simpl; [done|].
  apply IH. by apply process_block_ind.
Qed.

End ScanInduction.

(** ** Optimization 2: counting moves *)

Lemma sum_list_alter {A} (g : A -> nat) (f : A -> A) i l x :
  l !! i = Some x ->
  sum_list (map g (alter f i l)) + g x = sum_list (map g l) + g (f x).
Proof.
  unfold alter. revert i.
  induction l as [|y l IH]; intros [|i] Hl; simpl in *; try done.
  - simplify_eq. lia.
  - specialize (IH i Hl). lia.
Qed.

Lemma count_moves_update f b cfg :
  b < length (cfg_blocks cfg) ->
  count_moves (update_block f b cfg) + count_moves_block (block_insns cfg b)
  = count_moves cfg + count_moves_block (f (block_insns cfg b)).
Proof.
  intros Hb. unfold count_moves, update_block, block_insns; simpl.
  destruct (lookup_lt_is_Some_2 _ _ Hb) as [l Hl]. rewrite Hl; simpl.
  by apply sum_list_alter.
Qed.

Lemma count_moves_block_snoc l x :
  count_moves_block (l ++ [x])
  = count_moves_block l + b2n (is_move (insn_opcode x)).
Proof.
  unfold count_moves_block. rewrite filter_app, length_app. f_equal.
  rewrite filter_cons, filter_nil.
  destruct (is_move (insn_opcode x)); by case_decide.
Qed.

Lemma count_moves_block_removelast l mv :
  last l = Some mv -> is_move (insn_opcode mv) = true ->
  count_moves_block l = S (count_moves_block (removelast l)).
Proof.
  intros [l' ->]%last_Some Hmv.
  rewrite removelast_last, count_moves_block_snoc, Hmv. simpl. lia.
Qed.

Lemma count_moves_push_back s x cfg :
  is_move (insn_opcode x) = false ->
  count_moves (push_back s x cfg) = count_moves cfg.
Proof.
  intros Hx. unfold push_back.
  destruct (decide (s < length (cfg_blocks cfg))) as [Hs|Hs].
  - pose proof (count_moves_update (fun l => l ++ [x]) s cfg Hs) as H.
    cbv beta in H. rewrite count_moves_block_snoc, Hx in H. simpl in H. lia.
  - rewrite update_block_ge; [done|lia].
Qed.

Lemma count_moves_remove_last s mv cfg :
  get_last_insn cfg s = Some mv -> is_move (insn_opcode mv) = true ->
  count_moves cfg = S (count_moves (remove_last_insn s cfg)).
Proof.
  intros Hl Hmv. pose proof (get_last_insn_in_range _ _ _ Hl) as Hs.
  pose proof (count_moves_update (fun l => removelast l) s cfg Hs) as H.
  cbv beta in H. rewrite (count_moves_block_removelast _ _ Hl Hmv) in H.
  unfold remove_last_insn. lia.
Qed.

Lemma count_moves_delete_edge e cfg :
  count_moves (delete_edge e cfg) = count_moves cfg.
Proof. done. Qed.

Lemma scan_progress_refl st : scan_progress st st.
Proof.
  constructor; try done; try lia.
  rewrite Nat.ltb_irrefl. by rewrite orb_false_r.
Qed.

Lemma scan_progress_trans st1 st2 st3 :
  scan_progress st1 st2 -> scan_progress st2 st3 -> scan_progress st1 st3.
Proof.
  intros [A1 A2 A3 A4 A5 A6] [B1 B2 B3 B4 B5 B6].
  constructor; try lia; try congruence.
  rewrite B4, A4.
  destruct (s_rerun st1); simpl; [done|].
  destruct (Nat.ltb_spec (removed_trailing_moves (s_stats st1))
              (removed_trailing_moves (s_stats st2)));
  destruct (Nat.ltb_spec (removed_trailing_moves (s_stats st2))
              (removed_trailing_moves (s_stats st3)));
  destruct (Nat.ltb_spec (removed_trailing_moves (s_stats st1))
              (removed_trailing_moves (s_stats st3)));
  simpl; try done; lia.
Qed.

Lemma fold_edge_progress prev mie st ei :
  is_return (insn_opcode mie) = true ->
  scan_progress st (fold_edge prev mie st ei).
Proof.
  intros Hr. pose proof (is_return_not_move _ Hr) as Hnm.
  destruct (fold_edge_step prev mie st ei) as [|e mv He Ht Hm| |e He Ht Hm Hp];
    try apply scan_progress_refl.
  - apply find_trailing_move_Some in Hm as (_ & Hl & Hmv & _).
    pose proof (count_moves_remove_last _ _ _ Hl Hmv) as Hc.
    constructor; simpl; rewrite ?length_app; simpl; try lia; try done.
    + rewrite count_moves_push_back by done. lia.
    + rewrite (proj2 (Nat.ltb_lt _ _)) by lia. by rewrite orb_true_r.
  - constructor; simpl; rewrite ?length_app; simpl; try lia; try done.
    + by rewrite count_moves_push_back.
    + rewrite Nat.ltb_irrefl. by rewrite orb_false_r.
Qed.

Lemma scan_progress_scan prev order st : scan_progress st (scan prev order st).
Proof.
  apply (scan_ind (scan_progress st)); [|apply scan_progress_refl].
  intros prev' mie st' ei e HI _ _ Hr _.
  eapply scan_progress_trans; [done|]. by apply fold_edge_progress.
Qed.

(** ** Optimization 2: the batch of deletions *)

Lemma delete_edges_spec del cfg st :
  let r := delete_edges del (cfg, st) in
  cfg_blocks (fst r) = cfg_blocks cfg /\
  (forall i, get_edge (fst r) i
             = if decide (i ∈ del) then None else get_edge cfg i) /\
  snd r = mkStats (replaced_gotos_with_returns st + length del)
                  (removed_trailing_moves st)
                  (inverted_conditional_branches st).
Proof.
  revert cfg st. unfold delete_edges.
  induction del as [|e del IH]; intros cfg st; simpl.
  - split; [done|]. split; [done|]. destruct st; simpl. f_equal. lia.
  - destruct (IH (delete_edge e cfg) (incr_gotos st)) as (H1 & H2 & H3).
    split; [done|]. split.
    + intros i. rewrite H2, get_edge_delete_edge.
      destruct (decide (e = i)) as [->|Hne].
      * rewrite (decide_True (P := i ∈ i :: del)) by (by left).
        by case_decide.
      * destruct (decide (i ∈ del)) as [Hin|Hin].
        -- by rewrite decide_True by (by right).
        -- rewrite decide_False; [done|].
           intros [->|?]%elem_of_cons; done.
    + rewrite H3. simpl. f_equal. lia.
Qed.

(** ** Optimization 2: one turn of the loop and the loop *)

Lemma iteration_counts order cfg st cfg' st' rerun :
  iteration order (cfg, st) = (cfg', st', rerun) ->
  count_moves cfg' + removed_trailing_moves st'
  = count_moves cfg + removed_trailing_moves st /\
  removed_trailing_moves st <= removed_trailing_moves st' /\
  removed_trailing_moves st' + replaced_gotos_with_returns st
  <= removed_trailing_moves st + replaced_gotos_with_returns st' /\
  (rerun = true <-> removed_trailing_moves st < removed_trailing_moves st') /\
  inverted_conditional_branches st' = inverted_conditional_branches st.
Proof.
  unfold iteration; simpl.
  set (st0 := mkScan cfg st false []). set (s := scan None order st0).
  pose proof (scan_progress_scan None order st0) as [P1 P2 P3 P4 P5 P6].
  fold s in P1, P2, P3, P4, P5, P6. simpl in *.
  destruct (delete_edges_spec (s_del s) (s_cfg s) (s_stats s)) as (D1 & D2 & D3).
  intros [= Hr <-]. rewrite Hr in *. simpl in *. subst st'. simpl.
  assert (count_moves cfg' = count_moves (s_cfg s)) as ->.
  { unfold count_moves. by rewrite D1. }
  repeat split; try lia; try done.
  - rewrite P4. by intros ?%Nat.ltb_lt.
  - rewrite P4. by intros ?%Nat.ltb_lt.
Qed.

Lemma fold_loop_S fuel order st :
  fold_loop (S fuel) order st
  = if snd (iteration order st) then fold_loop fuel order (fst (iteration order st))
    else Some (fst (iteration order st)).
Proof. simpl. by destruct (iteration order st). Qed.

Lemma fold_loop_counts order fuel :
  forall cfg st,
    count_moves cfg < fuel ->
    exists cfg' st',
      fold_loop fuel order (cfg, st) = Some (cfg', st') /\
      count_moves cfg' + removed_trailing_moves st'
      = count_moves cfg + removed_trailing_moves st /\
      removed_trailing_moves st' + replaced_gotos_with_returns st
      <= removed_trailing_moves st + replaced_gotos_with_returns st' /\
      inverted_conditional_branches st' = inverted_conditional_branches st.
Proof.
  induction fuel as [|fuel IH]; intros cfg st Hf; [lia|].
  rewrite fold_loop_S.
  destruct (iteration order (cfg, st)) as [[cfg1 st1] rerun] eqn:Hit.
  simpl.
  destruct (iteration_counts _ _ _ _ _ _ Hit) as (H1 & H2 & H3 & H4 & H5).
  destruct rerun.
  - assert (removed_trailing_moves st < removed_trailing_moves st1) as Hlt
        by by apply H4.
    destruct (IH cfg1 st1 ltac:(lia)) as (cfg' & st' & Hl & I1 & I2 & I3).
    exists cfg', st'. split; [done|]. repeat split; lia.
  - exists cfg1, st1. done.
Qed.

Lemma fold_loop_mono order fuel :
  forall st r fuel',
    fold_loop fuel order st = Some r -> fuel <= fuel' ->
    fold_loop fuel' order st = Some r.
Proof.
  induction fuel as [|fuel IH]; intros st r fuel' Hl Hf; [done|].
  destruct fuel' as [|fuel']; [lia|].
  rewrite fold_loop_S in *.
  destruct (snd (iteration order st)); [|done].
  apply IH; [done|lia].
Qed.

Lemma count_moves_le_insns cfg : count_moves cfg <= count_insns cfg.
Proof.
  unfold count_moves, count_insns.
  induction (cfg_blocks cfg) as [|l bs IH]; simpl; [done|].
  pose proof (length_filter (fun i => is_move (insn_opcode i) = true) l) as Hl.
  unfold count_moves_block in *. lia.
Qed.

(** C5. The loop of Optimization 2 terminates on every graph: a turn that
    asks for a rerun has removed at least one move instruction, so the
    number of moves of the graph, which is at most its number of
    instructions, went down, and every bound on the number of turns above
    the number of moves of the input lets the loop run to its end, with one
    and the same result; [optimization2] runs it with such a bound. *)
Theorem fold_loop_terminates order cfg st :
  (forall cfg' st',
     iteration order (cfg, st) = (cfg', st', true) ->
     removed_trailing_moves st < removed_trailing_moves st' /\
     count_moves cfg' < count_moves cfg) /\
  count_moves cfg <= count_insns cfg /\
  exists r,
    (forall fuel, count_moves cfg < fuel ->
                  fold_loop fuel order (cfg, st) = Some r) /\
    optimization2 (fun _ => order) (cfg, st) = Some r.
Proof.
  split; [|split; [apply count_moves_le_insns|]].
  - intros cfg' st' Hit.
    destruct (iteration_counts _ _ _ _ _ _ Hit) as (H1 & H2 & H3 & H4 & H5).
    assert (removed_trailing_moves st < removed_trailing_moves st') as Hlt
        by by apply H4.
    split; lia.
  - destruct (fold_loop_counts order (S (count_moves cfg)) cfg st ltac:(lia))
      as (cfg' & st' & Hl & _).
    exists (cfg', st'). split; [|done].
    intros fuel Hf. eapply fold_loop_mono; [done|lia].
Qed.

Lemma optimization2_total order st :
  exists r, optimization2 order st = Some r.
Proof.
  destruct st as [cfg st]. unfold optimization2; simpl.
  destruct (fold_loop_counts (order cfg) (S (count_moves cfg)) cfg st
              ltac:(lia)) as (cfg' & st' & Hl & _).
  by exists (cfg', st').
Qed.

(** ** The pass as a whole *)

Lemma process_code_Some order cfg r :
  process_code order cfg = Some r <->
  exists st1, optimization1 (cfg, stats0) = Some st1 /\
              optimization2 order st1 = Some r.
Proof.
  unfold process_code.
  destruct (optimization1 (cfg, stats0)) as [st1|]; naive_solver.
Qed.

Lemma process_code_None order cfg :
  process_code order cfg = None <-> optimization1 (cfg, stats0) = None.
Proof.
  unfold process_code.
  destruct (optimization1 (cfg, stats0)) as [st1|]; [|done].
  destruct (optimization2_total order st1) as [r ->]. done.
Qed.

Lemma missing_edge_true cfg b :
  missing_edge cfg b = true <->
  branchingness_is_if cfg b = true /\
  (get_succ_edge_of_type cfg b EDGE_GOTO = None \/
   get_succ_edge_of_type cfg b EDGE_BRANCH = None).
Proof.
  unfold missing_edge. rewrite andb_true_iff.
  destruct (get_succ_edge_of_type cfg b EDGE_GOTO),
           (get_succ_edge_of_type cfg b EDGE_BRANCH); naive_solver.
Qed.

(** C8. A block that ends in a conditional branch and lacks its goto edge
    or its branch edge makes the turn of the loop of Optimization 1 that
    visits it fail, and with it the whole pass: the block is not skipped and
    nothing is returned. On a graph in which every block that ends in a
    conditional branch has both edges, no assertion fails and the pass
    returns a graph and its statistics. *)
Theorem missing_edge_is_fatal order cfg :
  (forall b,
     b < length (cfg_blocks cfg) ->
     branchingness_is_if cfg b = true ->
     get_succ_edge_of_type cfg b EDGE_GOTO = None \/
     get_succ_edge_of_type cfg b EDGE_BRANCH = None ->
     (forall st, invert_block b (cfg, st) = None) /\
     process_code order cfg = None) /\
  ((forall b,
      b < length (cfg_blocks cfg) ->
      branchingness_is_if cfg b = true ->
      is_Some (get_succ_edge_of_type cfg b EDGE_GOTO) /\
      is_Some (get_succ_edge_of_type cfg b EDGE_BRANCH)) ->
   exists r, process_code order cfg = Some r).
Proof.
  split.
  - intros b Hb Hbr Hmiss.
    assert (missing_edge cfg b = true) as Hm by by apply missing_edge_true.
    split.
    + intros st. by apply invert_block_None.
    + apply process_code_None, optimization1_None. by exists b.
  - intros Hwf.
    destruct (optimization1_well_formed cfg stats0) as [st1 H1].
    { intros b Hb. destruct (missing_edge cfg b) eqn:Hm; [|done].
      apply missing_edge_true in Hm as [Hbr Hmiss].
      destruct (Hwf b Hb Hbr) as [[gi Hg] [bi Hbi]].
      rewrite Hg, Hbi in Hmiss. naive_solver. }
    destruct (optimization2_total order st1) as [r H2].
    exists r. apply process_code_Some. eauto.
Qed.

(** C10. When the pass returns, the counter of trailing moves removed does
    not exceed the counter of gotos replaced with returns. *)
Theorem moves_le_gotos order cfg cfg' stats' :
  process_code order cfg = Some (cfg', stats') ->
  removed_trailing_moves stats' <= replaced_gotos_with_returns stats'.
Proof.
  intros ([cfg1 st1] & H1 & H2)%process_code_Some.
  unfold optimization1 in H1; simpl in H1.
  destruct (invert_blocks_spec _ (NoDup_seq _ _) _ _ _ _ H1)
    as (_ & _ & _ & Hst).
  assert (removed_trailing_moves st1 = 0) as Hm by by rewrite Hst.
  assert (replaced_gotos_with_returns st1 = 0) as Hg by by rewrite Hst.
  unfold optimization2 in H2.
  destruct (fold_loop_counts (order cfg1) (S (count_moves cfg1)) cfg1 st1
              ltac:(lia)) as (cfg2 & st2 & Hl & _ & Hle & _).
  change (fst (cfg1, st1)) with cfg1 in H2. rewrite Hl in H2.
  simplify_eq. lia.
Qed.

(** ** Optimization 2: what one folded edge does *)


Lemma fold_edge_goto_move prev mie st ei e mv :
  get_edge (s_cfg st) ei = Some e -> e_type e = EDGE_GOTO ->
  find_trailing_move (s_cfg st) (e_src e) mie = Some mv ->
  fold_edge prev mie st ei
  = mkScan (push_back (e_src e) (set_src 0 (src mv 0) mie)
              (remove_last_insn (e_src e) (s_cfg st)))
           (incr_moves (s_stats st)) true (s_del st ++ [ei]).
Proof.
  intros He Ht Hm.
  destruct (fold_edge_step prev mie st ei)
    as [Hn|e' mv' He' _ Hm'|e' He' _ Hm'|e' He' _ Hm'].
  - by destruct (Hn e He).
  - congruence.
  - congruence.
  - congruence.
Qed.

Lemma fold_edge_goto_fallthrough prev mie st ei e :
  get_edge (s_cfg st) ei = Some e -> e_type e = EDGE_GOTO ->
  find_trailing_move (s_cfg st) (e_src e) mie = None ->
  prev = Some (e_src e) ->
  fold_edge prev mie st ei = st.
Proof.
  intros He Ht Hm Hp.
  destruct (fold_edge_step prev mie st ei)
    as [Hn|e' mv' He' _ Hm'|e' He' _ Hm'|e' He' _ Hm' Hp']; try done.
  - congruence.
  - congruence.
Qed.

Lemma fold_edge_goto_plain prev mie st ei e :
  get_edge (s_cfg st) ei = Some e -> e_type e = EDGE_GOTO ->
  find_trailing_move (s_cfg st) (e_src e) mie = None ->
  prev <> Some (e_src e) ->
  fold_edge prev mie st ei
  = mkScan (push_back (e_src e) mie (s_cfg st)) (s_stats st)
           (s_rerun st) (s_del st ++ [ei]).
Proof.
  intros He Ht Hm Hp.
  destruct (fold_edge_step prev mie st ei)
    as [Hn|e' mv' He' _ Hm'|e' He' _ Hm' Hp'|e' He' _ Hm' Hp'].
  - by destruct (Hn e He).
  - congruence.
  - congruence.
  - congruence.
Qed.

Lemma find_trailing_move_None cfg s cloned :
  find_trailing_move cfg s cloned = None <->
  srcs_size cloned = 0 \/
  forall mv, get_last_insn cfg s = Some mv ->
    ~ (is_move (insn_opcode mv) = true /\
       insn_dest mv = Some (src cloned 0) /\
       insn_wide mv = insn_wide cloned).
Proof.
  split.
  - intros Hn. destruct (decide (srcs_size cloned = 0)); [by left|right].
    intros mv Hl (H1 & H2 & H3).
    assert (find_trailing_move cfg s cloned = Some mv); [|congruence].
    apply find_trailing_move_Some. repeat split; try done. lia.
  - intros Hc.
    destruct (find_trailing_move cfg s cloned) as [mv|] eqn:Hm; [|done].
    apply find_trailing_move_Some in Hm as (H0 & Hl & H1 & H2 & H3).
    destruct Hc as [Hc|Hc]; [lia|]. by destruct (Hc mv Hl).
Qed.

(** C3. Folding a goto edge [ei] from block [s] into a block whose single
    return is [mie]: when [mie] has a source register and the last
    instruction [mv] of [s] is a move whose destination is that register
    and whose wide flag is that of [mie], the copy of the return gets the
    source of the move as its source, the move is removed from [s] and the
    copy put in its place, the counter of trailing moves goes up by one and
    the rerun flag is set; when [mie] has no source register or the last
    instruction of [s] is no such move, no instruction is removed from [s],
    the counter and the rerun flag keep their values, and the edge is either
    skipped or folded with the unchanged copy. *)
Theorem trailing_move_elimination prev mie st ei e :
  get_edge (s_cfg st) ei = Some e -> e_type e = EDGE_GOTO ->
  (forall mv,
     0 < srcs_size mie ->
     get_last_insn (s_cfg st) (e_src e) = Some mv ->
     is_move (insn_opcode mv) = true ->
     insn_dest mv = Some (src mie 0) ->
     insn_wide mv = insn_wide mie ->
     let st' := fold_edge prev mie st ei in
     block_insns (s_cfg st') (e_src e)
     = removelast (block_insns (s_cfg st) (e_src e))
       ++ [set_src 0 (src mv 0) mie] /\
     s_stats st' = incr_moves (s_stats st) /\
     s_rerun st' = true /\
     s_del st' = s_del st ++ [ei]) /\
  (srcs_size mie = 0 \/
   (forall mv, get_last_insn (s_cfg st) (e_src e) = Some mv ->
      ~ (is_move (insn_opcode mv) = true /\
         insn_dest mv = Some (src mie 0) /\
         insn_wide mv = insn_wide mie)) ->
   let st' := fold_edge prev mie st ei in
   (prev = Some (e_src e) /\ st' = st) \/
   (prev <> Some (e_src e) /\
    st' = mkScan (push_back (e_src e) mie (s_cfg st)) (s_stats st)
                 (s_rerun st) (s_del st ++ [ei]))).
Proof.
  intros He Ht. split.
  - intros mv H0 Hl H1 H2 H3.
    assert (find_trailing_move (s_cfg st) (e_src e) mie = Some mv) as Hm
        by by apply find_trailing_move_Some.
    rewrite (fold_edge_goto_move _ _ _ _ _ _ He Ht Hm); simpl.
    rewrite block_insns_fold_with_move by done.
    by rewrite decide_True by done.
  - intros Hm%find_trailing_move_None.
    destruct (decide (prev = Some (e_src e))) as [Hp|Hp]; [left|right].
    + split; [done|]. by eapply fold_edge_goto_fallthrough.
    + split; [done|]. by eapply fold_edge_goto_plain.
Qed.

Lemma process_block_single_return prev b st mie :
  block_insns (s_cfg st) b = [mie] -> is_return (insn_opcode mie) = true ->
  process_block prev b st = foldl (fold_edge prev mie) st (preds (s_cfg st) b).
Proof. intros Hb Hr. unfold process_block. by rewrite Hb, Hr. Qed.


Lemma scan_del_prefix prev order st :
  s_del st `prefix_of` s_del (scan prev order st).
Proof.
  apply (scan_ind (fun st' => s_del st `prefix_of` s_del st')); [|done].
  intros prev' mie st' ei e HI _ _ _ _.
  destruct (fold_edge_step prev' mie st' ei); simpl; try done;
    by apply prefix_app_r.
Qed.

(** ** The scan, block after block *)

(** A block is visited in the state that the scan of the blocks before it
    has left, with the block just before it in the order as the previous
    block. *)
Lemma scan_app prev l1 l2 st :
  scan prev (l1 ++ l2) st = scan (prev_of prev l1) l2 (scan prev l1 st).
Proof.
  revert prev st. induction l1 as [|a l1 IH]; intros prev st; [done|].
  rewrite <- app_comm_cons.
  change (scan prev (a :: l1 ++ l2) st)
    with (scan (Some a) (l1 ++ l2) (process_block prev a st)).
  change (scan prev (a :: l1) st)
    with (scan (Some a) l1 (process_block prev a st)).
  rewrite IH. unfold prev_of. rewrite last_cons. by destruct (last l1).
Qed.

Lemma scan_visit prev l1 b l2 st :
  scan prev (l1 ++ b :: l2) st
  = scan (Some b) l2 (process_block (prev_of prev l1) b (scan prev l1 st)).
Proof. by rewrite scan_app. Qed.

Lemma scan_edges prev order st :
  cfg_edges (s_cfg (scan prev order st)) = cfg_edges (s_cfg st).
Proof.
  apply (scan_ind (fun st' => cfg_edges (s_cfg st') = cfg_edges (s_cfg st)));
    [|done].
  intros prev' mie st' ei e HI _ _ _ _. by rewrite fold_edge_edges.
Qed.

Lemma foldl_fold_edge_del prev mie eis :
  forall st,
    cfg_edges (s_cfg (foldl (fold_edge prev mie) st eis))
    = cfg_edges (s_cfg st) /\
    exists sub,
      s_del (foldl (fold_edge prev mie) st eis) = s_del st ++ sub /\
      sub `sublist_of` eis.
Proof.
  induction eis as [|ei eis IH]; intros st; simpl.
  - split; [done|]. exists []. by rewrite app_nil_r.
  - destruct (IH (fold_edge prev mie st ei)) as (He & sub & Hd & Hs).
    rewrite He, Hd, fold_edge_edges. split; [done|].
    destruct (fold_edge_step prev mie st ei); simpl.
    + exists sub. split; [done|]. by apply sublist_cons.
    + exists (ei :: sub). rewrite <- app_assoc. split; [done|].
      by apply sublist_skip.
    + exists sub. split; [done|]. by apply sublist_cons.
    + exists (ei :: sub). rewrite <- app_assoc. split; [done|].
      by apply sublist_skip.
Qed.

Lemma process_block_del prev b st :
  cfg_edges (s_cfg (process_block prev b st)) = cfg_edges (s_cfg st) /\
  exists sub,
    s_del (process_block prev b st) = s_del st ++ sub /\
    sub `sublist_of` preds (s_cfg st) b.
Proof.
  unfold process_block.
  assert (cfg_edges (s_cfg st) = cfg_edges (s_cfg st) /\
          exists sub, s_del st = s_del st ++ sub /\
                      sub `sublist_of` preds (s_cfg st) b) as Hid.
  { split; [done|]. exists []. rewrite app_nil_r. split; [done|].
    apply sublist_nil_l. }
  destruct (block_insns (s_cfg st) b) as [|mie [|? ?]]; try done.
  destruct (is_return (insn_opcode mie)); [|done].
  apply foldl_fold_edge_del.
Qed.

(** An edge in the queue at the end of a scan was in it at the start or
    enters a block of the order. *)
Lemma scan_del_origin order :
  forall prev st i,
    i ∈ s_del (scan prev order st) ->
    i ∈ s_del st \/
    exists e, get_edge (s_cfg st) i = Some e /\ e_target e ∈ order.
Proof.
  induction order as [|b order IH]; intros prev st i; simpl; [by left|].
  destruct (process_block_del prev b st) as (He & sub & Hd & Hsub).
  intros [Hi|(e & Hge & Ht)]%IH.
  - rewrite Hd in Hi. apply elem_of_app in Hi as [Hi|Hi]; [by left|].
    right. apply (sublist_subseteq _ _ Hsub), elem_of_preds in Hi
      as (e & Hge & Ht).
    exists e. split; [done|]. rewrite Ht. by left.
  - right. exists e. unfold get_edge in *. rewrite He in Hge.
    split; [done|]. by right.
Qed.

(** The turn of the edge [ei] among the predecessor edges of a single
    return: it is queued unless it is skipped. *)
Lemma visit_queues_edge prev mie st p1 ei p2 e :
  get_edge (s_cfg st) ei = Some e -> e_type e = EDGE_GOTO ->
  ~ (find_trailing_move (s_cfg (foldl (fold_edge prev mie) st p1))
       (e_src e) mie = None /\ prev = Some (e_src e)) ->
  ei ∈ s_del (foldl (fold_edge prev mie) st (p1 ++ ei :: p2)).
Proof.
  intros He Ht Hn. rewrite foldl_app. simpl.
  destruct (foldl_fold_edge_del prev mie p1 st) as (He1 & _).
  set (st2 := foldl (fold_edge prev mie) st p1) in *.
  assert (get_edge (s_cfg st2) ei = Some e) as He2.
  { unfold get_edge in *. by rewrite He1. }
  assert (s_del (fold_edge prev mie st2 ei) = s_del st2 ++ [ei]) as Hq.
  { destruct (find_trailing_move (s_cfg st2) (e_src e) mie) as [mv|] eqn:Hm.
    - by rewrite (fold_edge_goto_move _ _ _ _ _ _ He2 Ht Hm).
    - assert (prev <> Some (e_src e)) as Hp by tauto.
      by rewrite (fold_edge_goto_plain _ _ _ _ _ He2 Ht Hm Hp). }
  destruct (foldl_fold_edge_del prev mie p2 (fold_edge prev mie st2 ei))
    as (_ & sub & -> & _).
  rewrite Hq. apply elem_of_app. left. apply elem_of_app. right.
  by apply list_elem_of_singleton.
Qed.

Lemma visit_skips_edge prev mie st p1 ei p2 e :
  get_edge (s_cfg st) ei = Some e -> e_type e = EDGE_GOTO ->
  find_trailing_move (s_cfg (foldl (fold_edge prev mie) st p1))
    (e_src e) mie = None ->
  prev = Some (e_src e) ->
  NoDup (p1 ++ ei :: p2) -> ei ∉ s_del st ->
  foldl (fold_edge prev mie) st (p1 ++ ei :: p2)
  = foldl (fold_edge prev mie) (foldl (fold_edge prev mie) st p1) p2 /\
  ei ∉ s_del (foldl (fold_edge prev mie) st (p1 ++ ei :: p2)).
Proof.
  intros He Ht Hm Hp Hnd Hdel. rewrite foldl_app. simpl.
  destruct (foldl_fold_edge_del prev mie p1 st) as (He1 & sub1 & Hd1 & Hs1).
  set (st2 := foldl (fold_edge prev mie) st p1) in *.
  assert (get_edge (s_cfg st2) ei = Some e) as He2.
  { unfold get_edge in *. by rewrite He1. }
  rewrite (fold_edge_goto_fallthrough _ _ _ _ _ He2 Ht Hm Hp).
  split; [done|].
  destruct (foldl_fold_edge_del prev mie p2 st2) as (_ & sub2 & -> & Hs2).
  rewrite Hd1.
  apply NoDup_app in Hnd as (_ & H1 & [H2 _]%NoDup_cons).
  intros [[Hi|Hi]%elem_of_app|Hi]%elem_of_app.
  - done.
  - apply (sublist_subseteq _ _ Hs1) in Hi. apply (H1 ei Hi). by left.
  - by apply (sublist_subseteq _ _ Hs2) in Hi.
Qed.

(** The edges after a turn of the loop. *)
Lemma iteration_get_edge order cfg stats i :
  get_edge (fst (fst (iteration order (cfg, stats)))) i
  = if decide (i ∈ s_del (scan None order (mkScan cfg stats false [])))
    then None else get_edge cfg i.
Proof.
  unfold iteration; simpl.
  set (s := scan None order (mkScan cfg stats false [])).
  destruct (delete_edges_spec (s_del s) (s_cfg s) (s_stats s))
    as (_ & D2 & _).
  rewrite D2. case_decide; [done|].
  unfold get_edge. subst s. by rewrite scan_edges.
Qed.

(** A turn of the loop deletes the goto edge [ei] into the single return
    [b] unless the visit of [b] skips it. *)
Lemma turn_folds_edge cfg stats l1 b l2 mie p1 ei p2 e :
  let st1 := scan None l1 (mkScan cfg stats false []) in
  let st2 := foldl (fold_edge (prev_of None l1) mie) st1 p1 in
  block_insns (s_cfg st1) b = [mie] -> is_return (insn_opcode mie) = true ->
  preds (s_cfg st1) b = p1 ++ ei :: p2 ->
  get_edge (s_cfg st1) ei = Some e -> e_type e = EDGE_GOTO ->
  ~ (find_trailing_move (s_cfg st2) (e_src e) mie = None /\
     prev_of None l1 = Some (e_src e)) ->
  get_edge (fst (fst (iteration (l1 ++ b :: l2) (cfg, stats)))) ei = None.
Proof.
  intros st1 st2 Hb Hr Hp He Ht Hn.
  rewrite iteration_get_edge, decide_True; [done|].
  rewrite scan_visit. fold st1.
  destruct (scan_del_prefix (Some b) l2
              (process_block (prev_of None l1) b st1)) as [k ->].
  apply elem_of_app. left.
  rewrite (process_block_single_return _ _ _ _ Hb Hr), Hp.
  by eapply visit_queues_edge.
Qed.

(** A turn of the loop leaves in the graph the goto edge [ei] into the
    single return [b] that the visit of [b] skips, [b] being visited
    once. *)
Lemma turn_skips_edge cfg stats l1 b l2 mie p1 ei p2 e :
  let st1 := scan None l1 (mkScan cfg stats false []) in
  let st2 := foldl (fold_edge (prev_of None l1) mie) st1 p1 in
  block_insns (s_cfg st1) b = [mie] -> is_return (insn_opcode mie) = true ->
  preds (s_cfg st1) b = p1 ++ ei :: p2 ->
  get_edge (s_cfg st1) ei = Some e -> e_type e = EDGE_GOTO ->
  find_trailing_move (s_cfg st2) (e_src e) mie = None ->
  prev_of None l1 = Some (e_src e) ->
  b ∉ l1 -> b ∉ l2 ->
  fold_edge (prev_of None l1) mie st2 ei = st2 /\
  get_edge (fst (fst (iteration (l1 ++ b :: l2) (cfg, stats)))) ei = Some e.
Proof.
  intros st1 st2 Hb Hr Hp He Ht Hm Hprev Hl1 Hl2.
  assert (cfg_edges (s_cfg st1) = cfg_edges cfg) as Hed
      by apply scan_edges.
  assert (e_target e = b) as Htgt.
  { assert (ei ∈ preds (s_cfg st1) b) as Hin.
    { rewrite Hp. apply elem_of_app. right. by left. }
    apply elem_of_preds in Hin as (e' & He' & Ht'). congruence. }
  assert (get_edge (s_cfg st2) ei = Some e) as He2.
  { destruct (foldl_fold_edge_del (prev_of None l1) mie p1 st1) as (He1 & _).
    unfold get_edge in *. fold st2 in He1. by rewrite He1. }
  split; [by apply (fold_edge_goto_fallthrough _ _ _ _ e)|].
  assert (ei ∉ s_del st1) as Hd1.
  { intros [Hi|(e' & He' & Ht')]%scan_del_origin.
    - by apply elem_of_nil in Hi.
    - simpl in He'. unfold get_edge in *. rewrite Hed in He.
      assert (e' = e) as -> by congruence. congruence. }
  rewrite iteration_get_edge, decide_False.
  { unfold get_edge in *. by rewrite <- Hed. }
  rewrite scan_visit. fold st1.
  intros [Hi|(e' & He' & Ht')]%scan_del_origin.
  - rewrite (process_block_single_return _ _ _ _ Hb Hr), Hp in Hi.
    assert (NoDup (p1 ++ ei :: p2)) as Hnd.
    { rewrite <- Hp. apply NoDup_find_edges. }
    by destruct (visit_skips_edge _ _ _ _ _ _ _ He Ht Hm Hprev Hnd Hd1).
  - destruct (process_block_del (prev_of None l1) b st1) as (He1 & _).
    unfold get_edge in *. rewrite He1 in He'.
    assert (e' = e) as -> by congruence. congruence.
Qed.


(** ** Optimization 2 and the edge invariant *)

Lemma branchingness_snoc_return cfg b l r :
  block_insns cfg b = l ++ [r] -> is_return (insn_opcode r) = true ->
  branchingness_is_if cfg b = false.
Proof.
  intros Hb Hr. unfold branchingness_is_if, get_last_insn.
  rewrite Hb, last_snoc. by apply is_return_not_conditional.
Qed.

Lemma branchingness_oob cfg b :
  length (cfg_blocks cfg) <= b -> branchingness_is_if cfg b = false.
Proof.
  intros Hb. unfold branchingness_is_if, get_last_insn.
  by rewrite block_insns_oob.
Qed.

(** A step either does nothing or queues the edge and changes its source
    block alone, which ends in a return afterwards. *)
Lemma fold_edge_effect prev mie st ei :
  is_return (insn_opcode mie) = true ->
  let st' := fold_edge prev mie st ei in
  st' = st \/
  exists e, get_edge (s_cfg st) ei = Some e /\ e_type e = EDGE_GOTO /\
            s_del st' = s_del st ++ [ei] /\
            branchingness_is_if (s_cfg st') (e_src e) = false /\
            forall b, b <> e_src e ->
                      block_insns (s_cfg st') b = block_insns (s_cfg st) b.
Proof.
  intros Hr st'. subst st'.
  destruct (fold_edge_step prev mie st ei) as [|e mv He Ht Hm| |e He Ht Hm Hp];
    [by left| |by left|]; right; exists e; simpl.
  - apply find_trailing_move_Some in Hm as (_ & Hl & _).
    repeat split; try done.
    + eapply (branchingness_snoc_return _ _ _ (set_src 0 (src mv 0) mie));
        [|done].
      rewrite block_insns_fold_with_move by done. by rewrite decide_True.
    + intros b Hb. rewrite block_insns_fold_with_move by done.
      by rewrite decide_False.
  - repeat split; try done.
    + destruct (decide (e_src e < length (cfg_blocks (s_cfg st)))) as [Hs|Hs].
      * eapply (branchingness_snoc_return _ _ _ mie); [|done].
        rewrite block_insns_push_back. by rewrite decide_True.
      * apply branchingness_oob. unfold push_back.
        rewrite length_blocks_update. lia.
    + intros b Hb. rewrite block_insns_push_back.
      rewrite decide_False; [done|]. by intros [? _].
Qed.

Lemma scan_frame_scan prev order cfg stats :
  scan_frame cfg (scan prev order (mkScan cfg stats false [])).
Proof.
  apply (scan_ind (scan_frame cfg)).
  2:{ constructor; simpl; try done. by intros i ?%elem_of_nil. }
  intros prev' mie st ei e [F1 F2 F3 F4] He Ht Hr _.
  pose proof (fold_edge_effect prev' mie st ei Hr) as Heff.
  pose proof (fold_edge_edges prev' mie st ei) as Hed.
  pose proof (fold_edge_length prev' mie st ei) as Hlen.
  simpl in Heff. set (st' := fold_edge prev' mie st ei) in *.
  destruct Heff as [->|(e' & He' & _ & Hdel & Hbr & Hoth)];
    [by constructor|].
  assert (e' = e) as -> by congruence.
  assert (forall b, branchingness_is_if (s_cfg st') b = true ->
                    block_insns (s_cfg st') b = block_insns (s_cfg st) b /\
                    branchingness_is_if (s_cfg st) b = true) as Hkeep.
  { intros b Hb. assert (b <> e_src e) as Hne by congruence.
    split; [by apply Hoth|].
    unfold branchingness_is_if, get_last_insn in *. by rewrite <- Hoth. }
  constructor; try congruence.
  - intros b Hb. destruct (Hkeep b Hb) as [-> Hb']. by apply F3.
  - intros i. rewrite Hdel. intros [Hi| ->%list_elem_of_singleton]%elem_of_app.
    + destruct (F4 i Hi) as (e0 & He0 & Hbr0). exists e0. split; [done|].
      destruct (branchingness_is_if (s_cfg st') (e_src e0)) eqn:Hb; [|done].
      destruct (Hkeep _ Hb) as [_ Hb']. congruence.
    + exists e. split; [|done]. unfold get_edge in *. by rewrite <- F1.
Qed.

Lemma find_edges_delete_edges P del cfg stats :
  find_edges P 0 (cfg_edges (fst (delete_edges del (cfg, stats))))
  = filter (fun j => j ∉ del) (find_edges P 0 (cfg_edges cfg)).
Proof.
  revert cfg stats. unfold delete_edges.
  induction del as [|e del IH]; intros cfg stats; simpl.
  - symmetry. apply filter_all, Forall_forall. intros j _. apply not_elem_of_nil.
  - rewrite IH. simpl. rewrite find_edges_delete, list_filter_filter.
    apply filter_ext_in. intros j _. rewrite not_elem_of_cons. simpl. tauto.
Qed.

Lemma edge_invariant_iteration order cfg stats :
  edge_invariant cfg ->
  edge_invariant (fst (fst (iteration order (cfg, stats)))).
Proof.
  intros Hinv. unfold iteration; simpl.
  set (s := scan None order (mkScan cfg stats false [])).
  pose proof (scan_frame_scan None order cfg stats) as [F1 F2 F3 F4].
  fold s in F1, F2, F3, F4.
  destruct (delete_edges_spec (s_del s) (s_cfg s) (s_stats s)) as (D1 & _ & _).
  set (cfg' := fst (delete_edges (s_del s) (s_cfg s, s_stats s))) in *.
  assert (forall b, block_insns cfg' b = block_insns (s_cfg s) b) as Hbl.
  { intros b. unfold block_insns. by rewrite D1. }
  intros b Hb Hbr.
  assert (branchingness_is_if (s_cfg s) b = true) as Hbr1.
  { unfold branchingness_is_if, get_last_insn in *. by rewrite <- Hbl. }
  assert (branchingness_is_if cfg b = true) as Hbr0.
  { unfold branchingness_is_if, get_last_insn in *. by rewrite <- F3. }
  assert (forall t, succs_of_type cfg' b t = succs_of_type cfg b t) as Hsucc.
  { intros t. unfold succs_of_type, cfg'.
    rewrite find_edges_delete_edges, F1.
    apply filter_all, Forall_forall. intros i Hi Hdel.
    destruct (F4 i Hdel) as (e & He & Hbe).
    apply elem_of_find_edges in Hi as (_ & e' & He' & HP).
    rewrite Nat.sub_0_r in He'. apply get_edge_Some in He'.
    assert (e' = e) as -> by congruence.
    unfold is_succ_of_type in HP. apply andb_prop in HP as [Hs%bool_decide_eq_true _].
    congruence. }
  rewrite !Hsucc. apply Hinv; [|done].
  rewrite D1 in Hb. by rewrite <- F2.
Qed.

Lemma edge_invariant_fold_loop order fuel :
  forall cfg stats cfg' stats',
    edge_invariant cfg ->
    fold_loop fuel order (cfg, stats) = Some (cfg', stats') ->
    edge_invariant cfg'.
Proof.
  induction fuel as [|fuel IH]; intros cfg stats cfg' stats' Hinv; [done|].
  rewrite fold_loop_S.
  pose proof (edge_invariant_iteration order cfg stats Hinv) as Hit.
  destruct (iteration order (cfg, stats)) as [[cfg1 st1] rerun]. simpl in *.
  destruct rerun.
  - by apply IH.
  - by intros [= <- <-].
Qed.

Lemma edge_invariant_same_shape cfg cfg' :
  same_shape cfg cfg' -> edge_invariant cfg -> edge_invariant cfg'.
Proof.
  intros [S1 S2 S3 S4] Hinv b Hb Hbr. rewrite !S2. apply Hinv.
  - by rewrite <- S1.
  - by rewrite <- S4.
Qed.

Lemma edge_invariant_well_formed cfg : edge_invariant cfg -> well_formed cfg.
Proof.
  intros Hinv b Hb. unfold missing_edge.
  destruct (branchingness_is_if cfg b) eqn:Hbr; [simpl|done].
  destruct (Hinv b Hb Hbr) as [Hg Hbe]. unfold get_succ_edge_of_type.
  destruct (succs_of_type cfg b EDGE_GOTO); [done|].
  destruct (succs_of_type cfg b EDGE_BRANCH); done.
Qed.

(** C6. On a graph in which every block that ends in a conditional branch
    has exactly one goto edge and exactly one branch edge, the pass returns,
    and the graph it returns has the same property. *)
Theorem edge_invariant_preserved order cfg :
  edge_invariant cfg ->
  exists cfg' stats',
    process_code order cfg = Some (cfg', stats') /\ edge_invariant cfg'.
Proof.
  intros Hinv.
  destruct (optimization1_well_formed cfg stats0
              (edge_invariant_well_formed _ Hinv)) as [[cfg1 st1] H1].
  destruct (optimization2_total order (cfg1, st1)) as [[cfg' st'] H2].
  exists cfg', st'. split; [apply process_code_Some; eauto|].
  unfold optimization1 in H1; simpl in H1.
  destruct (invert_blocks_spec _ (NoDup_seq _ _) _ _ _ _ H1) as (Hs & _).
  unfold optimization2 in H2.
  eapply edge_invariant_fold_loop; [|done].
  by eapply edge_invariant_same_shape.
Qed.

(** ** The block order of Optimization 2 *)

Lemma fold_loop_fresh_constant fuel l :
  forall st, fold_loop_fresh fuel (fun _ => l) st = fold_loop fuel l st.
Proof.
  induction fuel as [|fuel IH]; intros st; [done|].
  rewrite fold_loop_S.
  change (fold_loop_fresh (S fuel) (fun _ => l) st)
    with (let '(st', rerun) := iteration l st in
          if rerun then fold_loop_fresh fuel (fun _ => l) st' else Some st').
  destruct (iteration l st) as [st' [|]]; [apply IH|done].
Qed.

(** C4, as the code has it. The block order is taken once, from the graph
    that Optimization 1 returns, and every turn of the loop, reruns
    included, scans that same list.
    - The pass is the loop run on this one list, and two layout functions
      that agree on that graph give the same result, whatever they say of
      the graphs of later turns.
    - Every turn of the loop, from whatever graph [c] and counters [s] it
      starts, is a turn over that list, and it visits the block [b] that
      stands after the blocks [l1] in that list with the last block of [l1]
      as the block before it.
    - Hence the fallthrough check of every turn reads that list: a goto edge
      [ei] into the single return [b] that has no trailing move to drop is
      gone after the turn when its source is not the block before [b] in the
      list, and is skipped and still there after the turn when it is, [b]
      standing nowhere else in the list. *)
Theorem order_taken_once order cfg cfg1 st1 :
  optimization1 (cfg, stats0) = Some (cfg1, st1) ->
  process_code order cfg
  = fold_loop (S (count_moves cfg1)) (order cfg1) (cfg1, st1) /\
  process_code order cfg = process_code_fresh (fun _ => order cfg1) cfg /\
  (forall order', order' cfg1 = order cfg1 ->
                  process_code order' cfg = process_code order cfg) /\
  (forall fuel st,
     fold_loop (S fuel) (order cfg1) st
     = if snd (iteration (order cfg1) st)
       then fold_loop fuel (order cfg1) (fst (iteration (order cfg1) st))
       else Some (fst (iteration (order cfg1) st))) /\
  (forall c s l1 b l2,
     order cfg1 = l1 ++ b :: l2 ->
     scan None (order cfg1) (mkScan c s false [])
     = scan (Some b) l2
         (process_block (prev_of None l1) b
            (scan None l1 (mkScan c s false [])))) /\
  (forall c s l1 b l2 mie p1 ei p2 e,
     order cfg1 = l1 ++ b :: l2 ->
     let sc1 := scan None l1 (mkScan c s false []) in
     let sc2 := foldl (fold_edge (prev_of None l1) mie) sc1 p1 in
     block_insns (s_cfg sc1) b = [mie] ->
     is_return (insn_opcode mie) = true ->
     preds (s_cfg sc1) b = p1 ++ ei :: p2 ->
     get_edge (s_cfg sc1) ei = Some e -> e_type e = EDGE_GOTO ->
     find_trailing_move (s_cfg sc2) (e_src e) mie = None ->
     (prev_of None l1 <> Some (e_src e) ->
      get_edge (fst (fst (iteration (order cfg1) (c, s)))) ei = None) /\
     (prev_of None l1 = Some (e_src e) -> b ∉ l1 -> b ∉ l2 ->
      fold_edge (prev_of None l1) mie sc2 ei = sc2 /\
      get_edge (fst (fst (iteration (order cfg1) (c, s)))) ei = Some e)).
Proof.
  intros H1.
  split; [|split; [|split; [|split; [intros; apply fold_loop_S|split]]]].
  - unfold process_code, optimization2. by rewrite H1.
  - unfold process_code, process_code_fresh, optimization2.
    rewrite H1; simpl. by rewrite fold_loop_fresh_constant.
  - intros order' Ho. unfold process_code, optimization2.
    rewrite H1; simpl. by rewrite Ho.
  - intros c s l1 b l2 ->. apply scan_visit.
  - intros c s l1 b l2 mie p1 ei p2 e -> sc1 sc2 Hb Hr Hp He Ht Hm. split.
    + intros Hprev. eapply turn_folds_edge; try done. fold sc1 sc2. tauto.
    + intros Hprev Hl1 Hl2. by eapply turn_skips_edge.
Qed.

(** C4, in the wording of the specification, fails: on [stale_order_cfg]
    with the layout [layout_entered], the first turn removes the move of
    block 3 and deletes the edges into blocks 2 and 4, so that the layout
    of the resulting graph, 0 1 3 5 2 4, puts block 1 just before block 3;
    the code still scans the first list, 0 1 2 3 4 5, in which block 2
    stands between them, and folds the edge from block 1 to block 3, which
    a freshly derived order skips. *)
Lemma order_is_not_recomputed :
  process_code layout_entered stale_order_cfg
  <> process_code_fresh layout_entered stale_order_cfg.
Proof. vm_compute. discriminate. Qed.

(** ** Execution: general facts *)

Section ExecutionFacts.
Context {World : Type}.
Variable exec_other : IRInstruction -> Regs -> World -> Regs * World.

Abbreviation exec_insns := (exec_insns exec_other).
Abbreviation exec_block := (exec_block exec_other).
Abbreviation run := (run exec_other).
Abbreviation behaves := (behaves exec_other).
Abbreviation equivalent := (equivalent exec_other).

Lemma run_mono fuel :
  forall fuel' cfg b regs w r,
    run fuel cfg b regs w = Some r -> fuel <= fuel' ->
    run fuel' cfg b regs w = Some r.
Proof.
  induction fuel as [|fuel IH]; intros fuel' cfg b regs w r Hr Hf; [done|].
  destruct fuel' as [|fuel']; [lia|]. simpl in *.
  destruct (exec_block cfg b regs w) as [r'|b' regs' w']; [done|].
  apply IH; [done|lia].
Qed.

Lemma equivalent_refl cfg : equivalent cfg cfg.
Proof. by intros b regs w r. Qed.

Lemma equivalent_trans cfg1 cfg2 cfg3 :
  equivalent cfg1 cfg2 -> equivalent cfg2 cfg3 -> equivalent cfg1 cfg3.
Proof.
  intros H12 H23 b regs w r. by rewrite (H12 b regs w r), (H23 b regs w r).
Qed.

(** Graphs whose blocks all act alike are equivalent. *)
Lemma equivalent_blockwise cfg cfg' :
  (forall b regs w, exec_block cfg' b regs w = exec_block cfg b regs w) ->
  equivalent cfg cfg'.
Proof.
  intros Hb.
  assert (forall fuel b regs w, run fuel cfg' b regs w = run fuel cfg b regs w)
    as Hrun.
  { induction fuel as [|fuel IH]; intros b regs w; simpl; [done|].
    rewrite Hb. by destruct (exec_block cfg b regs w). }
  intros b regs w r. unfold behaves. by setoid_rewrite Hrun.
Qed.

(** Graphs in which a block of the second either acts as in the first or
    returns at once what the first returns after one more jump are
    equivalent. *)
Lemma equivalent_shortcut cfg cfg' :
  (forall b regs w,
     exec_block cfg' b regs w = exec_block cfg b regs w \/
     exists t regs1 w1 r,
       exec_block cfg b regs w = Jump t regs1 w1 /\
       exec_block cfg t regs1 w1 = Done r /\
       exec_block cfg' b regs w = Done r) ->
  equivalent cfg cfg'.
Proof.
  intros Hb b regs w r. split; intros [fuel Hrun].
  - exists fuel. revert b regs w Hrun.
    induction fuel as [|fuel IH]; intros b regs w Hrun; [done|].
    simpl in *.
    destruct (Hb b regs w) as [->|(t & regs1 & w1 & r1 & H1 & H2 & ->)].
    + destruct (exec_block cfg b regs w); [done|by apply IH].
    + rewrite H1 in Hrun. destruct fuel as [|fuel]; [done|].
      simpl in Hrun. by rewrite H2 in Hrun.
  - exists (S fuel). revert b regs w Hrun.
    induction fuel as [|fuel IH]; intros b regs w Hrun; [done|].
    simpl in Hrun.
    destruct (Hb b regs w) as [Heq|(t & regs1 & w1 & r1 & H1 & H2 & H3)].
    + rewrite Heq in Hrun. change (run (S (S fuel)) cfg b regs w)
        with (match exec_block cfg b regs w with
              | Done r => Some r
              | Jump b' regs' w' => run (S fuel) cfg b' regs' w'
              end).
      destruct (exec_block cfg b regs w); [done|by apply IH].
    + rewrite H3 in Hrun. simplify_eq. simpl. by rewrite H1, H2.
Qed.

Lemma exec_insns_app_not_end gt gt' bt l regs w :
  Exists (fun i => is_return (insn_opcode i) = true) l ->
  exec_insns gt bt l regs w = exec_insns gt' bt l regs w.
Proof.
  intros Hex. revert regs w.
  induction l as [|i l IH]; intros regs w; [by apply Exists_nil in Hex|].
  simpl. destruct (is_return (insn_opcode i)) eqn:Hr; [done|].
  apply Exists_cons in Hex as [Hex|Hex]; [congruence|].
  destruct (is_conditional_branch (insn_opcode i)).
  { destruct (eval_cond i regs); [done|by apply IH]. }
  destruct (is_move (insn_opcode i)); [by apply IH|].
  destruct (exec_other i regs w). by apply IH.
Qed.

(** ** Execution: Optimization 1 *)

Lemma is_conditional_not_return op :
  is_conditional_branch op = true -> is_return op = false.
Proof. by destruct op. Qed.

Lemma eval_cond_invert i regs :
  is_conditional_branch (insn_opcode i) = true ->
  eval_cond (invert_insn i) regs = negb (eval_cond i regs).
Proof.
  unfold eval_cond, invert_insn, set_opcode, src; simpl.
  destruct (insn_opcode i); simpl; try done; by rewrite ?negb_involutive.
Qed.

Lemma exec_insns_inverted gt bt l i regs w :
  Forall (fun i => is_conditional_branch (insn_opcode i) = false) l ->
  is_conditional_branch (insn_opcode i) = true ->
  exec_insns bt gt (l ++ [invert_insn i]) regs w
  = exec_insns gt bt (l ++ [i]) regs w.
Proof.
  intros Hl Hi. revert regs w.
  induction Hl as [|a l Ha Hl IH]; intros regs w; simpl.
  - rewrite is_conditional_branch_invert, Hi.
    rewrite !is_conditional_not_return
      by (by rewrite ?is_conditional_branch_invert).
    rewrite eval_cond_invert by done.
    by destruct (eval_cond i regs).
  - rewrite Ha. destruct (is_return (insn_opcode a)); [done|].
    destruct (is_move (insn_opcode a)); [by apply IH|].
    destruct (exec_other a regs w). by apply IH.
Qed.

Lemma edge_target_unchanged cfg cfg' b t :
  same_shape cfg cfg' -> unchanged_at cfg cfg' b ->
  edge_target cfg' b t = edge_target cfg b t.
Proof.
  intros [S1 S2 S3 S4] [U1 U2]. unfold edge_target, get_succ_edge_of_type.
  rewrite S2. destruct (head (succs_of_type cfg b t)) as [i|] eqn:Hi; [|done].
  simpl. apply get_succ_edge_of_type_Some in Hi as (e & He & Hs & _).
  by rewrite He, (U2 _ _ He Hs).
Qed.

Lemma exec_block_unchanged cfg cfg' b regs w :
  same_shape cfg cfg' -> unchanged_at cfg cfg' b ->
  exec_block cfg' b regs w = exec_block cfg b regs w.
Proof.
  intros Hs Hu. unfold exec_block.
  rewrite !(edge_target_unchanged cfg cfg') by done.
  destruct Hu as [-> _]. done.
Qed.

Lemma exec_block_inverted cfg cfg' b regs w :
  branch_last cfg -> same_shape cfg cfg' ->
  inverts cfg b = true -> inverted_at cfg cfg' b ->
  exec_block cfg' b regs w = exec_block cfg b regs w.
Proof.
  intros Hbl [S1 S2 S3 S4] Hinv
    (gi & bi & ge & be & Hgi & Hge & Hbi & Hbe & Hins & Hg' & Hb' & _).
  unfold exec_block, edge_target, get_succ_edge_of_type. rewrite !S2.
  fold (get_succ_edge_of_type cfg b EDGE_GOTO).
  fold (get_succ_edge_of_type cfg b EDGE_BRANCH).
  rewrite Hgi, Hbi; simpl. rewrite Hge, Hbe, Hg', Hb', Hins; simpl.
  unfold inverts in Hinv. apply andb_prop in Hinv as [Hbr _].
  unfold branchingness_is_if, get_last_insn in Hbr.
  specialize (Hbl b).
  destruct (last (block_insns cfg b)) as [i|] eqn:Hl; [|done].
  apply last_Some in Hl as [l Hl]. rewrite Hl in *.
  rewrite removelast_last in Hbl. rewrite map_last_snoc.
  by apply exec_insns_inverted.
Qed.

Lemma optimization1_equivalent cfg cfg' st st' :
  branch_last cfg ->
  optimization1 (cfg, st) = Some (cfg', st') ->
  forall b regs w, exec_block cfg' b regs w = exec_block cfg b regs w.
Proof.
  intros Hbl Hrun b regs w. unfold optimization1 in Hrun; simpl in Hrun.
  destruct (invert_blocks_spec _ (NoDup_seq _ _) _ _ _ _ Hrun)
    as (Hs & Hout & Hin & _).
  destruct (decide (b ∈ blocks cfg)) as [Hb|Hb].
  - specialize (Hin b Hb). destruct (inverts cfg b) eqn:Hi.
    + by apply exec_block_inverted.
    + by apply exec_block_unchanged.
  - apply exec_block_unchanged; [done|]. by apply Hout.
Qed.

End ExecutionFacts.

(** ** Execution: Optimization 2 *)

Section FoldingFacts.
Context {World : Type}.
Variable exec_other : IRInstruction -> Regs -> World -> Regs * World.

Abbreviation exec_insns := (exec_insns exec_other).
Abbreviation exec_block := (exec_block exec_other).
Abbreviation equivalent := (equivalent exec_other).

Lemma is_move_not_return op : is_move op = true -> is_return op = false.
Proof. by destruct op. Qed.

(** A return put at the end of a block that went on to [t]. *)
Lemma exec_insns_snoc_return t bt l mie regs w :
  is_return (insn_opcode mie) = true ->
  exec_insns (Some t) bt (l ++ [mie]) regs w
  = exec_insns (Some t) bt l regs w \/
  exists regs1 w1,
    exec_insns (Some t) bt l regs w = Jump t regs1 w1 /\
    exec_insns (Some t) bt (l ++ [mie]) regs w
    = Done (Returned (ret_vals mie regs1) w1).
Proof.
  intros Hr. revert regs w.
  induction l as [|a l IH]; intros regs w; simpl.
  - rewrite Hr. right. by exists regs, w.
  - destruct (is_return (insn_opcode a)); [by left|].
    destruct (is_conditional_branch (insn_opcode a)).
    { destruct (eval_cond a regs); [by left|apply IH]. }
    destruct (is_move (insn_opcode a)); [apply IH|].
    destruct (exec_other a regs w). apply IH.
Qed.

(** The value staged by a trailing move is the value of its source. *)
Lemma ret_vals_staged mv mie regs :
  0 < srcs_size mie -> srcs_size mie <= 1 ->
  insn_dest mv = Some (src mie 0) -> insn_wide mv = insn_wide mie ->
  ret_vals (set_src 0 (src mv 0) mie) regs = ret_vals mie (do_move mv regs).
Proof.
  intros H0 H1 Hd Hw. unfold srcs_size in *.
  destruct (insn_srcs mie) as [|d [|? ?]] eqn:Hs; simpl in *; try lia.
  assert (src mie 0 = d) as Hd0 by (unfold src; by rewrite Hs).
  rewrite Hd0 in Hd.
  unfold ret_vals, do_move, set_src; simpl. rewrite Hs, Hd, Hw; simpl.
  unfold read_reg, set_reg.
  destruct (insn_wide mie); simpl; repeat case_decide; try lia; done.
Qed.

(** A return put in the place of the trailing move that staged its
    value. *)
Lemma exec_insns_move_return t bt l mv mie regs w :
  is_move (insn_opcode mv) = true ->
  is_return (insn_opcode mie) = true ->
  0 < srcs_size mie -> srcs_size mie <= 1 ->
  insn_dest mv = Some (src mie 0) -> insn_wide mv = insn_wide mie ->
  exec_insns (Some t) bt (l ++ [set_src 0 (src mv 0) mie]) regs w
  = exec_insns (Some t) bt (l ++ [mv]) regs w \/
  exists regs1 w1,
    exec_insns (Some t) bt (l ++ [mv]) regs w = Jump t regs1 w1 /\
    exec_insns (Some t) bt (l ++ [set_src 0 (src mv 0) mie]) regs w
    = Done (Returned (ret_vals mie regs1) w1).
Proof.
  intros Hmv Hr H0 H1 Hd Hw. revert regs w.
  induction l as [|a l IH]; intros regs w; simpl.
  - rewrite Hr, Hmv, (is_move_not_return _ Hmv),
      (is_move_not_conditional _ Hmv).
    right. exists (do_move mv regs), w. split; [done|].
    by rewrite ret_vals_staged.
  - destruct (is_return (insn_opcode a)); [by left|].
    destruct (is_conditional_branch (insn_opcode a)).
    { destruct (eval_cond a regs); [by left|apply IH]. }
    destruct (is_move (insn_opcode a)); [apply IH|].
    destruct (exec_other a regs w). apply IH.
Qed.

Lemma exec_block_head_return cfg b mie regs w :
  head (block_insns cfg b) = Some mie ->
  is_return (insn_opcode mie) = true ->
  exec_block cfg b regs w = Done (Returned (ret_vals mie regs) w).
Proof.
  intros Hh Hr. unfold exec_block.
  destruct (block_insns cfg b) as [|i l]; simplify_eq/=. by rewrite Hr.
Qed.

Lemma edge_target_same_edges cfg cfg' b t :
  cfg_edges cfg' = cfg_edges cfg -> edge_target cfg' b t = edge_target cfg b t.
Proof.
  intros He. unfold edge_target, get_succ_edge_of_type, succs_of_type, get_edge.
  by rewrite He.
Qed.

(** The goto edge of a block that has at most one is the one found. *)
Lemma edge_target_unique cfg ei e :
  goto_unique cfg -> get_edge cfg ei = Some e -> e_type e = EDGE_GOTO ->
  edge_target cfg (e_src e) EDGE_GOTO = Some (e_target e).
Proof.
  intros Hu He Ht. specialize (Hu (e_src e)).
  assert (ei ∈ succs_of_type cfg (e_src e) EDGE_GOTO) as Hin.
  { unfold succs_of_type. apply elem_of_find_edges. split; [lia|].
    exists e. rewrite Nat.sub_0_r. split; [by apply get_edge_Some|].
    unfold is_succ_of_type. by rewrite !bool_decide_eq_true_2. }
  unfold edge_target, get_succ_edge_of_type.
  destruct (succs_of_type cfg (e_src e) EDGE_GOTO) as [|i [|? ?]];
    simpl in *; [by apply elem_of_nil in Hin| |lia].
  apply list_elem_of_singleton in Hin as ->. by rewrite He.
Qed.

Lemma source_in_range cfg ei e :
  sources_exist cfg -> get_edge cfg ei = Some e ->
  e_src e < length (cfg_blocks cfg).
Proof.
  intros Hs He. apply (Hs (e_src e) (e_type e)).
  intros Hnil.
  assert (ei ∈ succs_of_type cfg (e_src e) (e_type e)) as Hin.
  { unfold succs_of_type. apply elem_of_find_edges. split; [lia|].
    exists e. rewrite Nat.sub_0_r. split; [by apply get_edge_Some|].
    unfold is_succ_of_type. by rewrite !bool_decide_eq_true_2. }
  rewrite Hnil in Hin. by apply elem_of_nil in Hin.
Qed.

End FoldingFacts.

Section FoldingPreserves.
Context {World : Type}.
Variable exec_other : IRInstruction -> Regs -> World -> Regs * World.
Variable cfg0 : ControlFlowGraph.
Hypothesis Hgoto : goto_unique cfg0.
Hypothesis Hsrc : sources_exist cfg0.

Abbreviation unary :=
  (fun i => is_return (insn_opcode i) = true -> srcs_size i <= 1).

(** The common part of the two ways of folding an edge: the source block
    gets the instructions [l'], which end in a return and act as the old
    ones up to the jump into the target. *)
Lemma sem_frame_step st st' ei e mie l' :
  sem_frame exec_other cfg0 st ->
  get_edge (s_cfg st) ei = Some e -> e_type e = EDGE_GOTO ->
  is_return (insn_opcode mie) = true ->
  head (block_insns (s_cfg st) (e_target e)) = Some mie ->
  cfg_edges (s_cfg st') = cfg_edges (s_cfg st) ->
  length (cfg_blocks (s_cfg st')) = length (cfg_blocks (s_cfg st)) ->
  (forall b, block_insns (s_cfg st') b
             = if decide (e_src e = b) then l'
               else block_insns (s_cfg st) b) ->
  has_return l' -> Forall unary l' ->
  (forall bt regs w,
     exec_insns exec_other (Some (e_target e)) bt l' regs w
     = exec_insns exec_other (Some (e_target e)) bt
         (block_insns (s_cfg st) (e_src e)) regs w \/
     exists regs1 w1,
       exec_insns exec_other (Some (e_target e)) bt
         (block_insns (s_cfg st) (e_src e)) regs w
       = Jump (e_target e) regs1 w1 /\
       exec_insns exec_other (Some (e_target e)) bt l' regs w
       = Done (Returned (ret_vals mie regs1) w1)) ->
  s_del st' = s_del st ++ [ei] ->
  sem_frame exec_other cfg0 st'.
Proof using Hgoto.
  intros [F1 F2 F3 F4 F5] He Ht Hr Hh Hed Hlen Hbl Hret Hun Hsim Hdel.
  assert (goto_unique (s_cfg st)) as Hgu.
  { intros b. unfold succs_of_type. rewrite F1. apply Hgoto. }
  pose proof (edge_target_unique _ _ _ Hgu He Ht) as Hgt.
  constructor.
  - congruence.
  - congruence.
  - eapply equivalent_trans; [done|]. apply equivalent_shortcut.
    intros b regs w. unfold exec_block.
    rewrite !(edge_target_same_edges (s_cfg st) (s_cfg st')) by done.
    rewrite Hbl. case_decide as Hb; [subst b|by left].
    rewrite Hgt.
    destruct (Hsim (edge_target (s_cfg st) (e_src e) EDGE_BRANCH) regs w)
      as [->|(regs1 & w1 & H1 & H2)]; [by left|right].
    exists (e_target e), regs1, w1, (Returned (ret_vals mie regs1) w1).
    split; [done|]. split; [|done].
    fold (exec_block exec_other (s_cfg st) (e_target e) regs1 w1).
    by apply exec_block_head_return.
  - intros b. rewrite Hbl. case_decide; [done|apply F4].
  - intros i. rewrite Hdel.
    intros [Hi| ->%list_elem_of_singleton]%elem_of_app.
    + destruct (F5 i Hi) as (e0 & He0 & Ht0 & Hr0). exists e0.
      split; [done|]. split; [done|]. rewrite Hbl. by case_decide.
    + exists e. split; [|split; [done|]].
      * unfold get_edge in *. by rewrite <- F1.
      * rewrite Hbl. by rewrite decide_True.
Qed.

Lemma has_return_snoc l r :
  is_return (insn_opcode r) = true -> has_return (l ++ [r]).
Proof. intros Hr. apply Exists_app. right. by apply Exists_cons_hd. Qed.

Lemma sem_frame_fold_edge : fold_preserves (sem_frame exec_other cfg0).
Proof using Hgoto Hsrc.
  intros prev mie st ei e HF He Ht Hr Hh.
  assert (e_src e < length (cfg_blocks (s_cfg st))) as Hin.
  { apply (source_in_range _ ei); [|done].
    intros b t. unfold succs_of_type.
    rewrite (sm_edges _ _ _ HF), (sm_length _ _ _ HF). apply Hsrc. }
  assert (unary mie) as Hmie.
  { pose proof (sm_returns _ _ _ HF (e_target e)) as Hall.
    destruct (block_insns (s_cfg st) (e_target e)) as [|i l];
      simplify_eq/=. by apply Forall_cons in Hall as [? _]. }
  destruct (fold_edge_step prev mie st ei)
    as [|e' mv He' _ Hm| |e' He' _ Hm Hp]; try done.
  - assert (e' = e) as -> by congruence.
    apply find_trailing_move_Some in Hm as (H0 & Hl & Hmv & Hd & Hw).
    pose proof Hl as [l Hbl]%last_Some.
    apply (sem_frame_step st _ ei e mie
             (l ++ [set_src 0 (src mv 0) mie])); simpl; try done.
    + by rewrite !length_alter.
    + intros b. rewrite block_insns_fold_with_move by done.
      case_decide; [subst b|done]. by rewrite Hbl, removelast_last.
    + by apply has_return_snoc.
    + pose proof (sm_returns _ _ _ HF (e_src e)) as Hall.
      rewrite Hbl in Hall. apply Forall_app in Hall as [Hall _].
      apply Forall_app. split; [done|]. apply Forall_singleton.
      intros _. unfold srcs_size, set_src; simpl. rewrite length_insert.
      by apply Hmie.
    + intros bt regs w. rewrite Hbl.
      apply exec_insns_move_return; try done. by apply Hmie.
  - assert (e' = e) as -> by congruence.
    apply (sem_frame_step st _ ei e mie
             (block_insns (s_cfg st) (e_src e) ++ [mie])); simpl; try done.
    + by rewrite length_alter.
    + intros b. rewrite block_insns_push_back.
      repeat case_decide; naive_solver.
    + by apply has_return_snoc.
    + apply Forall_app. split; [apply (sm_returns _ _ _ HF)|].
      by apply Forall_singleton.
    + intros bt regs w. by apply exec_insns_snoc_return.
Qed.

Lemma sem_frame_scan prev order stats :
  returns_unary cfg0 ->
  sem_frame exec_other cfg0 (scan prev order (mkScan cfg0 stats false [])).
Proof using Hgoto Hsrc.
  intros Hun. apply scan_ind; [apply sem_frame_fold_edge|].
  constructor; simpl; try done.
  by intros i ?%elem_of_nil.
Qed.

End FoldingPreserves.

Section PassPreserves.
Context {World : Type}.
Variable exec_other : IRInstruction -> Regs -> World -> Regs * World.

Abbreviation equivalent := (equivalent exec_other).

Lemma edge_target_delete_edges del cfg stats b t :
  (forall i e, i ∈ del -> get_edge cfg i = Some e ->
               ~ (e_src e = b /\ e_type e = t)) ->
  edge_target (fst (delete_edges del (cfg, stats))) b t
  = edge_target cfg b t.
Proof.
  intros Hdel.
  destruct (delete_edges_spec del cfg stats) as (_ & D2 & _).
  simpl in D2.
  assert (forall i, i ∈ succs_of_type cfg b t -> i ∉ del) as Hnot.
  { intros i Hi Hd. apply elem_of_find_edges in Hi as (_ & e & He & HP).
    rewrite Nat.sub_0_r in He. apply get_edge_Some in He.
    apply (Hdel i e Hd He). unfold is_succ_of_type in HP.
    apply andb_prop in HP as [H1 H2].
    by apply bool_decide_eq_true in H1, H2. }
  unfold edge_target, get_succ_edge_of_type.
  assert (succs_of_type (fst (delete_edges del (cfg, stats))) b t
          = succs_of_type cfg b t) as ->.
  { unfold succs_of_type. rewrite find_edges_delete_edges.
    by apply filter_all, Forall_forall. }
  destruct (succs_of_type cfg b t) as [|i l] eqn:Hs; [done|]. simpl.
  rewrite D2. rewrite decide_False; [done|]. apply Hnot. by left.
Qed.

(** One turn of the loop keeps the behaviour and the shape. *)
Lemma iteration_equivalent order cfg stats :
  goto_unique cfg -> returns_unary cfg -> sources_exist cfg ->
  let cfg' := fst (fst (iteration order (cfg, stats))) in
  equivalent cfg cfg' /\
  goto_unique cfg' /\ returns_unary cfg' /\ sources_exist cfg'.
Proof.
  intros Hg Hr Hs. unfold iteration; simpl.
  set (s := scan None order (mkScan cfg stats false [])).
  pose proof (sem_frame_scan exec_other cfg Hg Hs None order stats Hr)
    as [F1 F2 F3 F4 F5]. fold s in F1, F2, F3, F4, F5.
  destruct (delete_edges_spec (s_del s) (s_cfg s) (s_stats s))
    as (D1 & D2 & _).
  set (cfg' := fst (delete_edges (s_del s) (s_cfg s, s_stats s))) in *.
  assert (forall b, block_insns cfg' b = block_insns (s_cfg s) b) as Hbl.
  { intros b. unfold block_insns. by rewrite D1. }
  assert (forall i e, i ∈ s_del s -> get_edge (s_cfg s) i = Some e ->
            e_type e = EDGE_GOTO /\
            has_return (block_insns (s_cfg s) (e_src e))) as Hq.
  { intros i e Hi He. destruct (F5 i Hi) as (e' & He' & Ht & Hret).
    unfold get_edge in *. rewrite F1 in He. by simplify_eq. }
  assert (forall b t, length (succs_of_type cfg' b t)
                      <= length (succs_of_type cfg b t)) as Hlen.
  { intros b t. unfold succs_of_type, cfg'.
    rewrite find_edges_delete_edges, F1. apply length_filter. }
  split; [|split; [|split]].
  - eapply equivalent_trans; [done|]. apply equivalent_blockwise.
    intros b regs w. unfold exec_block. rewrite Hbl.
    assert (edge_target cfg' b EDGE_BRANCH
            = edge_target (s_cfg s) b EDGE_BRANCH) as ->.
    { apply edge_target_delete_edges. intros i e Hi He [_ Ht].
      destruct (Hq i e Hi He) as [Ht' _]. congruence. }
    destruct (decide (Exists (fun i => is_return (insn_opcode i) = true)
                             (block_insns (s_cfg s) b))) as [Hex|Hex].
    + by apply exec_insns_app_not_end.
    + assert (edge_target cfg' b EDGE_GOTO
              = edge_target (s_cfg s) b EDGE_GOTO) as ->; [|done].
      apply edge_target_delete_edges. intros i e Hi He [Hb _].
      destruct (Hq i e Hi He) as [_ Hret]. by rewrite Hb in Hret.
  - intros b. specialize (Hlen b EDGE_GOTO). specialize (Hg b). lia.
  - intros b. rewrite Hbl. apply F4.
  - intros b t Hne. rewrite D1, F2. apply (Hs b t).
    intros Hnil. specialize (Hlen b t). rewrite Hnil in Hlen.
    destruct (succs_of_type cfg' b t); simpl in *; [done|lia].
Qed.

Lemma fold_loop_equivalent order fuel :
  forall cfg stats cfg' stats',
    goto_unique cfg -> returns_unary cfg -> sources_exist cfg ->
    fold_loop fuel order (cfg, stats) = Some (cfg', stats') ->
    equivalent cfg cfg'.
Proof.
  induction fuel as [|fuel IH]; intros cfg stats cfg' stats' Hg Hr Hs;
    [done|].
  rewrite fold_loop_S.
  pose proof (iteration_equivalent order cfg stats Hg Hr Hs)
    as (He & Hg1 & Hr1 & Hs1).
  destruct (iteration order (cfg, stats)) as [[cfg1 st1] rerun].
  simpl in *. destruct rerun.
  - intros Hl. eapply equivalent_trans; [done|]. by eapply IH.
  - by intros [= <- <-].
Qed.

Lemma structured_optimization1 cfg st cfg1 st1 :
  structured cfg ->
  optimization1 (cfg, st) = Some (cfg1, st1) ->
  goto_unique cfg1 /\ returns_unary cfg1 /\ sources_exist cfg1.
Proof.
  intros [Hg Hb Hr Hs] Hrun. unfold optimization1 in Hrun; simpl in Hrun.
  destruct (invert_blocks_spec _ (NoDup_seq _ _) _ _ _ _ Hrun)
    as ([S1 S2 S3 S4] & Hout & Hin & _).
  split; [|split].
  - intros b. rewrite S2. apply Hg.
  - intros b.
    assert (block_insns cfg1 b = block_insns cfg b \/
            block_insns cfg1 b = map_last invert_insn (block_insns cfg b))
      as [->| ->]; [|apply Hr|].
    { destruct (decide (b ∈ blocks cfg)) as [Hb'|Hb'].
      - specialize (Hin b Hb'). destruct (inverts cfg b).
        + right. by destruct Hin as (? & ? & ? & ? & _ & _ & _ & _ & ? & _).
        + left. by destruct Hin.
      - left. by destruct (Hout b Hb'). }
    specialize (Hr b). unfold map_last.
    destruct (last (block_insns cfg b)) as [i|] eqn:Hl; [|done].
    apply last_Some in Hl as [l Hl]. rewrite Hl in *.
    rewrite removelast_last. apply Forall_app in Hr as [Hr1 Hr2].
    apply Forall_app. split; [done|]. apply Forall_singleton.
    rewrite Forall_singleton in Hr2.
    unfold invert_insn, set_opcode, srcs_size in *; simpl.
    intros Hret. destruct (is_conditional_branch (insn_opcode i)) eqn:Hc.
    + rewrite <- is_conditional_branch_invert in Hc.
      apply is_conditional_not_return in Hc. congruence.
    + apply Hr2. by destruct (insn_opcode i).
  - intros b t. rewrite S2, S1. apply Hs.
Qed.

End PassPreserves.

(** C9. On a graph built as the builder of the graph builds it (a block has
    at most one goto edge, a conditional branch is the last instruction of
    its block, a return names at most one register, an edge leaves a block
    of the graph), a run of the method on the graph returned by the pass
    ends with the same result, returned values and state of the world,
    as the run on the input graph from the same block and the same state,
    and the one ends if and only if the other does; this for every meaning
    of the instructions that are not moves, returns or conditional
    branches. *)
Theorem semantic_equivalence {World : Type}
    (exec_other : IRInstruction -> Regs -> World -> Regs * World)
    order cfg cfg' stats' :
  structured cfg ->
  process_code order cfg = Some (cfg', stats') ->
  forall b regs w r,
    behaves exec_other cfg b regs w r <-> behaves exec_other cfg' b regs w r.
Proof.
  intros Hst ([cfg1 st1] & H1 & H2)%process_code_Some.
  destruct (structured_optimization1 _ _ _ _ Hst H1) as (Hg & Hr & Hs).
  assert (equivalent exec_other cfg cfg1) as He1.
  { apply equivalent_blockwise.
    eapply optimization1_equivalent; [apply (st_branch _ Hst)|done]. }
  assert (equivalent exec_other cfg1 cfg') as He2.
  { unfold optimization2 in H2. by eapply fold_loop_equivalent. }
  by eapply equivalent_trans.
Qed.

(** * The pass on sample graphs *)

(** ** The cases listed by the specification *)

Example fold_with_value :
  process_code blocks fold_value_cfg
  = Some (mkCFG [ [other_insn 0]; [other_insn 1; return_insn 0];
                  [other_insn 2]; [return_insn 1] ]
                [ None; Some (mkEdge 0 EDGE_GOTO 1) ],
          mkStats 1 1 0).
Proof. reflexivity. Qed.

Example fold_without_staging_move :
  process_code blocks fold_plain_cfg
  = Some (mkCFG [ [other_insn 0]; [other_insn 1; return_insn 5];
                  [other_insn 2]; [return_insn 5] ]
                [ None; Some (mkEdge 0 EDGE_GOTO 1) ],
          mkStats 1 0 0).
Proof. reflexivity. Qed.

Example fallthrough_suppression :
  process_code blocks fallthrough_cfg = Some (fallthrough_cfg, stats0).
Proof. reflexivity. Qed.

Example inversion_trigger :
  process_code blocks inversion_cfg
  = Some (mkCFG [ [if_nez 0]; [other_insn 1]; [other_insn 2]; [other_insn 3] ]
                [ Some (mkEdge 0 EDGE_GOTO 2); Some (mkEdge 0 EDGE_BRANCH 1);
                  Some (mkEdge 3 EDGE_GOTO 1) ],
          mkStats 0 0 1).
Proof. reflexivity. Qed.

Example inversion_non_trigger :
  process_code blocks no_inversion_cfg = Some (no_inversion_cfg, stats0).
Proof. reflexivity. Qed.

Example malformed_aborts : process_code blocks malformed_cfg = None.
Proof. reflexivity. Qed.

(** The layout of [stale_order_cfg] before and after the first turn of
    the loop. *)
Example stale_order_layout :
  layout_entered stale_order_cfg = [0; 1; 2; 3; 4; 5] /\
  layout_entered
    (fst (fst (iteration (layout_entered stale_order_cfg)
                 (stale_order_cfg, stats0))))
  = [0; 1; 3; 5; 2; 4].
Proof. split; reflexivity. Qed.

(** The two loops on [stale_order_cfg]: the code folds three edges, the
    loop that derives the order anew folds two. *)
Example stale_order_code :
  snd <$> process_code layout_entered stale_order_cfg = Some (mkStats 3 1 0).
Proof. reflexivity. Qed.

Example stale_order_fresh :
  snd <$> process_code_fresh layout_entered stale_order_cfg
  = Some (mkStats 2 1 0).
Proof. reflexivity. Qed.

(** A run of [fold_value_cfg] from block 1 with 7 in [r0], before the
    pass (two blocks are run) and after it (one block is run). *)
Example run_before_pass :
  run (fun _ regs (w : unit) => (regs, w)) 2 fold_value_cfg 1
      (fun r => if decide (r = 0) then 7%Z else 0%Z) ()
  = Some (Returned [7%Z] ()).
Proof. reflexivity. Qed.

Example run_after_pass :
  (fun r => run (fun _ regs (w : unit) => (regs, w)) 1 (fst r) 1
              (fun r => if decide (r = 0) then 7%Z else 0%Z) ())
    <$> process_code blocks fold_value_cfg
  = Some (Some (Returned [7%Z] ())).
Proof. reflexivity. Qed.

(** ** The statements on these graphs *)


Lemma inversion_iff_witness :
  exists cfg' stats',
    optimization1 (inversion_cfg, stats0) = Some (cfg', stats') /\
    stats' = mkStats 0 0 1 /\
    block_insns cfg' 0 = [if_nez 0] /\
    get_edge cfg' 0 = Some (mkEdge 0 EDGE_GOTO 2) /\
    get_edge cfg' 1 = Some (mkEdge 0 EDGE_BRANCH 1).
Proof.
  destruct (optimization1 (inversion_cfg, stats0)) as [[cfg' stats']|] eqn:H;
    [|vm_compute in H; discriminate].
  exists cfg', stats'. split; [reflexivity|].
  destruct (inversion_iff inversion_cfg cfg' stats' H) as [Hst Hb].
  split; [exact Hst|].
  destruct (Hb 0 0 1 (mkEdge 0 EDGE_GOTO 1) (mkEdge 0 EDGE_BRANCH 2)
              ltac:(vm_compute; lia) eq_refl eq_refl eq_refl eq_refl eq_refl)
    as (_ & Hinv & _).
  destruct (Hinv eq_refl) as (H1 & H2 & H3 & _).
  split; [exact H1|]. split; [exact H2|exact H3].
Defined.

Lemma trailing_move_elimination_witness :
  let st := mkScan fold_value_cfg stats0 false [] in
  let st' := fold_edge (Some 2) (return_insn 1) st 0 in
  block_insns (s_cfg st') 1 = [other_insn 1; return_insn 0] /\
  s_stats st' = mkStats 0 1 0 /\ s_rerun st' = true /\ s_del st' = [0].
Proof.
  destruct (trailing_move_elimination (Some 2) (return_insn 1)
              (mkScan fold_value_cfg stats0 false []) 0
              (mkEdge 1 EDGE_GOTO 3) eq_refl eq_refl) as [H _].
  exact (H (move_insn 1 0) ltac:(vm_compute; lia) eq_refl eq_refl eq_refl eq_refl).
Defined.

(** On [stale_order_cfg] a constant layout gives the result of
    [layout_entered]; and the rerun, whose graph [layout_entered] would lay
    out with block 1 just before block 3, visits block 3 with block 2 as
    the block before it, so that the edge from block 1 to block 3 is gone
    after the rerun. *)
Lemma order_taken_once_witness :
  process_code (fun _ => [0; 1; 2; 3; 4; 5]) stale_order_cfg
  = process_code layout_entered stale_order_cfg /\
  let first :=
    fst (iteration (layout_entered stale_order_cfg)
           (stale_order_cfg, stats0)) in
  layout_entered (fst first) = [0; 1; 3; 5; 2; 4] /\
  get_edge (fst (fst (iteration (layout_entered stale_order_cfg)
                        (fst first, snd first)))) 1 = None.
Proof.
  destruct (order_taken_once layout_entered stale_order_cfg stale_order_cfg
              stats0 eq_refl) as (_ & _ & H & _ & _ & Hcheck).
  split; [apply H; reflexivity|].
  intros first. split; [reflexivity|].
  destruct (Hcheck (fst first) (snd first) [0; 1; 2] 3 [4; 5] (return_insn 0)
              [] 1 [] (mkEdge 1 EDGE_GOTO 3) eq_refl eq_refl eq_refl eq_refl
              eq_refl eq_refl eq_refl) as [Hgone _].
  apply Hgone. vm_compute. discriminate.
Defined.

Lemma fold_loop_terminates_witness :
  exists r,
    fold_loop 2 (layout_entered stale_order_cfg) (stale_order_cfg, stats0)
    = Some r /\
    fold_loop 7 (layout_entered stale_order_cfg) (stale_order_cfg, stats0)
    = Some r.
Proof.
  destruct (fold_loop_terminates (layout_entered stale_order_cfg)
              stale_order_cfg stats0) as (_ & _ & r & H & _).
  exists r. split; apply H; vm_compute; lia.
Defined.

Lemma edge_invariant_inversion_cfg : edge_invariant inversion_cfg.
Proof.
  intros b Hb Hbr. destruct b as [|[|[|[|b]]]];
    try (vm_compute in Hbr; discriminate).
  vm_compute. split; reflexivity.
Defined.

Lemma edge_invariant_preserved_witness :
  exists cfg' stats',
    process_code layout_entered inversion_cfg = Some (cfg', stats') /\
    edge_invariant cfg'.
Proof.
  exact (edge_invariant_preserved layout_entered inversion_cfg
           edge_invariant_inversion_cfg).
Defined.

Lemma optimization1_idempotent_witness :
  exists cfg' stats',
    optimization1 (inversion_cfg, stats0) = Some (cfg', stats') /\
    inverts cfg' 0 = false /\
    optimization1 (cfg', stats0) = Some (cfg', stats0).
Proof.
  destruct (optimization1 (inversion_cfg, stats0)) as [[cfg' stats']|] eqn:H;
    [|vm_compute in H; discriminate].
  exists cfg', stats'. split; [reflexivity|].
  destruct (optimization1_idempotent inversion_cfg cfg' stats' H) as [H1 H2].
  split; [|apply H2].
  apply H1. vm_compute in H. injection H as <- _. simpl. lia.
Defined.

Lemma missing_edge_is_fatal_witness :
  process_code layout_entered malformed_cfg = None /\
  exists r, process_code layout_entered inversion_cfg = Some r.
Proof.
  split.
  - destruct (missing_edge_is_fatal layout_entered malformed_cfg) as [H _].
    apply (H 0); [simpl; lia|reflexivity|right; reflexivity].
  - destruct (missing_edge_is_fatal layout_entered inversion_cfg) as [_ H].
    apply H. intros b Hb Hbr. destruct b as [|[|[|[|b]]]];
      try (vm_compute in Hbr; discriminate).
    split; eexists; reflexivity.
Defined.

Lemma moves_le_gotos_witness :
  exists cfg' stats',
    process_code layout_entered stale_order_cfg = Some (cfg', stats') /\
    removed_trailing_moves stats' <= replaced_gotos_with_returns stats'.
Proof.
  destruct (process_code layout_entered stale_order_cfg)
    as [[cfg' stats']|] eqn:H; [|vm_compute in H; discriminate].
  exists cfg', stats'. split; [reflexivity|].
  exact (moves_le_gotos layout_entered stale_order_cfg cfg' stats' H).
Defined.

Lemma structured_fold_value_cfg : structured fold_value_cfg.
Proof.
  constructor.
  - intros b. unfold succs_of_type, is_succ_of_type; simpl.
    repeat case_bool_decide; simpl; lia.
  - intros b. destruct b as [|[|[|[|b]]]]; simpl; repeat constructor.
  - intros b. destruct b as [|[|[|[|b]]]]; simpl; repeat constructor;
      simpl; intros; try discriminate; lia.
  - intros b t. destruct b as [|[|[|[|b]]]]; simpl; try lia.
    intros H. destruct H. unfold succs_of_type, is_succ_of_type; simpl.
    repeat case_bool_decide; simpl; try done; lia.
Defined.

(** Entered at block 1 with [r0] holding 7, the method returns 7 before
    and after the pass, whatever the other instructions do. *)
Lemma semantic_equivalence_witness :
  let exec_other (_ : IRInstruction) (regs : Regs) (w : unit) := (regs, w) in
  let regs : Regs := fun r => if decide (r = 0) then 7%Z else 0%Z in
  exists cfg' stats',
    process_code layout_entered fold_value_cfg = Some (cfg', stats') /\
    (behaves exec_other fold_value_cfg 1 regs () (Returned [7%Z] ()) <->
     behaves exec_other cfg' 1 regs () (Returned [7%Z] ())).
Proof.
  intros exec_other regs.
  destruct (process_code layout_entered fold_value_cfg)
    as [[cfg' stats']|] eqn:H; [|vm_compute in H; discriminate].
  exists cfg', stats'. split; [reflexivity|].
  exact (semantic_equivalence exec_other layout_entered fold_value_cfg cfg'
           stats' structured_fold_value_cfg H 1 regs () (Returned [7%Z] ())).
Defined.

(** * Further properties of the pass *)

(** ** Blocks and edges are neither created nor lost *)

Lemma edge_fate_refl cfg i : edge_fate cfg cfg i.
Proof.
  unfold edge_fate. destruct (get_edge cfg i) as [e|] eqn:He; [|done].
  right. by exists e.
Qed.

Lemma edge_fate_trans cfg1 cfg2 cfg3 i :
  edge_fate cfg1 cfg2 i -> edge_fate cfg2 cfg3 i -> edge_fate cfg1 cfg3 i.
Proof.
  unfold edge_fate. destruct (get_edge cfg1 i) as [e|].
  - intros [[H2 Ht]|(e' & H2 & Hs & Ht & Hk)]; rewrite H2.
    + intros H3. by left.
    + intros [[H3 Ht']|(e'' & H3 & Hs' & Ht' & Hk')].
      * left. split; [done|congruence].
      * right. exists e''. split; [done|]. split; [congruence|].
        split; [congruence|]. intros Hg Hb.
        rewrite Hk', Hk; [done|done|done|congruence|congruence].
  - intros ->. done.
Qed.

Lemma arena_kept_refl cfg : arena_kept cfg cfg.
Proof. constructor; try done. intros i. apply edge_fate_refl. Qed.

Lemma arena_kept_trans cfg1 cfg2 cfg3 :
  arena_kept cfg1 cfg2 -> arena_kept cfg2 cfg3 -> arena_kept cfg1 cfg3.
Proof.
  intros [A1 A2 A3] [B1 B2 B3]. constructor; try congruence.
  intros i. by eapply edge_fate_trans.
Qed.

Lemma arena_kept_invert_block b cfg st cfg' st' :
  invert_block b (cfg, st) = Some (cfg', st') -> arena_kept cfg cfg'.
Proof.
  intros [[_ [= -> ->]]|(gi & bi & ge & be & _ & Hgi & Hge & Hbi & Hbe & [= -> ->])]
    %invert_block_cases; [apply arena_kept_refl|].
  pose proof (goto_branch_distinct _ _ _ _ Hgi Hbi) as Hne.
  destruct (get_succ_edge_of_type_Some _ _ _ _ Hgi) as (ge' & Hge' & _ & Hgt).
  destruct (get_succ_edge_of_type_Some _ _ _ _ Hbi) as (be' & Hbe' & _ & Hbt).
  assert (ge' = ge) as -> by congruence. assert (be' = be) as -> by congruence.
  constructor.
  - unfold invert_and_swap; simpl. apply length_alter.
  - unfold invert_and_swap; simpl. by rewrite !length_alter.
  - intros i. unfold edge_fate.
    rewrite get_edge_invert_and_swap by done.
    destruct (decide (i = gi)) as [->|Hig].
    { rewrite Hge. right. eexists. split; [done|]. simpl. tauto. }
    destruct (decide (i = bi)) as [->|Hib].
    { rewrite Hbe. right. eexists. split; [done|]. simpl. tauto. }
    destruct (get_edge cfg i) as [e|]; [|done]. right. by exists e.
Qed.

Lemma arena_kept_invert_blocks bs :
  forall cfg st cfg' st',
    invert_blocks bs (cfg, st) = Some (cfg', st') -> arena_kept cfg cfg'.
Proof.
  induction bs as [|b bs IH]; intros cfg st cfg' st'; simpl.
  - intros [= -> ->]. apply arena_kept_refl.
  - destruct (invert_block b (cfg, st)) as [[cfg1 st1]|] eqn:H0; [|done].
    intros Hrest. eapply arena_kept_trans.
    + by eapply arena_kept_invert_block.
    + by eapply IH.
Qed.

(** During a scan the arena is as at its start and the queue holds goto
    edges only. *)
Lemma scan_queue_gotos prev order cfg stats :
  let s := scan prev order (mkScan cfg stats false []) in
  length (cfg_blocks (s_cfg s)) = length (cfg_blocks cfg) /\
  cfg_edges (s_cfg s) = cfg_edges cfg /\
  forall i, i ∈ s_del s ->
            exists e, get_edge cfg i = Some e /\ e_type e = EDGE_GOTO.
Proof.
  apply (scan_ind (fun s =>
    length (cfg_blocks (s_cfg s)) = length (cfg_blocks cfg) /\
    cfg_edges (s_cfg s) = cfg_edges cfg /\
    forall i, i ∈ s_del s ->
              exists e, get_edge cfg i = Some e /\ e_type e = EDGE_GOTO)).
  2:{ simpl. split; [done|]. split; [done|]. by intros i ?%elem_of_nil. }
  intros prev' mie st ei e (I1 & I2 & I3) He Ht Hr _.
  rewrite fold_edge_length, fold_edge_edges.
  split; [done|]. split; [done|].
  destruct (fold_edge_effect prev' mie st ei Hr)
    as [->|(e' & He' & Ht' & Hdel & _)]; [done|].
  intros i. rewrite Hdel.
  intros [Hi| ->%list_elem_of_singleton]%elem_of_app; [by apply I3|].
  exists e. split; [|done]. unfold get_edge in *. by rewrite <- I2.
Qed.

Lemma length_edges_delete_edges del cfg stats :
  length (cfg_edges (fst (delete_edges del (cfg, stats))))
  = length (cfg_edges cfg).
Proof.
  revert cfg stats. unfold delete_edges.
  induction del as [|e del IH]; intros cfg stats; simpl; [done|].
  rewrite IH. simpl. apply length_insert.
Qed.

Lemma arena_kept_iteration order cfg stats :
  arena_kept cfg (fst (fst (iteration order (cfg, stats)))).
Proof.
  unfold iteration; simpl.
  destruct (scan_queue_gotos None order cfg stats) as (S1 & S2 & S3).
  set (s := scan None order (mkScan cfg stats false [])) in *.
  destruct (delete_edges_spec (s_del s) (s_cfg s) (s_stats s))
    as (D1 & D2 & _).
  constructor.
  - by rewrite D1.
  - by rewrite length_edges_delete_edges, S2.
  - intros i. unfold edge_fate. rewrite D2.
    assert (get_edge (s_cfg s) i = get_edge cfg i) as ->.
    { unfold get_edge. by rewrite S2. }
    destruct (get_edge cfg i) as [e|] eqn:He; [|by case_decide].
    case_decide as Hd.
    + left. split; [done|]. destruct (S3 i Hd) as (e' & He' & Ht).
      congruence.
    + right. by exists e.
Qed.

Lemma arena_kept_fold_loop order fuel :
  forall cfg stats cfg' stats',
    fold_loop fuel order (cfg, stats) = Some (cfg', stats') ->
    arena_kept cfg cfg'.
Proof.
  induction fuel as [|fuel IH]; intros cfg stats cfg' stats'; [done|].
  rewrite fold_loop_S.
  pose proof (arena_kept_iteration order cfg stats) as Hit.
  destruct (iteration order (cfg, stats)) as [[cfg1 st1] rerun].
  simpl in *. destruct rerun.
  - intros Hl. eapply arena_kept_trans; [done|]. by eapply IH.
  - by intros [= <- <-].
Qed.

(** X1. The pass keeps the arena of the graph: it adds and removes no block
    and no edge slot; an edge of the input is, in the output, either
    deleted, and then it was a goto edge, or at the same slot with the same
    source and the same type, and with the same target unless it is a goto
    or a branch edge; an empty slot stays empty. *)
Theorem pass_keeps_arena order cfg cfg' stats' :
  process_code order cfg = Some (cfg', stats') ->
  length (cfg_blocks cfg') = length (cfg_blocks cfg) /\
  length (cfg_edges cfg') = length (cfg_edges cfg) /\
  forall i,
    match get_edge cfg i with
    | None => get_edge cfg' i = None
    | Some e =>
        (get_edge cfg' i = None /\ e_type e = EDGE_GOTO) \/
        (exists e', get_edge cfg' i = Some e' /\
                    e_src e' = e_src e /\ e_type e' = e_type e /\
                    (e_type e <> EDGE_GOTO -> e_type e <> EDGE_BRANCH ->
                     e_target e' = e_target e))
    end.
Proof.
  intros ([cfg1 st1] & H1 & H2)%process_code_Some.
  assert (arena_kept cfg cfg') as [A1 A2 A3]; [|done].
  eapply arena_kept_trans.
  - unfold optimization1 in H1. by eapply arena_kept_invert_blocks.
  - unfold optimization2 in H2. by eapply arena_kept_fold_loop.
Qed.

(** ** The counters are exact *)

Lemma sum_list_blockwise (f : list IRInstruction -> nat) :
  forall l1 l2 : list (list IRInstruction),
    length l1 = length l2 ->
    (forall i, f (default [] (l1 !! i)) = f (default [] (l2 !! i))) ->
    sum_list (map f l1) = sum_list (map f l2).
Proof.
  induction l1 as [|x l1 IH]; intros [|y l2] Hlen Hf; simpl in *; try done.
  rewrite (IH l2); [|lia|intros i; apply (Hf (S i))].
  pose proof (Hf 0) as H0. simpl in H0. lia.
Qed.

Lemma inverts_oob cfg b :
  length (cfg_blocks cfg) <= b -> inverts cfg b = false.
Proof. intros Hb. unfold inverts. by rewrite branchingness_oob. Qed.

(** The blocks after Optimization 1. *)
Lemma optimization1_blocks cfg st cfg1 st1 :
  optimization1 (cfg, st) = Some (cfg1, st1) ->
  length (cfg_blocks cfg1) = length (cfg_blocks cfg) /\
  forall b, block_insns cfg1 b
            = if inverts cfg b then map_last invert_insn (block_insns cfg b)
              else block_insns cfg b.
Proof.
  intros Hrun. unfold optimization1 in Hrun; simpl in Hrun.
  destruct (invert_blocks_spec _ (NoDup_seq _ _) _ _ _ _ Hrun)
    as ([S1 _ _ _] & Hout & Hin & _).
  split; [done|]. intros b.
  destruct (decide (b ∈ blocks cfg)) as [Hb|Hb].
  - specialize (Hin b Hb). destruct (inverts cfg b).
    + by destruct Hin as (? & ? & ? & ? & _ & _ & _ & _ & ? & _).
    + by destruct Hin.
  - rewrite inverts_oob.
    + by destruct (Hout b Hb).
    + unfold blocks in Hb. rewrite elem_of_seq in Hb. lia.
Qed.

Lemma is_move_invert op : is_move (invert_conditional_branch op) = is_move op.
Proof. by destruct op. Qed.

Lemma is_return_invert op :
  is_return (invert_conditional_branch op) = is_return op.
Proof. by destruct op. Qed.

Lemma count_moves_block_map_last_invert l :
  count_moves_block (map_last invert_insn l) = count_moves_block l.
Proof.
  unfold map_last. destruct (last l) as [i|] eqn:Hl; [|done].
  apply last_Some in Hl as [l' ->].
  rewrite removelast_last, !count_moves_block_snoc.
  unfold invert_insn; simpl. by rewrite is_move_invert.
Qed.

Lemma length_map_last {A} (f : A -> A) (l : list A) :
  length (match last l with
          | Some i => removelast l ++ [f i]
          | None => l
          end) = length l.
Proof.
  destruct (last l) as [i|] eqn:Hl; [|done].
  apply last_Some in Hl as [l' ->]. by rewrite removelast_last, !length_app.
Qed.

Lemma optimization1_counts cfg st cfg1 st1 :
  optimization1 (cfg, st) = Some (cfg1, st1) ->
  count_moves cfg1 = count_moves cfg /\ count_insns cfg1 = count_insns cfg.
Proof.
  intros (Hlen & Hbl)%optimization1_blocks.
  unfold count_moves, count_insns. split.
  - apply sum_list_blockwise; [done|]. intros b.
    specialize (Hbl b). unfold block_insns in Hbl. rewrite Hbl.
    destruct (inverts cfg b); [|done].
    apply count_moves_block_map_last_invert.
  - apply sum_list_blockwise; [done|]. intros b.
    specialize (Hbl b). unfold block_insns in Hbl. rewrite Hbl.
    destruct (inverts cfg b); [|done]. apply length_map_last.
Qed.

Lemma optimization1_stats cfg cfg1 st1 :
  optimization1 (cfg, stats0) = Some (cfg1, st1) ->
  replaced_gotos_with_returns st1 = 0 /\ removed_trailing_moves st1 = 0.
Proof.
  intros Hrun. unfold optimization1 in Hrun; simpl in Hrun.
  destruct (invert_blocks_spec _ (NoDup_seq _ _) _ _ _ _ Hrun)
    as (_ & _ & _ & ->). done.
Qed.

(** X2. The counter of trailing moves removed is the number of move
    instructions that the pass took out of the graph: the moves left and
    the moves counted add up to the moves of the input. *)
Theorem removed_moves_exact order cfg cfg' stats' :
  process_code order cfg = Some (cfg', stats') ->
  count_moves cfg' + removed_trailing_moves stats' = count_moves cfg.
Proof.
  intros ([cfg1 st1] & H1 & H2)%process_code_Some.
  destruct (optimization1_counts _ _ _ _ H1) as [Hm _].
  destruct (optimization1_stats _ _ _ H1) as [_ Hr].
  unfold optimization2 in H2.
  destruct (fold_loop_counts (order cfg1) (S (count_moves cfg1)) cfg1 st1
              ltac:(lia)) as (cfg2 & st2 & Hl & Hc & _).
  change (fst (cfg1, st1)) with cfg1 in H2. rewrite Hl in H2.
  simplify_eq. lia.
Qed.

Lemma count_insns_update f b cfg :
  b < length (cfg_blocks cfg) ->
  count_insns (update_block f b cfg) + length (block_insns cfg b)
  = count_insns cfg + length (f (block_insns cfg b)).
Proof.
  intros Hb. unfold count_insns, update_block, block_insns; simpl.
  destruct (lookup_lt_is_Some_2 _ _ Hb) as [l Hl]. rewrite Hl; simpl.
  by apply (sum_list_alter length).
Qed.

Lemma count_insns_push_back s x cfg :
  s < length (cfg_blocks cfg) ->
  count_insns (push_back s x cfg) = S (count_insns cfg).
Proof.
  intros Hs. pose proof (count_insns_update (fun l => l ++ [x]) s cfg Hs) as H.
  cbv beta in H. rewrite length_app in H. simpl in H. unfold push_back. lia.
Qed.

Lemma count_insns_remove_last s i cfg :
  get_last_insn cfg s = Some i ->
  count_insns cfg = S (count_insns (remove_last_insn s cfg)).
Proof.
  intros Hl. pose proof (get_last_insn_in_range _ _ _ Hl) as Hs.
  pose proof (count_insns_update (fun l => removelast l) s cfg Hs) as H.
  cbv beta in H. unfold get_last_insn in Hl.
  apply last_Some in Hl as [l' Hl]. rewrite Hl in H.
  rewrite removelast_last, length_app in H. simpl in H.
  unfold remove_last_insn. lia.
Qed.

Lemma sources_exist_same_edges cfg cfg' :
  cfg_edges cfg' = cfg_edges cfg ->
  length (cfg_blocks cfg') = length (cfg_blocks cfg) ->
  sources_exist cfg -> sources_exist cfg'.
Proof.
  intros He Hl Hs b t. unfold succs_of_type. rewrite He, Hl. apply Hs.
Qed.

(** During a scan every queued edge stands for one instruction more in the
    graph, and every move counted for one instruction less. *)
Lemma scan_insns prev order cfg stats :
  sources_exist cfg ->
  let s := scan prev order (mkScan cfg stats false []) in
  count_insns (s_cfg s) + removed_trailing_moves (s_stats s)
  = count_insns cfg + removed_trailing_moves stats + length (s_del s).
Proof.
  intros Hsrc.
  apply (scan_ind (fun s =>
    (length (cfg_blocks (s_cfg s)) = length (cfg_blocks cfg) /\
     cfg_edges (s_cfg s) = cfg_edges cfg) /\
    count_insns (s_cfg s) + removed_trailing_moves (s_stats s)
    = count_insns cfg + removed_trailing_moves stats + length (s_del s)));
    [|simpl; split; [done|lia]].
  intros prev' mie st ei e ([I1 I2] & I3) He Ht Hr _.
  split; [by rewrite fold_edge_length, fold_edge_edges|].
  assert (e_src e < length (cfg_blocks (s_cfg st))) as Hin.
  { apply (source_in_range _ ei); [|done].
    by apply (sources_exist_same_edges cfg). }
  destruct (fold_edge_step prev' mie st ei)
    as [|e' mv He' _ Hm| |e' He' _ Hm Hp]; try done.
  - assert (e' = e) as -> by congruence.
    apply find_trailing_move_Some in Hm as (_ & Hl & _).
    pose proof (count_insns_remove_last _ _ _ Hl) as Hc. simpl.
    rewrite count_insns_push_back
      by (unfold remove_last_insn; by rewrite length_blocks_update).
    rewrite length_app. simpl. lia.
  - assert (e' = e) as -> by congruence. simpl.
    rewrite count_insns_push_back by done. rewrite length_app. simpl. lia.
Qed.

Lemma sources_exist_iteration order cfg stats :
  sources_exist cfg ->
  sources_exist (fst (fst (iteration order (cfg, stats)))).
Proof.
  intros Hs. unfold iteration; simpl.
  destruct (scan_queue_gotos None order cfg stats) as (S1 & S2 & _).
  set (s := scan None order (mkScan cfg stats false [])) in *.
  destruct (delete_edges_spec (s_del s) (s_cfg s) (s_stats s)) as (D1 & _).
  intros b t Hne. rewrite D1, S1. apply (Hs b t). intros Hnil.
  apply Hne. unfold succs_of_type in *.
  by rewrite find_edges_delete_edges, S2, Hnil.
Qed.

Lemma iteration_insns order cfg stats cfg' stats' rerun :
  sources_exist cfg ->
  iteration order (cfg, stats) = (cfg', stats', rerun) ->
  count_insns cfg' + removed_trailing_moves stats'
  + replaced_gotos_with_returns stats
  = count_insns cfg + removed_trailing_moves stats
    + replaced_gotos_with_returns stats'.
Proof.
  intros Hs. pose proof (scan_insns None order cfg stats Hs) as Hscan.
  unfold iteration; simpl. simpl in Hscan.
  set (s := scan None order (mkScan cfg stats false [])) in *.
  destruct (delete_edges_spec (s_del s) (s_cfg s) (s_stats s))
    as (D1 & _ & D3).
  pose proof (scan_progress_scan None order (mkScan cfg stats false []))
    as [_ _ _ _ P5 _]. fold s in P5. simpl in *.
  intros [= Hr <-]. rewrite Hr in *. simpl in *. subst stats'. simpl.
  assert (count_insns cfg' = count_insns (s_cfg s)) as ->.
  { unfold count_insns. by rewrite D1. }
  lia.
Qed.

Lemma fold_loop_insns order fuel :
  forall cfg stats cfg' stats',
    sources_exist cfg ->
    fold_loop fuel order (cfg, stats) = Some (cfg', stats') ->
    count_insns cfg' + removed_trailing_moves stats'
    + replaced_gotos_with_returns stats
    = count_insns cfg + removed_trailing_moves stats
      + replaced_gotos_with_returns stats'.
Proof.
  induction fuel as [|fuel IH]; intros cfg stats cfg' stats' Hs; [done|].
  rewrite fold_loop_S.
  pose proof (sources_exist_iteration order cfg stats Hs) as Hs1.
  destruct (iteration order (cfg, stats)) as [[cfg1 st1] rerun] eqn:Hit.
  pose proof (iteration_insns _ _ _ _ _ _ Hs Hit) as H1.
  simpl in *. destruct rerun.
  - intros Hl. pose proof (IH _ _ _ _ Hs1 Hl). lia.
  - intros [= <- <-]. done.
Qed.

Lemma sources_exist_optimization1 cfg st cfg1 st1 :
  sources_exist cfg -> optimization1 (cfg, st) = Some (cfg1, st1) ->
  sources_exist cfg1.
Proof.
  intros Hs Hrun. unfold optimization1 in Hrun; simpl in Hrun.
  destruct (invert_blocks_spec _ (NoDup_seq _ _) _ _ _ _ Hrun)
    as ([S1 S2 _ _] & _).
  intros b t. rewrite S2, S1. apply Hs.
Qed.

(** X3. On a graph whose edges leave blocks of the graph, the pass adds one
    instruction for every goto it counts as replaced and takes one out for
    every move it counts as removed, and changes the number of instructions
    in no other way. *)
Theorem instruction_count_exact order cfg cfg' stats' :
  sources_exist cfg ->
  process_code order cfg = Some (cfg', stats') ->
  count_insns cfg' + removed_trailing_moves stats'
  = count_insns cfg + replaced_gotos_with_returns stats'.
Proof.
  intros Hs ([cfg1 st1] & H1 & H2)%process_code_Some.
  destruct (optimization1_counts _ _ _ _ H1) as [_ Hi].
  destruct (optimization1_stats _ _ _ H1) as [Hg Hr].
  pose proof (sources_exist_optimization1 _ _ _ _ Hs H1) as Hs1.
  unfold optimization2 in H2.
  pose proof (fold_loop_insns _ _ _ _ _ _ Hs1 H2). lia.
Qed.

(** With an order that lists no block twice, no edge is queued twice. *)
Lemma scan_del_NoDup order :
  forall prev st,
    NoDup order -> NoDup (s_del st) ->
    (forall i e, i ∈ s_del st -> get_edge (s_cfg st) i = Some e ->
                 e_target e ∉ order) ->
    NoDup (s_del (scan prev order st)).
Proof.
  induction order as [|b order IH]; intros prev st Hnd Hdel Htgt; simpl;
    [done|].
  apply NoDup_cons in Hnd as [Hb Hnd].
  destruct (process_block_del prev b st) as (He & sub & Hd & Hsub).
  assert (forall i, i ∈ sub ->
            exists e, get_edge (s_cfg st) i = Some e /\ e_target e = b)
    as Hpreds.
  { intros i Hi. apply elem_of_preds. by apply (sublist_subseteq _ _ Hsub). }
  apply IH; [done| |].
  - rewrite Hd. apply NoDup_app. split; [done|]. split.
    + intros i Hi Hi'. destruct (Hpreds i Hi') as (e & Hge & Ht).
      apply (Htgt i e Hi Hge). rewrite Ht. by left.
    + eapply sublist_NoDup; [apply NoDup_find_edges|exact Hsub].
  - intros i e. rewrite Hd. unfold get_edge. rewrite He.
    fold (get_edge (s_cfg st) i).
    intros [Hi|Hi]%elem_of_app Hge.
    + intros Hin. apply (Htgt i e Hi Hge). by right.
    + destruct (Hpreds i Hi) as (e' & Hge' & Ht).
      assert (e' = e) as -> by congruence. by rewrite Ht.
Qed.

Lemma length_filter_not_in (del l : list nat) :
  NoDup del -> NoDup l -> (forall i, i ∈ del -> i ∈ l) ->
  length (filter (fun j => j ∉ del) l) + length del = length l.
Proof.
  intros Hd Hl Hsub.
  pose proof (filter_app_complement (fun j => j ∈ del) l) as Hp.
  apply Permutation_length in Hp. rewrite length_app in Hp.
  assert (filter (fun j => j ∈ del) l ≡ₚ del) as Hq.
  { apply NoDup_Permutation; [by apply NoDup_filter|done|].
    intros x. rewrite list_elem_of_filter. naive_solver. }
  apply Permutation_length in Hq. lia.
Qed.

Lemma iteration_edges order cfg stats cfg' stats' rerun :
  NoDup order ->
  iteration order (cfg, stats) = (cfg', stats', rerun) ->
  count_edges cfg' + replaced_gotos_with_returns stats'
  = count_edges cfg + replaced_gotos_with_returns stats.
Proof.
  intros Hnd. unfold iteration; simpl.
  destruct (scan_queue_gotos None order cfg stats) as (S1 & S2 & S3).
  pose proof (scan_del_NoDup order None (mkScan cfg stats false []) Hnd
                (NoDup_nil_2) ltac:(by intros i e ?%elem_of_nil)) as Hq.
  pose proof (scan_progress_scan None order (mkScan cfg stats false []))
    as [_ _ _ _ P5 _].
  set (s := scan None order (mkScan cfg stats false [])) in *.
  destruct (delete_edges_spec (s_del s) (s_cfg s) (s_stats s))
    as (_ & _ & D3).
  intros [= Hr <-]. simpl in *.
  assert (count_edges cfg' + length (s_del s) = count_edges cfg) as Hc.
  { assert (cfg' = fst (delete_edges (s_del s) (s_cfg s, s_stats s))) as ->
        by by rewrite Hr.
    unfold count_edges.
    rewrite (find_edges_delete_edges _ (s_del s) (s_cfg s) (s_stats s)), S2.
    apply length_filter_not_in; [done|apply NoDup_find_edges|].
    intros i Hi. destruct (S3 i Hi) as (e & He & _).
    apply elem_of_find_edges. split; [lia|]. exists e.
    rewrite Nat.sub_0_r. split; [by apply get_edge_Some|done]. }
  rewrite Hr in D3. simpl in D3. subst stats'. simpl. lia.
Qed.

Lemma fold_loop_edges order fuel :
  NoDup order ->
  forall cfg stats cfg' stats',
    fold_loop fuel order (cfg, stats) = Some (cfg', stats') ->
    count_edges cfg' + replaced_gotos_with_returns stats'
    = count_edges cfg + replaced_gotos_with_returns stats.
Proof.
  intros Hnd.
  induction fuel as [|fuel IH]; intros cfg stats cfg' stats'; [done|].
  rewrite fold_loop_S.
  destruct (iteration order (cfg, stats)) as [[cfg1 st1] rerun] eqn:Hit.
  pose proof (iteration_edges _ _ _ _ _ _ Hnd Hit) as H1.
  simpl in *. destruct rerun.
  - intros Hl. pose proof (IH _ _ _ _ Hl). lia.
  - intros [= <- <-]. done.
Qed.

Lemma count_edges_invert_blocks bs :
  forall cfg st cfg' st',
    invert_blocks bs (cfg, st) = Some (cfg', st') ->
    count_edges cfg' = count_edges cfg.
Proof.
  induction bs as [|b bs IH]; intros cfg st cfg' st'; simpl.
  - by intros [= -> ->].
  - destruct (invert_block b (cfg, st)) as [[cfg1 st1]|] eqn:H0; [|done].
    intros Hrest. rewrite (IH _ _ _ _ Hrest).
    apply invert_block_cases in H0
      as [[_ [= -> ->]]|(gi & bi & ge & be & _ & _ & _ & _ & _ & [= -> ->])];
      [done|].
    unfold count_edges, invert_and_swap; simpl.
    by rewrite !find_edges_alter_inv.
Qed.

(** X4. With a block order that lists no block twice, the counter of gotos
    replaced with returns is the number of edges that the pass deleted: the
    edges left and the gotos counted add up to the edges of the input. *)
Theorem replaced_gotos_exact order cfg cfg' stats' :
  (forall c, NoDup (order c)) ->
  process_code order cfg = Some (cfg', stats') ->
  count_edges cfg' + replaced_gotos_with_returns stats' = count_edges cfg.
Proof.
  intros Hnd ([cfg1 st1] & H1 & H2)%process_code_Some.
  destruct (optimization1_stats _ _ _ H1) as [Hg _].
  unfold optimization1 in H1.
  pose proof (count_edges_invert_blocks _ _ _ _ _ H1) as Hc. simpl in Hc.
  unfold optimization2 in H2.
  pose proof (fold_loop_edges _ _ (Hnd _) _ _ _ _ H2). simpl in *. lia.
Qed.

(** ** The counters tell whether the graph was changed *)

(** A scan that queues nothing changes nothing. *)
Lemma scan_unchanged prev order st :
  s_del (scan prev order st) = s_del st -> scan prev order st = st.
Proof.
  assert (scan prev order st = st \/
          length (s_del st) < length (s_del (scan prev order st))) as [->|Hlt].
  { apply (scan_ind (fun s => s = st \/ length (s_del st) < length (s_del s)));
      [|by left].
    intros prev' mie s ei e HI _ _ _ _.
    destruct (fold_edge_step prev' mie s ei); simpl; try done;
      right; destruct HI as [->|HI]; rewrite length_app; simpl; lia. }
  - done.
  - intros Heq. rewrite Heq in Hlt. lia.
Qed.

Lemma iteration_replaced order cfg stats cfg1 st1 rerun :
  iteration order (cfg, stats) = (cfg1, st1, rerun) ->
  replaced_gotos_with_returns st1
  = replaced_gotos_with_returns stats
    + length (s_del (scan None order (mkScan cfg stats false []))).
Proof.
  unfold iteration; simpl.
  set (s := scan None order (mkScan cfg stats false [])).
  destruct (delete_edges_spec (s_del s) (s_cfg s) (s_stats s))
    as (_ & _ & D3).
  pose proof (scan_progress_scan None order (mkScan cfg stats false []))
    as [_ _ _ _ P5 _]. fold s in P5. simpl in *.
  intros [= Hr _]. rewrite Hr in D3. simpl in D3. subst st1. simpl. lia.
Qed.

Lemma fold_loop_replaced_mono order fuel :
  forall cfg stats cfg' stats',
    fold_loop fuel order (cfg, stats) = Some (cfg', stats') ->
    replaced_gotos_with_returns stats <= replaced_gotos_with_returns stats'.
Proof.
  induction fuel as [|fuel IH]; intros cfg stats cfg' stats'; [done|].
  rewrite fold_loop_S.
  destruct (iteration order (cfg, stats)) as [[cfg1 st1] rerun] eqn:Hit.
  pose proof (iteration_replaced _ _ _ _ _ _ Hit) as Hr.
  simpl. destruct rerun.
  - intros Hl. pose proof (IH _ _ _ _ Hl). lia.
  - intros [= <- <-]. lia.
Qed.

(** A loop that replaces no goto returns the graph it was given. *)
Lemma fold_loop_nothing_replaced order fuel cfg stats cfg' stats' :
  fold_loop fuel order (cfg, stats) = Some (cfg', stats') ->
  replaced_gotos_with_returns stats' = replaced_gotos_with_returns stats ->
  cfg' = cfg /\ stats' = stats.
Proof.
  destruct fuel as [|fuel]; [done|]. rewrite fold_loop_S.
  assert (s_del (scan None order (mkScan cfg stats false [])) = [] ->
          iteration order (cfg, stats) = (cfg, stats, false)) as Hnil.
  { intros Hd. unfold iteration; simpl.
    rewrite (scan_unchanged None order (mkScan cfg stats false []) Hd).
    done. }
  destruct (iteration order (cfg, stats)) as [[cfg1 st1] rerun] eqn:Hit.
  pose proof (iteration_replaced _ _ _ _ _ _ Hit) as Hr.
  simpl. intros Hl Heq.
  assert (replaced_gotos_with_returns st1
          <= replaced_gotos_with_returns stats') as Hmono.
  { destruct rerun.
    - by eapply fold_loop_replaced_mono.
    - by simplify_eq. }
  destruct (s_del (scan None order (mkScan cfg stats false []))) as [|i l];
    [|simpl in Hr; lia].
  specialize (Hnil eq_refl). simplify_eq. done.
Qed.

(** The blocks that end in a conditional branch after the loop are as they
    were before it. *)
Lemma fold_loop_branch_blocks order fuel :
  forall cfg stats cfg' stats' b,
    fold_loop fuel order (cfg, stats) = Some (cfg', stats') ->
    branchingness_is_if cfg' b = true ->
    block_insns cfg' b = block_insns cfg b.
Proof.
  induction fuel as [|fuel IH]; intros cfg stats cfg' stats' b; [done|].
  rewrite fold_loop_S.
  assert (let cfg1 := fst (fst (iteration order (cfg, stats))) in
          branchingness_is_if cfg1 b = true ->
          block_insns cfg1 b = block_insns cfg b) as Hit.
  { unfold iteration; simpl.
    pose proof (scan_frame_scan None order cfg stats) as [_ _ F3 _].
    set (s := scan None order (mkScan cfg stats false [])) in *.
    destruct (delete_edges_spec (s_del s) (s_cfg s) (s_stats s))
      as (D1 & _).
    unfold branchingness_is_if, get_last_insn, block_insns in *.
    rewrite D1. apply F3. }
  destruct (iteration order (cfg, stats)) as [[cfg1 st1] rerun].
  simpl in *. destruct rerun.
  - intros Hl Hbr. pose proof (IH _ _ _ _ b Hl Hbr) as Heq.
    rewrite Heq. apply Hit.
    unfold branchingness_is_if, get_last_insn in *. by rewrite <- Heq.
  - intros [= <- <-]. apply Hit.
Qed.

Lemma invert_insn_neq i :
  is_conditional_branch (insn_opcode i) = true -> invert_insn i <> i.
Proof.
  intros Hc Heq. apply (f_equal insn_opcode) in Heq. simpl in Heq.
  by destruct (insn_opcode i).
Qed.

Lemma fold_loop_inverted order fuel :
  forall cfg stats cfg' stats',
    fold_loop fuel order (cfg, stats) = Some (cfg', stats') ->
    inverted_conditional_branches stats' = inverted_conditional_branches stats.
Proof.
  induction fuel as [|fuel IH]; intros cfg stats cfg' stats'; [done|].
  rewrite fold_loop_S.
  destruct (iteration order (cfg, stats)) as [[cfg1 st1] rerun] eqn:Hit.
  destruct (iteration_counts _ _ _ _ _ _ Hit) as (_ & _ & _ & _ & H5).
  simpl. destruct rerun.
  - intros Hl. rewrite (IH _ _ _ _ Hl). done.
  - by intros [= <- <-].
Qed.

(** X5. With a block order that lists no block twice, the statistics
    returned by the pass are all zero exactly when the graph returned is
    the graph given; that zero statistics come with an unchanged graph holds
    for every order. *)
Theorem zero_stats_iff_unchanged order cfg cfg' stats' :
  process_code order cfg = Some (cfg', stats') ->
  (stats' = stats0 -> cfg' = cfg) /\
  ((forall c, NoDup (order c)) -> cfg' = cfg -> stats' = stats0).
Proof.
  intros ([cfg1 st1] & H1 & H2)%process_code_Some.
  destruct (optimization1_stats _ _ _ H1) as [Hg1 Hr1].
  pose proof H1 as H1'. unfold optimization1 in H1'; simpl in H1'.
  destruct (invert_blocks_spec _ (NoDup_seq _ _) _ _ _ _ H1')
    as (_ & _ & Hin & Hst).
  unfold optimization2 in H2. change (fst (cfg1, st1)) with cfg1 in H2.
  pose proof (fold_loop_inverted _ _ _ _ _ _ H2) as Hinv.
  assert (inverted_conditional_branches st1
          = length (filter (fun b => inverts cfg b = true) (blocks cfg)))
    as Hst1 by by rewrite Hst.
  clear Hst. split.
  - intros ->.
    destruct (fold_loop_nothing_replaced _ _ _ _ _ _ H2) as [-> Hs];
      [simpl; lia|]. rewrite <- Hs in *.
    assert (length (filter (fun b => inverts cfg b = true) (blocks cfg)) = 0)
      as Hlen by by rewrite <- Hst1.
    assert (invert_blocks (blocks cfg) (cfg, stats0) = Some (cfg, stats0))
      as Hnoop; [|congruence].
    apply invert_blocks_noop.
    + intros b Hb. destruct (inverts cfg b) eqn:Hi; [|done].
      assert (b ∈ filter (fun b => inverts cfg b = true) (blocks cfg)) as Hf
          by by apply list_elem_of_filter.
      destruct (filter _ (blocks cfg)); [by apply elem_of_nil in Hf|].
      simpl in Hlen. lia.
    + intros b Hb. destruct (missing_edge cfg b) eqn:Hm; [|done].
      assert (optimization1 (cfg, stats0) = None) as Hn; [|congruence].
      apply optimization1_None. exists b. split; [|done].
      apply elem_of_seq in Hb. lia.
  - intros Hnd ->.
    pose proof (fold_loop_edges _ _ (Hnd cfg1) _ _ _ _ H2) as He.
    pose proof (count_edges_invert_blocks _ _ _ _ _ H1') as Hc.
    destruct (optimization1_counts _ _ _ _ H1) as [Hm _].
    destruct (fold_loop_counts (order cfg1) (S (count_moves cfg1)) cfg1 st1
                ltac:(lia)) as (cfg2 & st2 & Hl & Hcm & _).
    rewrite Hl in H2. simplify_eq.
    assert (inverted_conditional_branches stats' = 0) as Hi0.
    { rewrite Hinv, Hst1.
      destruct (filter (fun b => inverts cfg b = true) (blocks cfg))
        as [|b l] eqn:Hf; [done|]. exfalso.
      assert (b ∈ filter (fun b => inverts cfg b = true) (blocks cfg)) as Hb
          by (rewrite Hf; by left).
      apply list_elem_of_filter in Hb as [Hi Hb].
      specialize (Hin b Hb). rewrite Hi in Hin.
      destruct Hin as (_ & _ & _ & _ & _ & _ & _ & _ & Hbl & _).
      pose proof Hi as Hbr. unfold inverts in Hbr.
      apply andb_prop in Hbr as [Hbr _].
      pose proof (fold_loop_branch_blocks _ _ _ _ _ _ b Hl Hbr) as Heq.
      rewrite Hbl in Heq.
      unfold branchingness_is_if, get_last_insn in Hbr.
      destruct (last (block_insns cfg b)) as [i|] eqn:Hlast; [|done].
      apply last_Some in Hlast as [l' Hlast]. rewrite Hlast in Heq.
      rewrite map_last_snoc in Heq. apply app_inj_tail in Heq as [_ Heq].
      by apply (invert_insn_neq i). }
    destruct stats' as [g m i]. simpl in *. unfold stats0.
    f_equal; lia.
Qed.

(** ** What the pass takes out of a block and what it puts in *)

Lemma kept_insns_snoc_return l r :
  is_return (insn_opcode r) = true -> kept_insns (l ++ [r]) = kept_insns l.
Proof.
  intros Hr. unfold kept_insns. rewrite filter_app.
  rewrite filter_cons_False, filter_nil, app_nil_r; [done|].
  intros [_ Hn]. congruence.
Qed.

Lemma kept_insns_snoc_move l mv :
  is_move (insn_opcode mv) = true -> kept_insns (l ++ [mv]) = kept_insns l.
Proof.
  intros Hm. unfold kept_insns. rewrite filter_app.
  rewrite filter_cons_False, filter_nil, app_nil_r; [done|].
  intros [Hn _]. congruence.
Qed.

Lemma fold_edge_kept prev mie st ei b :
  is_return (insn_opcode mie) = true ->
  kept_insns (block_insns (s_cfg (fold_edge prev mie st ei)) b)
  = kept_insns (block_insns (s_cfg st) b).
Proof.
  intros Hr.
  destruct (fold_edge_step prev mie st ei)
    as [|e mv He Ht Hm| |e He Ht Hm Hp]; simpl; try done.
  - apply find_trailing_move_Some in Hm as (_ & Hl & Hmv & _).
    rewrite block_insns_fold_with_move by done. case_decide; [subst b|done].
    unfold get_last_insn in Hl. apply last_Some in Hl as [l' Hl].
    rewrite Hl, removelast_last.
    by rewrite kept_insns_snoc_return, kept_insns_snoc_move.
  - rewrite block_insns_push_back. case_decide; [|done].
    by rewrite kept_insns_snoc_return.
Qed.

Lemma iteration_kept order cfg stats b :
  kept_insns (block_insns (fst (fst (iteration order (cfg, stats)))) b)
  = kept_insns (block_insns cfg b).
Proof.
  unfold iteration; simpl.
  set (s := scan None order (mkScan cfg stats false [])).
  destruct (delete_edges_spec (s_del s) (s_cfg s) (s_stats s)) as (D1 & _).
  unfold block_insns at 1. rewrite D1. fold (block_insns (s_cfg s) b).
  subst s.
  apply (scan_ind (fun s => kept_insns (block_insns (s_cfg s) b)
                            = kept_insns (block_insns cfg b))); [|done].
  intros prev mie st ei e HI _ _ Hr _. by rewrite fold_edge_kept.
Qed.

Lemma fold_loop_kept order fuel :
  forall cfg stats cfg' stats' b,
    fold_loop fuel order (cfg, stats) = Some (cfg', stats') ->
    kept_insns (block_insns cfg' b) = kept_insns (block_insns cfg b).
Proof.
  induction fuel as [|fuel IH]; intros cfg stats cfg' stats' b; [done|].
  rewrite fold_loop_S.
  pose proof (iteration_kept order cfg stats b) as Hit.
  destruct (iteration order (cfg, stats)) as [[cfg1 st1] rerun].
  simpl in *. destruct rerun.
  - intros Hl. by rewrite (IH _ _ _ _ b Hl).
  - by intros [= <- <-].
Qed.

Lemma trimmed_refl l : trimmed l l.
Proof. exists l, [], []. by rewrite app_nil_r. Qed.

Lemma move_is_no_return i :
  is_move (insn_opcode i) = true -> is_return (insn_opcode i) = true -> False.
Proof. by destruct (insn_opcode i). Qed.

Lemma trimmed_trans l1 l2 l3 : trimmed l1 l2 -> trimmed l2 l3 -> trimmed l1 l3.
Proof.
  intros (p & ms & rs & -> & -> & Hms & Hrs)
         (p' & ms' & rs' & Heq & -> & Hms' & Hrs').
  destruct rs as [|r rs _] using rev_ind.
  - rewrite app_nil_r in Heq. subst p.
    exists p', (ms' ++ ms), rs'. rewrite <- app_assoc.
    split; [done|]. split; [done|]. split; [by apply Forall_app|done].
  - destruct ms' as [|m ms' _] using rev_ind.
    + rewrite app_nil_r in Heq. subst p'.
      exists p, ms, ((rs ++ [r]) ++ rs'). rewrite <- !app_assoc.
      split; [done|]. split; [done|]. split; [done|].
      rewrite app_assoc. by apply Forall_app.
    + rewrite !app_assoc in Heq. apply app_inj_tail in Heq as [_ ->].
      apply Forall_app in Hms' as [_ Hm]. rewrite Forall_singleton in Hm.
      apply Forall_app in Hrs as [_ Hr]. rewrite Forall_singleton in Hr.
      destruct (move_is_no_return _ Hm Hr).
Qed.

Lemma trimmed_snoc_return l r :
  is_return (insn_opcode r) = true -> trimmed l (l ++ [r]).
Proof.
  intros Hr. exists l, [], [r]. rewrite app_nil_r.
  split; [done|]. split; [done|]. split; [done|by apply Forall_singleton].
Qed.

Lemma trimmed_move_return l mv r :
  is_move (insn_opcode mv) = true -> is_return (insn_opcode r) = true ->
  trimmed (l ++ [mv]) (l ++ [r]).
Proof.
  intros Hm Hr. exists l, [mv], [r].
  split; [done|]. split; [done|]. split; by apply Forall_singleton.
Qed.

Lemma fold_edge_trimmed prev mie st ei b :
  is_return (insn_opcode mie) = true ->
  trimmed (block_insns (s_cfg st) b)
          (block_insns (s_cfg (fold_edge prev mie st ei)) b).
Proof.
  intros Hr.
  destruct (fold_edge_step prev mie st ei)
    as [|e mv He Ht Hm| |e He Ht Hm Hp]; simpl; try apply trimmed_refl.
  - apply find_trailing_move_Some in Hm as (_ & Hl & Hmv & _).
    rewrite block_insns_fold_with_move by done.
    case_decide; [subst b|apply trimmed_refl].
    unfold get_last_insn in Hl. apply last_Some in Hl as [l' Hl].
    rewrite Hl, removelast_last. by apply trimmed_move_return.
  - rewrite block_insns_push_back. case_decide; [|apply trimmed_refl].
    by apply trimmed_snoc_return.
Qed.

Lemma iteration_trimmed order cfg stats b :
  trimmed (block_insns cfg b)
          (block_insns (fst (fst (iteration order (cfg, stats)))) b).
Proof.
  unfold iteration; simpl.
  set (s := scan None order (mkScan cfg stats false [])).
  destruct (delete_edges_spec (s_del s) (s_cfg s) (s_stats s)) as (D1 & _).
  unfold block_insns at 2. rewrite D1. fold (block_insns (s_cfg s) b).
  subst s.
  apply (scan_ind (fun s => trimmed (block_insns cfg b)
                                    (block_insns (s_cfg s) b)));
    [|apply trimmed_refl].
  intros prev mie st ei e HI _ _ Hr _.
  eapply trimmed_trans; [exact HI|]. by apply fold_edge_trimmed.
Qed.

Lemma fold_loop_trimmed order fuel :
  forall cfg stats cfg' stats' b,
    fold_loop fuel order (cfg, stats) = Some (cfg', stats') ->
    trimmed (block_insns cfg b) (block_insns cfg' b).
Proof.
  induction fuel as [|fuel IH]; intros cfg stats cfg' stats' b; [done|].
  rewrite fold_loop_S.
  pose proof (iteration_trimmed order cfg stats b) as Hit.
  destruct (iteration order (cfg, stats)) as [[cfg1 st1] rerun].
  simpl in *. destruct rerun.
  - intros Hl. eapply trimmed_trans; [exact Hit|]. by eapply IH.
  - by intros [= <- <-].
Qed.

(** X6. The pass takes nothing but moves out of a block and puts nothing
    but returns into it, and both at the end of the block: a block of the
    graph returned is the same block of the input, its terminal conditional
    branch negated if the block was inverted, with moves taken off its end
    and returns put at its end. In particular the instructions that are
    neither moves nor returns are the same, in the same order. *)
Theorem only_moves_out_only_returns_in order cfg cfg' stats' b :
  process_code order cfg = Some (cfg', stats') ->
  let before := if inverts cfg b
                then map_last invert_insn (block_insns cfg b)
                else block_insns cfg b in
  (exists p ms rs,
     before = p ++ ms /\ block_insns cfg' b = p ++ rs /\
     Forall (fun i => is_move (insn_opcode i) = true) ms /\
     Forall (fun i => is_return (insn_opcode i) = true) rs) /\
  kept_insns (block_insns cfg' b) = kept_insns before.
Proof.
  intros ([cfg1 st1] & H1 & H2)%process_code_Some before. subst before.
  destruct (optimization1_blocks _ _ _ _ H1) as [_ Hbl].
  unfold optimization2 in H2. split.
  - rewrite <- Hbl. by eapply fold_loop_trimmed.
  - by rewrite (fold_loop_kept _ _ _ _ _ _ b H2), Hbl.
Qed.

(** ** The source of a deleted edge ends in a return *)

Lemma ends_in_return_snoc l r :
  is_return (insn_opcode r) = true -> ends_in_return (l ++ [r]).
Proof. intros Hr. exists r. by rewrite last_snoc. Qed.

Lemma fold_edge_ends prev mie st ei b :
  is_return (insn_opcode mie) = true ->
  ends_in_return (block_insns (s_cfg st) b) ->
  ends_in_return (block_insns (s_cfg (fold_edge prev mie st ei)) b).
Proof.
  intros Hr Hb.
  destruct (fold_edge_step prev mie st ei)
    as [|e mv He Ht Hm| |e He Ht Hm Hp]; simpl; try done.
  - apply find_trailing_move_Some in Hm as (_ & Hl & _).
    rewrite block_insns_fold_with_move by done. case_decide; [|done].
    by apply ends_in_return_snoc.
  - rewrite block_insns_push_back. case_decide; [|done].
    by apply ends_in_return_snoc.
Qed.

Lemma scan_ends prev order cfg stats :
  sources_exist cfg ->
  let s := scan prev order (mkScan cfg stats false []) in
  (forall b, ends_in_return (block_insns cfg b) ->
             ends_in_return (block_insns (s_cfg s) b)) /\
  (forall i, i ∈ s_del s ->
     exists e, get_edge cfg i = Some e /\
               ends_in_return (block_insns (s_cfg s) (e_src e))).
Proof.
  intros Hsrc.
  assert (let s := scan prev order (mkScan cfg stats false []) in
    (length (cfg_blocks (s_cfg s)) = length (cfg_blocks cfg) /\
     cfg_edges (s_cfg s) = cfg_edges cfg) /\
    (forall b, ends_in_return (block_insns cfg b) ->
               ends_in_return (block_insns (s_cfg s) b)) /\
    (forall i, i ∈ s_del s ->
       exists e, get_edge cfg i = Some e /\
                 ends_in_return (block_insns (s_cfg s) (e_src e))))
    as (_ & H); [|exact H].
  apply (scan_ind (fun s =>
    (length (cfg_blocks (s_cfg s)) = length (cfg_blocks cfg) /\
     cfg_edges (s_cfg s) = cfg_edges cfg) /\
    (forall b, ends_in_return (block_insns cfg b) ->
               ends_in_return (block_insns (s_cfg s) b)) /\
    (forall i, i ∈ s_del s ->
       exists e, get_edge cfg i = Some e /\
                 ends_in_return (block_insns (s_cfg s) (e_src e))))).
  2:{ simpl. split; [done|]. split; [done|]. by intros i ?%elem_of_nil. }
  intros prev' mie st ei e ([I1 I2] & I3 & I4) He Ht Hr _.
  split; [by rewrite fold_edge_length, fold_edge_edges|].
  split; [intros b Hb; by apply fold_edge_ends, I3|].
  assert (e_src e < length (cfg_blocks (s_cfg st))) as Hin.
  { apply (source_in_range _ ei); [|done].
    by apply (sources_exist_same_edges cfg). }
  assert (get_edge cfg ei = Some e) as He0.
  { unfold get_edge in *. by rewrite <- I2. }
  intros i Hi.
  destruct (fold_edge_step prev' mie st ei)
    as [|e' mv He' _ Hm| |e' He' _ Hm Hp]; simpl in *; try by apply I4.
  - assert (e' = e) as -> by congruence.
    pose proof Hm as (_ & Hl & _)%find_trailing_move_Some.
    apply elem_of_app in Hi as [Hi| ->%list_elem_of_singleton].
    + destruct (I4 i Hi) as (e0 & He0' & Hends). exists e0. split; [done|].
      rewrite block_insns_fold_with_move by done. case_decide; [|done].
      by apply ends_in_return_snoc.
    + exists e. split; [done|].
      rewrite block_insns_fold_with_move by done.
      rewrite decide_True by done. by apply ends_in_return_snoc.
  - assert (e' = e) as -> by congruence.
    apply elem_of_app in Hi as [Hi| ->%list_elem_of_singleton].
    + destruct (I4 i Hi) as (e0 & He0' & Hends). exists e0. split; [done|].
      rewrite block_insns_push_back. case_decide; [|done].
      by apply ends_in_return_snoc.
    + exists e. split; [done|]. rewrite block_insns_push_back.
      rewrite decide_True by done. by apply ends_in_return_snoc.
Qed.

Lemma iteration_ends order cfg stats :
  sources_exist cfg ->
  let cfg1 := fst (fst (iteration order (cfg, stats))) in
  (forall b, ends_in_return (block_insns cfg b) ->
             ends_in_return (block_insns cfg1 b)) /\
  (forall i e, get_edge cfg i = Some e ->
     get_edge cfg1 i = Some e \/
     (get_edge cfg1 i = None /\
      ends_in_return (block_insns cfg1 (e_src e)))).
Proof.
  intros Hsrc. unfold iteration; simpl.
  destruct (scan_ends None order cfg stats Hsrc) as [E1 E2].
  destruct (scan_queue_gotos None order cfg stats) as (_ & S2 & _).
  set (s := scan None order (mkScan cfg stats false [])) in *.
  destruct (delete_edges_spec (s_del s) (s_cfg s) (s_stats s))
    as (D1 & D2 & _).
  set (cfg1 := fst (delete_edges (s_del s) (s_cfg s, s_stats s))) in *.
  assert (forall b, block_insns cfg1 b = block_insns (s_cfg s) b) as Hbl.
  { intros b. unfold block_insns. by rewrite D1. }
  split.
  - intros b Hb. rewrite Hbl. by apply E1.
  - intros i e He. rewrite D2. case_decide as Hd.
    + right. split; [done|]. destruct (E2 i Hd) as (e' & He' & Hends).
      assert (e' = e) as -> by congruence. by rewrite Hbl.
    + left. unfold get_edge in *. by rewrite S2.
Qed.

Lemma fold_loop_ends order fuel :
  forall cfg stats cfg' stats',
    sources_exist cfg ->
    fold_loop fuel order (cfg, stats) = Some (cfg', stats') ->
    (forall b, ends_in_return (block_insns cfg b) ->
               ends_in_return (block_insns cfg' b)) /\
    (forall i e, get_edge cfg i = Some e -> get_edge cfg' i = None ->
                 ends_in_return (block_insns cfg' (e_src e))).
Proof.
  induction fuel as [|fuel IH]; intros cfg stats cfg' stats' Hs; [done|].
  rewrite fold_loop_S.
  pose proof (sources_exist_iteration order cfg stats Hs) as Hs1.
  pose proof (iteration_ends order cfg stats Hs) as [E1 E2].
  destruct (iteration order (cfg, stats)) as [[cfg1 st1] rerun].
  simpl in *. destruct rerun.
  - intros Hl. destruct (IH _ _ _ _ Hs1 Hl) as [F1 F2]. split.
    + intros b Hb. by apply F1, E1.
    + intros i e He Hn. destruct (E2 i e He) as [He1|[_ Hends]].
      * by eapply F2.
      * by apply F1.
  - intros [= <- <-]. split; [done|].
    intros i e He Hn. destruct (E2 i e He) as [He1|[_ Hends]]; [|done].
    congruence.
Qed.

(** Optimization 1 deletes no edge and moves none to another source. *)
Lemma optimization1_edges cfg st cfg1 st1 i e :
  optimization1 (cfg, st) = Some (cfg1, st1) ->
  get_edge cfg i = Some e ->
  exists e1, get_edge cfg1 i = Some e1 /\ e_src e1 = e_src e.
Proof.
  intros Hrun He. unfold optimization1 in Hrun; simpl in Hrun.
  destruct (invert_blocks_spec _ (NoDup_seq _ _) _ _ _ _ Hrun)
    as (_ & Hout & Hin & _).
  destruct (decide (e_src e ∈ blocks cfg)) as [Hb|Hb].
  - specialize (Hin _ Hb). destruct (inverts cfg (e_src e)).
    + destruct Hin as (gi & bi & ge & be & _ & _ & _ & _ & _ & Hg & Hbe & Ho).
      destruct (decide (i = gi)) as [->|Hig]; [by eexists|].
      destruct (decide (i = bi)) as [->|Hib]; [by eexists|].
      exists e. split; [|done]. by apply Ho.
    + destruct Hin as [_ Hu]. exists e. split; [|done]. by apply Hu.
  - destruct (Hout _ Hb) as [_ Hu]. exists e. split; [|done]. by apply Hu.
Qed.

(** X7. On a graph whose edges leave blocks of the graph, the block that an
    edge deleted by the pass used to leave ends in a return in the graph
    returned: no block is left without its way out. *)
Theorem deleted_edge_source_returns order cfg cfg' stats' i e :
  sources_exist cfg ->
  process_code order cfg = Some (cfg', stats') ->
  get_edge cfg i = Some e -> get_edge cfg' i = None ->
  ends_in_return (block_insns cfg' (e_src e)).
Proof.
  intros Hs ([cfg1 st1] & H1 & H2)%process_code_Some He Hn.
  pose proof (sources_exist_optimization1 _ _ _ _ Hs H1) as Hs1.
  destruct (optimization1_edges _ _ _ _ _ _ H1 He) as (e1 & He1 & <-).
  unfold optimization2 in H2.
  destruct (fold_loop_ends _ _ _ _ _ _ Hs1 H2) as [_ F2]. by eapply F2.
Qed.

(** ** Optimization 1 and the order of the blocks *)

(** X12. Optimization 1 keeps the number of predecessors of every block:
    the two edges of an inverted block exchange their targets, so that each
    target loses one predecessor and gains one. The inversion condition of
    a block is therefore the same whenever the block is visited. *)
Theorem inversion_keeps_predecessor_counts bs cfg st cfg' st' :
  NoDup bs ->
  invert_blocks bs (cfg, st) = Some (cfg', st') ->
  (forall b, num_preds cfg' b = num_preds cfg b) /\
  (forall b, b ∉ bs -> inverts cfg' b = inverts cfg b).
Proof.
  intros Hnd Hrun.
  destruct (invert_blocks_spec bs Hnd _ _ _ _ Hrun) as (Hs & Hout & _).
  split; [apply (ss_preds _ _ Hs)|].
  intros b Hb. apply inverts_unchanged; [done|by apply Hout].
Qed.

Lemma cfg_ext c1 c2 :
  length (cfg_blocks c1) = length (cfg_blocks c2) ->
  (forall b, block_insns c1 b = block_insns c2 b) ->
  length (cfg_edges c1) = length (cfg_edges c2) ->
  (forall i, get_edge c1 i = get_edge c2 i) ->
  c1 = c2.
Proof.
  destruct c1 as [bs1 es1], c2 as [bs2 es2]. unfold block_insns, get_edge.
  simpl. intros Hlb Hb Hle He. f_equal.
  - apply list_eq. intros b. specialize (Hb b).
    destruct (decide (b < length bs1)) as [Hlt|Hge].
    + destruct (lookup_lt_is_Some_2 bs1 b Hlt) as [x1 H1].
      destruct (lookup_lt_is_Some_2 bs2 b ltac:(lia)) as [x2 H2].
      rewrite H1, H2 in *. simpl in Hb. congruence.
    + by rewrite !lookup_ge_None_2 by lia.
  - apply list_eq. intros i. specialize (He i).
    destruct (decide (i < length es1)) as [Hlt|Hge].
    + destruct (lookup_lt_is_Some_2 es1 i Hlt) as [x1 H1].
      destruct (lookup_lt_is_Some_2 es2 i ltac:(lia)) as [x2 H2].
      rewrite H1, H2 in *. simpl in He. congruence.
    + by rewrite !lookup_ge_None_2 by lia.
Qed.

(** What Optimization 1 makes of a block and of the edges that leave it is
    read off the input graph. *)
Lemma invert_result_determined cfg c1 c2 b :
  (if inverts cfg b then inverted_at cfg c1 b else unchanged_at cfg c1 b) ->
  (if inverts cfg b then inverted_at cfg c2 b else unchanged_at cfg c2 b) ->
  block_insns c1 b = block_insns c2 b /\
  forall i e, get_edge cfg i = Some e -> e_src e = b ->
              get_edge c1 i = get_edge c2 i.
Proof.
  destruct (inverts cfg b).
  - intros (gi & bi & ge & be & Hgi & Hge & Hbi & Hbe & Hbl & Hg & Hb & Ho)
           (gi' & bi' & ge' & be' & Hgi' & Hge' & Hbi' & Hbe' & Hbl' & Hg'
            & Hb' & Ho').
    assert (gi' = gi) as -> by congruence.
    assert (bi' = bi) as -> by congruence.
    assert (ge' = ge) as -> by congruence.
    assert (be' = be) as -> by congruence.
    split; [congruence|]. intros i e He Hs.
    destruct (decide (i = gi)) as [->|Hig]; [congruence|].
    destruct (decide (i = bi)) as [->|Hib]; [congruence|].
    by rewrite (Ho i e), (Ho' i e).
  - intros [U1 U2] [V1 V2]. split; [congruence|].
    intros i e He Hs. by rewrite (U2 i e), (V2 i e).
Qed.

(** X13. The result of Optimization 1 does not depend on the order in
    which the blocks are visited: two enumerations of the same blocks,
    without repetition, give the same graph and the same counters, or both
    fail. *)
Theorem inversion_is_order_independent bs bs' cfg st :
  NoDup bs -> bs ≡ₚ bs' ->
  invert_blocks bs (cfg, st) = invert_blocks bs' (cfg, st).
Proof.
  intros Hnd Hp.
  assert (NoDup bs') as Hnd' by by rewrite <- Hp.
  destruct (invert_blocks bs (cfg, st)) as [[c1 s1]|] eqn:H1;
  destruct (invert_blocks bs' (cfg, st)) as [[c2 s2]|] eqn:H2; try done.
  - destruct (invert_blocks_spec bs Hnd _ _ _ _ H1)
      as ([A1 _ _ _] & Aout & Ain & ->).
    destruct (invert_blocks_spec bs' Hnd' _ _ _ _ H2)
      as ([B1 _ _ _] & Bout & Bin & ->).
    pose proof (arena_kept_invert_blocks _ _ _ _ _ H1) as [_ A2 A3].
    pose proof (arena_kept_invert_blocks _ _ _ _ _ H2) as [_ B2 B3].
    assert (forall b,
              block_insns c1 b = block_insns c2 b /\
              forall i e, get_edge cfg i = Some e -> e_src e = b ->
                          get_edge c1 i = get_edge c2 i) as Hat.
    { intros b. destruct (decide (b ∈ bs)) as [Hb|Hb].
      - apply (invert_result_determined cfg c1 c2 b); [by apply Ain|].
        apply Bin. by rewrite <- Hp.
      - assert (b ∉ bs') as Hb' by by rewrite <- Hp.
        destruct (Aout b Hb) as [U1 U2]. destruct (Bout b Hb') as [V1 V2].
        split; [congruence|].
        intros i e He Hs. by rewrite (U2 i e), (V2 i e). }
    f_equal. f_equal.
    + apply cfg_ext; try congruence.
      * intros b. by destruct (Hat b).
      * intros i. specialize (A3 i). specialize (B3 i).
        unfold edge_fate in *.
        destruct (get_edge cfg i) as [e|] eqn:He; [|congruence].
        destruct (Hat (e_src e)) as [_ Hed]. by apply (Hed i e).
    + f_equal. f_equal. apply Permutation_length.
      by apply filter_Permutation.
  - apply invert_blocks_None in H2 as (b & Hb & Hm).
    assert (invert_blocks bs (cfg, st) = None) as Hn; [|congruence].
    apply invert_blocks_None. exists b. split; [by rewrite Hp|done].
  - apply invert_blocks_None in H1 as (b & Hb & Hm).
    assert (invert_blocks bs' (cfg, st) = None) as Hn; [|congruence].
    apply invert_blocks_None. exists b. split; [by rewrite <- Hp|done].
Qed.

(** * The driver *)

(** ** The reducer *)

Lemma combine_stats_assoc a b c :
  combine_stats a (combine_stats b c) = combine_stats (combine_stats a b) c.
Proof. unfold combine_stats; simpl. f_equal; lia. Qed.

Lemma combine_stats_comm a b : combine_stats a b = combine_stats b a.
Proof. unfold combine_stats. f_equal; lia. Qed.

Lemma combine_stats_zero_l a : combine_stats stats0 a = a.
Proof. by destruct a. Qed.

Lemma combine_stats_zero_r a : combine_stats a stats0 = a.
Proof. rewrite combine_stats_comm. apply combine_stats_zero_l. Qed.

Lemma sum_stats_app l k :
  sum_stats (l ++ k) = combine_stats (sum_stats l) (sum_stats k).
Proof.
  induction l as [|s l IH]; simpl.
  - by rewrite combine_stats_zero_l.
  - unfold sum_stats in *; simpl. by rewrite IH, combine_stats_assoc.
Qed.

Lemma sum_stats_Permutation l k : l ≡ₚ k -> sum_stats l = sum_stats k.
Proof.
  unfold sum_stats. induction 1 as [|x l k _ IH|x y l|l k m _ IH1 _ IH2];
    simpl; try congruence.
  rewrite !combine_stats_assoc. f_equal. apply combine_stats_comm.
Qed.

Lemma sum_stats_field (f : Stats -> nat) (l : list Stats) :
  (forall a b, f (combine_stats a b) = f a + f b) -> f stats0 = 0 ->
  f (sum_stats l) = sum_list (map f l).
Proof.
  intros Hf H0. unfold sum_stats.
  induction l as [|s l IH]; simpl; [done|]. by rewrite Hf, IH.
Qed.

Lemma sum_list_map_app {A} (f : A -> nat) l k :
  sum_list (map f (l ++ k)) = sum_list (map f l) + sum_list (map f k).
Proof. by rewrite map_app, sum_list_with_app. Qed.

Lemma sum_list_map_Permutation {A} (f : A -> nat) l k :
  l ≡ₚ k -> sum_list (map f l) = sum_list (map f k).
Proof. intros Hp. by rewrite (Permutation_map f Hp). Qed.

Lemma wrap_add w a b : wrap w (wrap w a + wrap w b) = wrap w (a + b).
Proof. unfold wrap. by rewrite <- Nat.Div0.add_mod. Qed.

Lemma wrap_small w n : n < 2 ^ w -> wrap w n = n.
Proof. apply Nat.mod_small. Qed.

(** The wrapped total is the wrapped sum of each counter. *)
Lemma reduce_wrap w t :
  Forall (fits w) (reduced t) ->
  reduce w t
  = mkStats
      (wrap w (sum_list (map replaced_gotos_with_returns (reduced t))))
      (wrap w (sum_list (map removed_trailing_moves (reduced t))))
      (wrap w (sum_list (map inverted_conditional_branches (reduced t)))).
Proof.
  induction t as [|s|l IHl r IHr]; simpl.
  - intros _. unfold wrap. by rewrite Nat.Div0.mod_0_l.
  - intros (F1 & F2 & F3)%Forall_singleton. rewrite !Nat.add_0_r.
    rewrite !wrap_small by done. by destruct s.
  - intros [Hl Hr]%Forall_app. rewrite (IHl Hl), (IHr Hr).
    unfold combine_stats_wrapping; simpl.
    by rewrite !wrap_add, !sum_list_map_app.
Qed.

(** X8. The total of the statistics does not depend on how the workers
    group and order the methods, whatever the width of the counters: two
    reductions over the same records of [w]-bit counters, taken in any
    order, with any grouping and with zero records of workers put in
    anywhere, give the same total, which is, counter by counter, the sum of
    the records wrapped to [w] bits; where the three sums fit [w] bits, it
    is the sum of the records. *)
Theorem reduction_is_order_independent w t1 t2 :
  Forall (fits w) (reduced t1) ->
  reduced t1 ≡ₚ reduced t2 ->
  reduce w t1 = reduce w t2 /\
  replaced_gotos_with_returns (reduce w t1)
  = wrap w (sum_list (map replaced_gotos_with_returns (reduced t1))) /\
  removed_trailing_moves (reduce w t1)
  = wrap w (sum_list (map removed_trailing_moves (reduced t1))) /\
  inverted_conditional_branches (reduce w t1)
  = wrap w (sum_list (map inverted_conditional_branches (reduced t1))) /\
  (fits w (sum_stats (reduced t1)) -> reduce w t1 = sum_stats (reduced t1)).
Proof.
  intros Hf Hp.
  assert (Forall (fits w) (reduced t2)) as Hf2 by by rewrite <- Hp.
  rewrite (reduce_wrap w t1 Hf), (reduce_wrap w t2 Hf2); simpl.
  split; [|split; [done|split; [done|split; [done|]]]].
  - by rewrite !(sum_list_map_Permutation _ _ _ Hp).
  - intros (F1 & F2 & F3).
    rewrite (sum_stats_field replaced_gotos_with_returns) in F1 by done.
    rewrite (sum_stats_field removed_trailing_moves) in F2 by done.
    rewrite (sum_stats_field inverted_conditional_branches) in F3 by done.
    rewrite !wrap_small by done.
    rewrite <- (sum_stats_field replaced_gotos_with_returns) by done.
    rewrite <- (sum_stats_field removed_trailing_moves) by done.
    rewrite <- (sum_stats_field inverted_conditional_branches) by done.
    by destruct (sum_stats (reduced t1)).
Qed.

(** ** The trace of a method *)

Lemma process_code_moves_le_gotos order cfg cfg' stats' :
  process_code order cfg = Some (cfg', stats') ->
  removed_trailing_moves stats' <= replaced_gotos_with_returns stats'.
Proof.
  intros ([cfg1 st1] & H1 & H2)%process_code_Some.
  destruct (optimization1_stats _ _ _ H1) as [Hg Hr].
  unfold optimization2 in H2.
  destruct (fold_loop_counts (order cfg1) (S (count_moves cfg1)) cfg1 st1
              ltac:(lia)) as (cfg2 & st2 & Hl & _ & Hle & _).
  change (fst (cfg1, st1)) with cfg1 in H2. rewrite Hl in H2.
  simplify_eq. lia.
Qed.

(** X9. The test that guards the trace of a method reads the counters of
    gotos and of inversions only, and still misses no method: on the
    statistics that the pass returns it is false exactly when all three
    counters are zero. *)
Theorem traces_iff_nonzero order cfg cfg' stats' :
  process_code order cfg = Some (cfg', stats') ->
  traces stats' = false <-> stats' = stats0.
Proof.
  intros Hle%process_code_moves_le_gotos. unfold traces. split.
  - intros [H1 H2]%orb_false_elim.
    apply negb_false_iff, Nat.eqb_eq in H1, H2.
    destruct stats' as [g m i]; simpl in *. unfold stats0. f_equal; lia.
  - by intros ->.
Qed.

(** ** The scope *)

Lemma reduce_methods_Some order scope :
  forall acc scope' total,
    reduce_methods order scope acc = Some (scope', total) ->
    total = combine_stats acc (sum_stats (map (method_stats order) scope)) /\
    Forall2 (fun m m' => reduce_method order m
                         = Some (m', method_stats order m)) scope scope'.
Proof.
  induction scope as [|m scope IH]; intros acc scope' total; simpl.
  - intros [= <- <-]. by rewrite combine_stats_zero_r.
  - destruct (reduce_method order m) as [[m' s]|] eqn:Hm; [|done].
    destruct (reduce_methods order scope (combine_stats acc s))
      as [[ms t]|] eqn:Hrest; [|done].
    intros [= <- <-]. destruct (IH _ _ _ Hrest) as [-> HF].
    assert (method_stats order m = s) as Hs.
    { unfold method_stats. by rewrite Hm. }
    split.
    + unfold sum_stats; simpl. by rewrite Hs, combine_stats_assoc.
    + constructor; [by rewrite Hs|done].
Qed.

Lemma reduce_methods_None order scope :
  forall acc,
    reduce_methods order scope acc = None <->
    exists m, m ∈ scope /\ reduce_method order m = None.
Proof.
  induction scope as [|m scope IH]; intros acc; simpl.
  - split; [done|]. by intros (m & ?%elem_of_nil & _).
  - destruct (reduce_method order m) as [[m' s]|] eqn:Hm.
    + destruct (reduce_methods order scope (combine_stats acc s))
        as [[ms t]|] eqn:Hrest.
      * split; [done|]. intros (m0 & [->|Hin]%elem_of_cons & Hn);
          [congruence|].
        assert (reduce_methods order scope (combine_stats acc s) = None)
          as Hc; [|congruence].
        apply IH. by exists m0.
      * split; [|done]. intros _. apply IH in Hrest as (m0 & Hin & Hn).
        exists m0. split; [by right|done].
    + split; [|done]. intros _. exists m. split; [by left|done].
Qed.

Lemma method_stats_moves_le_gotos order m :
  removed_trailing_moves (method_stats order m)
  <= replaced_gotos_with_returns (method_stats order m).
Proof.
  unfold method_stats, reduce_method. destruct m as [cfg|]; [|done].
  destruct (process_code order cfg) as [[cfg' s]|] eqn:Hp; [|done].
  by eapply process_code_moves_le_gotos.
Qed.

Lemma sum_stats_moves_le_gotos order scope :
  removed_trailing_moves (sum_stats (map (method_stats order) scope))
  <= replaced_gotos_with_returns (sum_stats (map (method_stats order) scope)).
Proof.
  unfold sum_stats. induction scope as [|m l IH]; simpl; [done|].
  pose proof (method_stats_moves_le_gotos order m). lia.
Qed.

Lemma metric_names_distinct :
  METRIC_GOTOS_REPLACED_WITH_RETURNS <> METRIC_TRAILING_MOVES_REMOVED /\
  METRIC_GOTOS_REPLACED_WITH_RETURNS <> METRIC_INVERTED_CONDITIONAL_BRANCHES /\
  METRIC_TRAILING_MOVES_REMOVED <> METRIC_INVERTED_CONDITIONAL_BRANCHES.
Proof. repeat split; discriminate. Qed.

(** X10. When the run of the pass over a scope ends, every method has
    been mapped, in place and in scope order, a method without code being
    left as it is; each of the three metrics has grown by the sum of its
    counter over the methods and no other metric has changed; and the
    metric of trailing moves has grown by no more than the metric of
    gotos. *)
Theorem run_pass_publishes_totals order scope mgr scope' mgr' :
  run_pass order scope mgr = Some (scope', mgr') ->
  let total := sum_stats (map (method_stats order) scope) in
  Forall2 (fun m m' => reduce_method order m = Some (m', method_stats order m))
          scope scope' /\
  (forall k, scope !! k = Some None -> scope' !! k = Some None) /\
  mgr' METRIC_GOTOS_REPLACED_WITH_RETURNS
  = mgr METRIC_GOTOS_REPLACED_WITH_RETURNS
    + sum_list (map (fun m => replaced_gotos_with_returns
                                (method_stats order m)) scope) /\
  mgr' METRIC_TRAILING_MOVES_REMOVED
  = mgr METRIC_TRAILING_MOVES_REMOVED
    + sum_list (map (fun m => removed_trailing_moves
                                (method_stats order m)) scope) /\
  mgr' METRIC_INVERTED_CONDITIONAL_BRANCHES
  = mgr METRIC_INVERTED_CONDITIONAL_BRANCHES
    + sum_list (map (fun m => inverted_conditional_branches
                                (method_stats order m)) scope) /\
  (forall k, k <> METRIC_GOTOS_REPLACED_WITH_RETURNS ->
             k <> METRIC_TRAILING_MOVES_REMOVED ->
             k <> METRIC_INVERTED_CONDITIONAL_BRANCHES -> mgr' k = mgr k) /\
  mgr' METRIC_TRAILING_MOVES_REMOVED - mgr METRIC_TRAILING_MOVES_REMOVED
  <= mgr' METRIC_GOTOS_REPLACED_WITH_RETURNS
     - mgr METRIC_GOTOS_REPLACED_WITH_RETURNS.
Proof.
  unfold run_pass.
  destruct (reduce_methods order scope stats0) as [[ms total]|] eqn:Hr;
    [|done].
  intros [= <- <-]. destruct (reduce_methods_Some _ _ _ _ _ Hr) as [Ht HF].
  rewrite combine_stats_zero_l in Ht. subst total.
  destruct metric_names_distinct as (N1 & N2 & N3).
  pose proof (sum_stats_moves_le_gotos order scope) as Hle.
  pose proof (sum_stats_field replaced_gotos_with_returns
                (map (method_stats order) scope) ltac:(done) ltac:(done))
    as Hg.
  pose proof (sum_stats_field removed_trailing_moves
                (map (method_stats order) scope) ltac:(done) ltac:(done))
    as Hm.
  pose proof (sum_stats_field inverted_conditional_branches
                (map (method_stats order) scope) ltac:(done) ltac:(done))
    as Hi.
  rewrite map_map in Hg, Hm, Hi. cbv zeta. rewrite <- Hg, <- Hm, <- Hi.
  split; [done|]. split.
  { intros k Hk.
    destruct (Forall2_lookup_l _ _ _ _ _ HF Hk) as (m' & Hk' & Hmap).
    simpl in Hmap. by simplify_eq. }
  unfold incr_metric.
  repeat split; try intros k K1 K2 K3;
    repeat case_decide; try congruence; lia.
Qed.

(** X11. The run of the pass over a scope fails, and returns neither scope
    nor metrics, exactly when the graph of some method of the scope has a
    block that ends in a conditional branch and lacks its goto edge or its
    branch edge. *)
Theorem run_pass_fails_iff_malformed order scope mgr :
  run_pass order scope mgr = None <->
  exists cfg b,
    Some cfg ∈ scope /\ b < length (cfg_blocks cfg) /\
    branchingness_is_if cfg b = true /\
    (get_succ_edge_of_type cfg b EDGE_GOTO = None \/
     get_succ_edge_of_type cfg b EDGE_BRANCH = None).
Proof.
  unfold run_pass.
  assert (reduce_methods order scope stats0 = None <->
          exists cfg b,
            Some cfg ∈ scope /\ b < length (cfg_blocks cfg) /\
            missing_edge cfg b = true) as Hiff.
  { rewrite reduce_methods_None. split.
    - intros ([cfg|] & Hin & Hn); [|done].
      unfold reduce_method in Hn.
      destruct (process_code order cfg) as [[? ?]|] eqn:Hp; [done|].
      apply process_code_None, optimization1_None in Hp as (b & Hb & Hm).
      by exists cfg, b.
    - intros (cfg & b & Hin & Hb & Hm). exists (Some cfg). split; [done|].
      unfold reduce_method.
      assert (process_code order cfg = None) as ->; [|done].
      apply process_code_None, optimization1_None. by exists b. }
  setoid_rewrite <- missing_edge_true.
  destruct (reduce_methods order scope stats0) as [[ms total]|].
  - split; [done|]. intros H. by apply Hiff in H.
  - split; [|done]. intros _. by apply Hiff.
Qed.

(** * The length of the runs *)

Section RunLength.
Context {World : Type}.
Variable exec_other : IRInstruction -> Regs -> World -> Regs * World.

Abbreviation exec_insns := (exec_insns exec_other).
Abbreviation exec_block := (exec_block exec_other).
Abbreviation run := (run exec_other).
Abbreviation no_slower := (no_slower exec_other).

Lemma no_slower_refl cfg : no_slower cfg cfg.
Proof. by intros fuel b regs w r. Qed.

Lemma no_slower_trans cfg1 cfg2 cfg3 :
  no_slower cfg1 cfg2 -> no_slower cfg2 cfg3 -> no_slower cfg1 cfg3.
Proof. intros H12 H23 fuel b regs w r Hr. by apply H23, H12. Qed.

Lemma no_slower_blockwise cfg cfg' :
  (forall b regs w, exec_block cfg' b regs w = exec_block cfg b regs w) ->
  no_slower cfg cfg'.
Proof.
  intros Hb fuel. induction fuel as [|fuel IH]; intros b regs w r; [done|].
  simpl. rewrite Hb. destruct (exec_block cfg b regs w); [done|apply IH].
Qed.

(** A block that returns at once what was returned after one more jump
    saves a block. *)
Lemma no_slower_shortcut cfg cfg' :
  (forall b regs w,
     exec_block cfg' b regs w = exec_block cfg b regs w \/
     exists t regs1 w1 r,
       exec_block cfg b regs w = Jump t regs1 w1 /\
       exec_block cfg t regs1 w1 = Done r /\
       exec_block cfg' b regs w = Done r) ->
  no_slower cfg cfg'.
Proof.
  intros Hb fuel. induction fuel as [|fuel IH]; intros b regs w r Hrun;
    [done|].
  simpl in *.
  destruct (Hb b regs w) as [->|(t & regs1 & w1 & r1 & H1 & H2 & ->)].
  - destruct (exec_block cfg b regs w); [done|by apply IH].
  - rewrite H1 in Hrun. destruct fuel as [|fuel]; [done|].
    simpl in Hrun. by rewrite H2 in Hrun.
Qed.

End RunLength.

Section FoldingRunLength.
Context {World : Type}.
Variable exec_other : IRInstruction -> Regs -> World -> Regs * World.
Variable cfg0 : ControlFlowGraph.
Hypothesis Hgoto : goto_unique cfg0.
Hypothesis Hsrc : sources_exist cfg0.

Abbreviation no_slower := (no_slower exec_other).

Abbreviation unary :=
  (fun i => is_return (insn_opcode i) = true -> srcs_size i <= 1).

Abbreviation speed_frame :=
  (fun st => sem_frame exec_other cfg0 st /\ no_slower cfg0 (s_cfg st)).

Lemma no_slower_step st st' ei e mie l' :
  sem_frame exec_other cfg0 st ->
  no_slower cfg0 (s_cfg st) ->
  get_edge (s_cfg st) ei = Some e -> e_type e = EDGE_GOTO ->
  is_return (insn_opcode mie) = true ->
  head (block_insns (s_cfg st) (e_target e)) = Some mie ->
  cfg_edges (s_cfg st') = cfg_edges (s_cfg st) ->
  (forall b, block_insns (s_cfg st') b
             = if decide (e_src e = b) then l'
               else block_insns (s_cfg st) b) ->
  (forall bt regs w,
     exec_insns exec_other (Some (e_target e)) bt l' regs w
     = exec_insns exec_other (Some (e_target e)) bt
         (block_insns (s_cfg st) (e_src e)) regs w \/
     exists regs1 w1,
       exec_insns exec_other (Some (e_target e)) bt
         (block_insns (s_cfg st) (e_src e)) regs w
       = Jump (e_target e) regs1 w1 /\
       exec_insns exec_other (Some (e_target e)) bt l' regs w
       = Done (Returned (ret_vals mie regs1) w1)) ->
  no_slower cfg0 (s_cfg st').
Proof using Hgoto.
  intros [F1 F2 F3 F4 F5] Hfast He Ht Hr Hh Hed Hbl Hsim.
  assert (goto_unique (s_cfg st)) as Hgu.
  { intros b. unfold succs_of_type. rewrite F1. apply Hgoto. }
  pose proof (edge_target_unique _ _ _ Hgu He Ht) as Hgt.
  eapply no_slower_trans; [done|]. apply no_slower_shortcut.
  intros b regs w. unfold exec_block.
  rewrite !(edge_target_same_edges (s_cfg st) (s_cfg st')) by done.
  rewrite Hbl. case_decide as Hb; [subst b|by left].
  rewrite Hgt.
  destruct (Hsim (edge_target (s_cfg st) (e_src e) EDGE_BRANCH) regs w)
    as [->|(regs1 & w1 & H1 & H2)]; [by left|right].
  exists (e_target e), regs1, w1, (Returned (ret_vals mie regs1) w1).
  split; [done|]. split; [|done].
  fold (exec_block exec_other (s_cfg st) (e_target e) regs1 w1).
  by apply exec_block_head_return.
Qed.

Lemma speed_frame_fold_edge : fold_preserves speed_frame.
Proof using Hgoto Hsrc.
  intros prev mie st ei e [HF Hfast] He Ht Hr Hh.
  split; [by eapply sem_frame_fold_edge|].
  assert (unary mie) as Hmie.
  { pose proof (sm_returns _ _ _ HF (e_target e)) as Hall.
    destruct (block_insns (s_cfg st) (e_target e)) as [|i l];
      simplify_eq/=. by apply Forall_cons in Hall as [? _]. }
  assert (e_src e < length (cfg_blocks (s_cfg st))) as Hin.
  { apply (source_in_range _ ei); [|done].
    intros b t. unfold succs_of_type.
    rewrite (sm_edges _ _ _ HF), (sm_length _ _ _ HF). apply Hsrc. }
  destruct (fold_edge_step prev mie st ei)
    as [|e' mv He' _ Hm| |e' He' _ Hm Hp]; try done.
  - assert (e' = e) as -> by congruence.
    apply find_trailing_move_Some in Hm as (H0 & Hl & Hmv & Hd & Hw).
    pose proof Hl as [l Hbl]%last_Some.
    apply (no_slower_step st _ ei e mie
             (l ++ [set_src 0 (src mv 0) mie])); simpl; try done.
    + intros b. rewrite block_insns_fold_with_move by done.
      case_decide; [subst b|done]. by rewrite Hbl, removelast_last.
    + intros bt regs w. rewrite Hbl.
      apply exec_insns_move_return; try done. by apply Hmie.
  - assert (e' = e) as -> by congruence.
    apply (no_slower_step st _ ei e mie
             (block_insns (s_cfg st) (e_src e) ++ [mie])); simpl; try done.
    + intros b. rewrite block_insns_push_back.
      repeat case_decide; naive_solver.
    + intros bt regs w. by apply exec_insns_snoc_return.
Qed.

Lemma speed_frame_scan prev order stats :
  returns_unary cfg0 ->
  speed_frame (scan prev order (mkScan cfg0 stats false [])).
Proof using Hgoto Hsrc.
  intros Hun. apply (scan_ind speed_frame); [apply speed_frame_fold_edge|].
  split; [|apply no_slower_refl].
  constructor; simpl; try done.
  by intros i ?%elem_of_nil.
Qed.

End FoldingRunLength.

Section PassRunLength.
Context {World : Type}.
Variable exec_other : IRInstruction -> Regs -> World -> Regs * World.

Abbreviation no_slower := (no_slower exec_other).

Lemma iteration_no_slower order cfg stats :
  goto_unique cfg -> returns_unary cfg -> sources_exist cfg ->
  no_slower cfg (fst (fst (iteration order (cfg, stats)))).
Proof.
  intros Hg Hr Hs. unfold iteration; simpl.
  set (s := scan None order (mkScan cfg stats false [])).
  pose proof (speed_frame_scan exec_other cfg Hg Hs None order stats Hr)
    as [[F1 F2 F3 F4 F5] Hfast]. fold s in F1, F2, F3, F4, F5, Hfast.
  destruct (delete_edges_spec (s_del s) (s_cfg s) (s_stats s))
    as (D1 & D2 & _).
  set (cfg' := fst (delete_edges (s_del s) (s_cfg s, s_stats s))) in *.
  assert (forall b, block_insns cfg' b = block_insns (s_cfg s) b) as Hbl.
  { intros b. unfold block_insns. by rewrite D1. }
  assert (forall i e, i ∈ s_del s -> get_edge (s_cfg s) i = Some e ->
            e_type e = EDGE_GOTO /\
            has_return (block_insns (s_cfg s) (e_src e))) as Hq.
  { intros i e Hi He. destruct (F5 i Hi) as (e' & He' & Ht & Hret).
    unfold get_edge in *. rewrite F1 in He. by simplify_eq. }
  eapply no_slower_trans; [done|]. apply no_slower_blockwise.
  intros b regs w. unfold exec_block. rewrite Hbl.
  assert (edge_target cfg' b EDGE_BRANCH
          = edge_target (s_cfg s) b EDGE_BRANCH) as ->.
  { apply edge_target_delete_edges. intros i e Hi He [_ Ht].
    destruct (Hq i e Hi He) as [Ht' _]. congruence. }
  destruct (decide (Exists (fun i => is_return (insn_opcode i) = true)
                           (block_insns (s_cfg s) b))) as [Hex|Hex].
  - by apply exec_insns_app_not_end.
  - assert (edge_target cfg' b EDGE_GOTO
            = edge_target (s_cfg s) b EDGE_GOTO) as ->; [|done].
    apply edge_target_delete_edges. intros i e Hi He [Hb _].
    destruct (Hq i e Hi He) as [_ Hret]. by rewrite Hb in Hret.
Qed.

Lemma fold_loop_no_slower order fuel :
  forall cfg stats cfg' stats',
    goto_unique cfg -> returns_unary cfg -> sources_exist cfg ->
    fold_loop fuel order (cfg, stats) = Some (cfg', stats') ->
    no_slower cfg cfg'.
Proof.
  induction fuel as [|fuel IH]; intros cfg stats cfg' stats' Hg Hr Hs;
    [done|].
  rewrite fold_loop_S.
  pose proof (iteration_no_slower order cfg stats Hg Hr Hs) as Hf.
  pose proof (iteration_equivalent exec_other order cfg stats Hg Hr Hs)
    as (_ & Hg1 & Hr1 & Hs1).
  destruct (iteration order (cfg, stats)) as [[cfg1 st1] rerun].
  simpl in *. destruct rerun.
  - intros Hl. eapply no_slower_trans; [done|]. by eapply IH.
  - by intros [= <- <-].
Qed.

End PassRunLength.

(** X14. On a graph built as the builder of the graph builds it, the pass
    never makes a run longer: a run of the method that ends after at most
    [fuel] blocks on the input graph ends with the same result after at
    most [fuel] blocks on the graph returned by the pass. *)
Theorem pass_never_lengthens_runs {World : Type}
    (exec_other : IRInstruction -> Regs -> World -> Regs * World)
    order cfg cfg' stats' :
  structured cfg ->
  process_code order cfg = Some (cfg', stats') ->
  forall fuel b regs w r,
    run exec_other fuel cfg b regs w = Some r ->
    run exec_other fuel cfg' b regs w = Some r.
Proof.
  intros Hst ([cfg1 st1] & H1 & H2)%process_code_Some.
  destruct (structured_optimization1 _ _ _ _ Hst H1) as (Hg & Hr & Hs).
  assert (no_slower exec_other cfg cfg1) as He1.
  { apply no_slower_blockwise.
    eapply optimization1_equivalent; [apply (st_branch _ Hst)|done]. }
  assert (no_slower exec_other cfg1 cfg') as He2.
  { unfold optimization2 in H2. by eapply fold_loop_no_slower. }
  by eapply no_slower_trans.
Qed.

(** * The further statements on sample graphs *)

Lemma NoDup_blocks : forall c, NoDup (blocks c).
Proof. intros c. apply NoDup_seq. Defined.

Lemma pass_keeps_arena_witness :
  exists cfg' stats',
    process_code layout_entered stale_order_cfg = Some (cfg', stats') /\
    length (cfg_blocks cfg') = length (cfg_blocks stale_order_cfg) /\
    length (cfg_edges cfg') = length (cfg_edges stale_order_cfg).
Proof.
  destruct (process_code layout_entered stale_order_cfg)
    as [[cfg' stats']|] eqn:H; [|vm_compute in H; discriminate].
  exists cfg', stats'. split; [reflexivity|].
  destruct (pass_keeps_arena layout_entered stale_order_cfg cfg' stats' H)
    as (H1 & H2 & _).
  split; [exact H1|exact H2].
Defined.

Lemma removed_moves_exact_witness :
  exists cfg' stats',
    process_code layout_entered stale_order_cfg = Some (cfg', stats') /\
    count_moves cfg' + removed_trailing_moves stats'
    = count_moves stale_order_cfg.
Proof.
  destruct (process_code layout_entered stale_order_cfg)
    as [[cfg' stats']|] eqn:H; [|vm_compute in H; discriminate].
  exists cfg', stats'. split; [reflexivity|].
  exact (removed_moves_exact layout_entered stale_order_cfg cfg' stats' H).
Defined.

Lemma instruction_count_exact_witness :
  exists cfg' stats',
    process_code layout_entered fold_value_cfg = Some (cfg', stats') /\
    count_insns cfg' + removed_trailing_moves stats'
    = count_insns fold_value_cfg + replaced_gotos_with_returns stats'.
Proof.
  destruct (process_code layout_entered fold_value_cfg)
    as [[cfg' stats']|] eqn:H; [|vm_compute in H; discriminate].
  exists cfg', stats'. split; [reflexivity|].
  exact (instruction_count_exact layout_entered fold_value_cfg cfg' stats'
           (st_sources _ structured_fold_value_cfg) H).
Defined.

Lemma replaced_gotos_exact_witness :
  exists cfg' stats',
    process_code blocks stale_order_cfg = Some (cfg', stats') /\
    count_edges cfg' + replaced_gotos_with_returns stats'
    = count_edges stale_order_cfg.
Proof.
  destruct (process_code blocks stale_order_cfg)
    as [[cfg' stats']|] eqn:H; [|vm_compute in H; discriminate].
  exists cfg', stats'. split; [reflexivity|].
  exact (replaced_gotos_exact blocks stale_order_cfg cfg' stats'
           NoDup_blocks H).
Defined.

(** The pass leaves [fallthrough_cfg] as it is and counts nothing. *)
Lemma zero_stats_iff_unchanged_witness :
  exists cfg' stats',
    process_code blocks fallthrough_cfg = Some (cfg', stats') /\
    cfg' = fallthrough_cfg /\ stats' = stats0.
Proof.
  destruct (process_code blocks fallthrough_cfg)
    as [[cfg' stats']|] eqn:H; [|vm_compute in H; discriminate].
  exists cfg', stats'. split; [reflexivity|].
  destruct (zero_stats_iff_unchanged blocks fallthrough_cfg cfg' stats' H)
    as [H1 H2].
  assert (stats' = stats0) as Hs.
  { vm_compute in H. injection H as _ <-. reflexivity. }
  split; [exact (H1 Hs)|exact (H2 NoDup_blocks (H1 Hs))].
Defined.

(** Block 1 of [fold_value_cfg] loses its trailing move and gets a
    return. *)
Lemma only_moves_out_only_returns_in_witness :
  exists cfg' stats',
    process_code blocks fold_value_cfg = Some (cfg', stats') /\
    trimmed [other_insn 1; move_insn 1 0] (block_insns cfg' 1) /\
    kept_insns (block_insns cfg' 1) = [other_insn 1].
Proof.
  destruct (process_code blocks fold_value_cfg)
    as [[cfg' stats']|] eqn:H; [|vm_compute in H; discriminate].
  exists cfg', stats'. split; [reflexivity|].
  destruct (only_moves_out_only_returns_in blocks fold_value_cfg cfg' stats'
              1 H) as [H1 H2].
  split; [exact H1|]. rewrite H2. vm_compute. reflexivity.
Defined.

(** The edge of [fold_value_cfg] from block 1 to block 3 is deleted, and
    block 1 ends in a return. *)
Lemma deleted_edge_source_returns_witness :
  ends_in_return [other_insn 1; return_insn 0].
Proof.
  exact (deleted_edge_source_returns blocks fold_value_cfg
           (mkCFG [ [other_insn 0]; [other_insn 1; return_insn 0];
                    [other_insn 2]; [return_insn 1] ]
                  [ None; Some (mkEdge 0 EDGE_GOTO 1) ])
           (mkStats 1 1 0) 0 (mkEdge 1 EDGE_GOTO 3)
           (st_sources _ structured_fold_value_cfg)
           eq_refl eq_refl eq_refl).
Defined.

(** On counters of 2 bits the total wraps around, and is the same for both
    groupings. *)
Lemma reduction_is_order_independent_witness :
  reduce 2 (RCombine (RMethod (mkStats 1 1 0)) (RMethod (mkStats 3 0 3)))
  = reduce 2 (RCombine (RMethod (mkStats 3 0 3))
                (RCombine RZero (RMethod (mkStats 1 1 0)))) /\
  replaced_gotos_with_returns
    (reduce 2 (RCombine (RMethod (mkStats 1 1 0))
                 (RMethod (mkStats 3 0 3)))) = 0.
Proof.
  destruct (reduction_is_order_independent 2
              (RCombine (RMethod (mkStats 1 1 0)) (RMethod (mkStats 3 0 3)))
              (RCombine (RMethod (mkStats 3 0 3))
                 (RCombine RZero (RMethod (mkStats 1 1 0)))))
    as (H1 & H2 & _).
  - repeat constructor; simpl; lia.
  - apply perm_swap.
  - split; [exact H1|exact H2].
Defined.

Lemma traces_iff_nonzero_witness :
  exists cfg' stats',
    process_code blocks fallthrough_cfg = Some (cfg', stats') /\
    stats' = stats0.
Proof.
  destruct (process_code blocks fallthrough_cfg)
    as [[cfg' stats']|] eqn:H; [|vm_compute in H; discriminate].
  exists cfg', stats'. split; [reflexivity|].
  apply (traces_iff_nonzero blocks fallthrough_cfg cfg' stats' H).
  vm_compute in H. injection H as _ <-. reflexivity.
Defined.

(** A scope of three methods, one without code: one goto is replaced, one
    move removed and one branch inverted. *)
Lemma run_pass_publishes_totals_witness :
  exists scope' mgr',
    run_pass blocks [Some fold_value_cfg; None; Some inversion_cfg]
             (fun _ => 10) = Some (scope', mgr') /\
    scope' !! 1 = Some None /\
    mgr' METRIC_GOTOS_REPLACED_WITH_RETURNS = 11 /\
    mgr' METRIC_TRAILING_MOVES_REMOVED = 11 /\
    mgr' METRIC_INVERTED_CONDITIONAL_BRANCHES = 11.
Proof.
  destruct (run_pass blocks [Some fold_value_cfg; None; Some inversion_cfg]
              (fun _ => 10)) as [[scope' mgr']|] eqn:H;
    [|vm_compute in H; discriminate].
  exists scope', mgr'. split; [reflexivity|].
  pose proof (run_pass_publishes_totals blocks _ _ scope' mgr' H) as P.
  cbv zeta in P. destruct P as (_ & Hn & Hg & Hm & Hi & _).
  split; [apply Hn; reflexivity|].
  split; [rewrite Hg; reflexivity|].
  split; [rewrite Hm; reflexivity|rewrite Hi; reflexivity].
Defined.

Lemma run_pass_fails_iff_malformed_witness :
  run_pass blocks [None; Some malformed_cfg] (fun _ => 0) = None.
Proof.
  apply (proj2 (run_pass_fails_iff_malformed blocks
                  [None; Some malformed_cfg] (fun _ => 0))).
  exists malformed_cfg, 0. split; [do 2 constructor|].
  split; [simpl; lia|]. split; [reflexivity|right; reflexivity].
Defined.

Lemma inversion_keeps_predecessor_counts_witness :
  exists cfg' st',
    invert_blocks [0; 1; 2; 3] (inversion_cfg, stats0) = Some (cfg', st') /\
    (forall b, num_preds cfg' b = num_preds inversion_cfg b).
Proof.
  destruct (invert_blocks [0; 1; 2; 3] (inversion_cfg, stats0))
    as [[cfg' st']|] eqn:H; [|vm_compute in H; discriminate].
  exists cfg', st'. split; [reflexivity|].
  exact (proj1 (inversion_keeps_predecessor_counts [0; 1; 2; 3]
                  inversion_cfg stats0 cfg' st' (NoDup_seq 0 4) H)).
Defined.

Lemma inversion_is_order_independent_witness :
  invert_blocks [0; 1; 2; 3] (inversion_cfg, stats0)
  = invert_blocks [3; 2; 1; 0] (inversion_cfg, stats0).
Proof.
  exact (inversion_is_order_independent [0; 1; 2; 3] [3; 2; 1; 0]
           inversion_cfg stats0 (NoDup_seq 0 4)
           (Permutation_rev [0; 1; 2; 3])).
Defined.

(** Entered at block 1 with [r0] holding 7, the method returns 7 after two
    blocks before the pass, and within two blocks after it. *)
Lemma pass_never_lengthens_runs_witness :
  let exec_other (_ : IRInstruction) (regs : Regs) (w : unit) := (regs, w) in
  let regs : Regs := fun r => if decide (r = 0) then 7%Z else 0%Z in
  exists cfg' stats',
    process_code layout_entered fold_value_cfg = Some (cfg', stats') /\
    run exec_other 2 cfg' 1 regs () = Some (Returned [7%Z] ()).
Proof.
  intros exec_other regs.
  destruct (process_code layout_entered fold_value_cfg)
    as [[cfg' stats']|] eqn:H; [|vm_compute in H; discriminate].
  exists cfg', stats'. split; [reflexivity|].
  exact (pass_never_lengthens_runs exec_other layout_entered fold_value_cfg
           cfg' stats' structured_fold_value_cfg H 2 1 regs ()
           (Returned [7%Z] ()) eq_refl).
Defined.
